(** * agenthints: section transformer, cache store, registry client, path guard

    A shallow embedding of the CLI's core modules:
    - [transformer.ts]  (wrapInSection, transformForAgent, extractSection,
                         removeSection, upsertSection)
    - [agents.ts]       (AgentConfig, the agents table, resolveAgentPath,
                         resolveAgentHeader)
    - [cache.ts]        (CacheEntry, getCacheDir, getCachePath, readCache,
                         writeCache, isExpired)
    - [registry.ts]     (fetchRegistryIndex, fetchHintMetadata,
                         fetchHintContent)
    - [fs.ts]           (ensureDir, fileExists, readFile, writeFile,
                         appendFile, deleteFile, resolvePath)
    - [add.ts], [remove.ts]  (writeHintToFile and one turn of each write
                         loop)

    JavaScript strings are sequences of UTF-16 code units; they are modelled
    as lists of code units, each code unit a number in [N].  The string
    methods the sources call ([indexOf], [slice], [replace], [trim],
    [startsWith]) are written out from ECMA-262, and the functions of
    [node:path] the sources call ([resolve], [join], [dirname]) from Node's
    POSIX implementation. *)

From Stdlib Require Import ZArith NArith List Bool Lia String Ascii.
From stdpp Require Import base option list gmap.

Set Warnings "-register-all".

Local Open Scope Z_scope.

(* ===================================================================== *)
(** * JavaScript strings *)
(* ===================================================================== *)

Module Js.

(** One UTF-16 code unit. *)
Abbreviation char := N.

Abbreviation jsstring := (list N).

(** ASCII literal of the sources as a JavaScript string. *)
Definition lit (s : string) : jsstring :=
  map (fun a => N_of_ascii a) (list_ascii_of_string s).

Definition LF : char := 10%N.
Definition DOLLAR : char := 36%N.
Definition AMP : char := 38%N.
Definition APOS : char := 39%N.
Definition BACKTICK : char := 96%N.
Definition DQUOTE : char := 34%N.
Definition SLASH : char := 47%N.
Definition LT : char := 60%N.
Definition BANG : char := 33%N.

(** Strict equality [===] on strings. *)
Fixpoint streq (a b : jsstring) : bool :=
  match a, b with
  | [], [] => true
  | x :: a', y :: b' => N.eqb x y && streq a' b'
  | _, _ => false
  end.

(** [s.startsWith(p)]. *)
Fixpoint startsWith (s p : jsstring) {struct p} : bool :=
  match p, s with
  | [], _ => true
  | x :: p', y :: s' => N.eqb x y && startsWith s' p'
  | _ :: _, [] => false
  end.

(** First position at which [pat] occurs in [s], scanning left to right
    (the loop of [String.prototype.indexOf] from position 0). *)
Fixpoint search (s pat : jsstring) : option nat :=
  if startsWith s pat then Some 0%nat
  else match s with
       | [] => None
       | _ :: t => option_map S (search t pat)
       end.

(** [s.indexOf(pat)]: the index of the first occurrence, or -1. *)
Definition indexOf (s pat : jsstring) : Z :=
  match search s pat with
  | Some k => Z.of_nat k
  | None => -1
  end.

(** [s.includes(pat)]. *)
Definition includes (s pat : jsstring) : bool :=
  match search s pat with Some _ => true | None => false end.

(** [s.slice(a, b)], negative arguments counting from the end. *)
Definition slice (s : jsstring) (a b : Z) : jsstring :=
  let len := Z.of_nat (length s) in
  let from := if a <? 0 then Z.max (len + a) 0 else Z.min a len in
  let to := if b <? 0 then Z.max (len + b) 0 else Z.min b len in
  let span := Z.max (to - from) 0 in
  take (Z.to_nat span) (drop (Z.to_nat from) s).

(** GetSubstitution of ECMA-262 for a string pattern: there are no capture
    groups, so only [$$], [$&], [$`] and [$'] are replacement patterns and
    every other [$] stands for itself. *)
Fixpoint getSubstitution (matched before after repl : jsstring) : jsstring :=
  match repl with
  | [] => []
  | c :: t =>
      if N.eqb c DOLLAR then
        match t with
        | [] => [c]
        | d :: t' =>
            if N.eqb d DOLLAR then DOLLAR :: getSubstitution matched before after t'
            else if N.eqb d AMP then matched ++ getSubstitution matched before after t'
            else if N.eqb d BACKTICK then before ++ getSubstitution matched before after t'
            else if N.eqb d APOS then after ++ getSubstitution matched before after t'
            else c :: getSubstitution matched before after t
        end
      else c :: getSubstitution matched before after t
  end.

(** [s.replace(pat, repl)] with a string pattern: the first occurrence of
    [pat] is replaced by the substitution computed from [repl]. *)
Definition replace (s pat repl : jsstring) : jsstring :=
  match search s pat with
  | None => s
  | Some k =>
      let before := take k s in
      let after := drop (k + length pat) s in
      before ++ getSubstitution pat before after repl ++ after
  end.

(** WhiteSpace and LineTerminator code units of ECMA-262, the ones [trim]
    strips. *)
Definition isWhiteSpace (c : char) : bool :=
  let n := Z.of_N c in
  ((9 <=? n) && (n <=? 13)) || (n =? 32) || (n =? 160) || (n =? 5760)
  || ((8192 <=? n) && (n <=? 8202)) || (n =? 8232) || (n =? 8233)
  || (n =? 8239) || (n =? 8287) || (n =? 12288) || (n =? 65279).

Fixpoint trimStart (s : jsstring) : jsstring :=
  match s with
  | [] => []
  | c :: t => if isWhiteSpace c then trimStart t else s
  end.

Definition trimEnd (s : jsstring) : jsstring := rev (trimStart (rev s)).

(** [s.trim()]. *)
Definition trim (s : jsstring) : jsstring := trimEnd (trimStart s).

(** The pending run of line feeds is written out when it ends: a run of
    three or more is the match of [/\n{3,}/] and becomes two line feeds, a
    shorter run is no match and stays. *)
Definition flushLF (pending : nat) : jsstring :=
  repeat LF (if (3 <=? pending)%nat then 2%nat else pending).

(** [s.replace(/\n{3,}/g, "\n\n")], scanning left to right with the number
    of line feeds of the current (greedy, maximal) run. *)
Fixpoint collapseFrom (pending : nat) (s : jsstring) : jsstring :=
  match s with
  | [] => flushLF pending
  | c :: t =>
      if N.eqb c LF then collapseFrom (S pending) t
      else flushLF pending ++ c :: collapseFrom 0 t
  end.

Definition collapseNewlines (s : jsstring) : jsstring := collapseFrom 0 s.

(** Truthiness of a [string | null | undefined] value: only a non-empty
    string is truthy. *)
Definition truthy (o : option jsstring) : bool :=
  match o with
  | Some (_ :: _) => true
  | _ => false
  end.

End Js.

Import Js.

(* ===================================================================== *)
(** * agents.ts *)
(* ===================================================================== *)

Module Agents.

(** [header?: string | ((hintName: string) => string)]. *)
Inductive Header :=
| HeaderString (s : jsstring)
| HeaderFunction (f : jsstring -> jsstring).

Record AgentConfig := {
  name : jsstring;
  description : jsstring;
  path : jsstring;
  header : option Header;
  appendMode : bool;
  transform : option (jsstring -> jsstring -> jsstring)
}.

Definition resolveAgentPath (agent : AgentConfig) (hintName : jsstring) : jsstring :=
  replace (path agent) (lit "{hint}") hintName.

(** [!agent.header] holds for a missing header and for the empty string; a
    function is always truthy. *)
Definition resolveAgentHeader (agent : AgentConfig) (hintName : jsstring)
  : option jsstring :=
  match header agent with
  | None => None
  | Some (HeaderString []) => None
  | Some (HeaderFunction f) => Some (f hintName)
  | Some (HeaderString s) => Some s
  end.

(** Entries of the static [agents] table used below. *)
Definition windsurf : AgentConfig :=
  {| name := lit "Windsurf";
     description := lit "Codeium's Windsurf IDE";
     path := lit ".windsurf/rules/{hint}.md";
     header := None;
     appendMode := false;
     transform := None |}.

Definition claude : AgentConfig :=
  {| name := lit "Claude Code";
     description := lit "Anthropic Claude Code CLI";
     path := lit "CLAUDE.md";
     header := None;
     appendMode := true;
     transform := None |}.

Definition cursor : AgentConfig :=
  {| name := lit "Cursor";
     description := lit "Cursor AI IDE";
     path := lit ".cursor/rules/{hint}.mdc";
     header := Some (HeaderFunction (fun hint =>
        lit "---" ++ [LF] ++ lit "description: " ++ [DQUOTE] ++ hint ++ [DQUOTE]
        ++ [LF] ++ lit "globs: " ++ [DQUOTE] ++ lit "**/*" ++ [DQUOTE]
        ++ [LF] ++ lit "alwaysApply: true" ++ [LF] ++ lit "---"));
     appendMode := false;
     transform := None |}.

End Agents.

Import Agents.

(* ===================================================================== *)
(** * transformer.ts *)
(* ===================================================================== *)

Module Transformer.

Record TransformResult := {
  content : jsstring;
  path : jsstring;
  appendMode : bool
}.

(** [`<!-- agenthints:${hintName}:start -->`] *)
Definition sectionStart (hintName : jsstring) : jsstring :=
  lit "<!-- agenthints:" ++ hintName ++ lit ":start -->".

(** [`<!-- agenthints:${hintName}:end -->`] *)
Definition sectionEnd (hintName : jsstring) : jsstring :=
  lit "<!-- agenthints:" ++ hintName ++ lit ":end -->".

Definition wrapInSection (content hintName : jsstring) : jsstring :=
  sectionStart hintName ++ [LF] ++ content ++ [LF] ++ sectionEnd hintName.

(** The content after the header and the custom transform, before the
    section wrap. *)
Definition withHeader (content hintName : jsstring) (agent : AgentConfig) : jsstring :=
  let header := resolveAgentHeader agent hintName in
  if truthy header
  then default [] header ++ [LF; LF] ++ content
  else content.

Definition withTransform (content hintName : jsstring) (agent : AgentConfig) : jsstring :=
  match transform agent with
  | Some f => f content hintName
  | None => content
  end.

Definition transformForAgent (content hintName : jsstring) (agent : AgentConfig)
  (resolvedPath : jsstring) : TransformResult :=
  let transformedContent := content in
  let transformedContent := withHeader transformedContent hintName agent in
  let transformedContent := withTransform transformedContent hintName agent in
  let transformedContent :=
    if Agents.appendMode agent then wrapInSection transformedContent hintName
    else transformedContent in
  {| content := transformedContent;
     path := resolvedPath;
     appendMode := Agents.appendMode agent |}.

Definition extractSection (fileContent hintName : jsstring) : option jsstring :=
  let startIndex := indexOf fileContent (sectionStart hintName) in
  let endIndex := indexOf fileContent (sectionEnd hintName) in
  if (startIndex =? -1) || (endIndex =? -1) || (startIndex >=? endIndex)
  then None
  else Some (slice fileContent startIndex
               (endIndex + Z.of_nat (length (sectionEnd hintName)))).

Definition removeSection (fileContent hintName : jsstring) : jsstring :=
  let section := extractSection fileContent hintName in
  if negb (truthy section) then fileContent
  else trim (collapseNewlines (replace fileContent (default [] section) [])).

Definition upsertSection (fileContent hintName newSection : jsstring) : jsstring :=
  let existingSection := extractSection fileContent hintName in
  if truthy existingSection
  then replace fileContent (default [] existingSection) newSection
  else
    let trimmedContent := trim fileContent in
    if (length trimmedContent =? 0)%nat then newSection
    else trimmedContent ++ [LF; LF] ++ newSection.

End Transformer.

Import Transformer.

(* ===================================================================== *)
(** * node:path (POSIX) *)
(* ===================================================================== *)

Module NodePath.

Definition sep : jsstring := [SLASH].

(** The segments between the separators of a path. *)
Fixpoint splitSlash (s : jsstring) : list jsstring :=
  match s with
  | [] => [[]]
  | c :: t =>
      if N.eqb c SLASH then [] :: splitSlash t
      else match splitSlash t with
           | seg :: rest => (c :: seg) :: rest
           | [] => [[c]]
           end
  end.

Fixpoint joinSlash (segs : list jsstring) : jsstring :=
  match segs with
  | [] => []
  | [seg] => seg
  | seg :: rest => seg ++ SLASH :: joinSlash rest
  end.

(** The loop of [normalizeString] over the segments, with the segments kept
    so far in [stack], last one first: empty and [.] segments are dropped,
    [..] removes the last kept segment; at the top [..] is kept only when
    [allowAboveRoot]. *)
Fixpoint normSegs (allowAboveRoot : bool) (stack segs : list jsstring)
  : list jsstring :=
  match segs with
  | [] => rev stack
  | seg :: rest =>
      if streq seg [] || streq seg (lit ".") then
        normSegs allowAboveRoot stack rest
      else if streq seg (lit "..") then
        match stack with
        | top :: stack' =>
            if streq top (lit "..") then
              normSegs allowAboveRoot
                (if allowAboveRoot then seg :: stack else stack) rest
            else normSegs allowAboveRoot stack' rest
        | [] =>
            normSegs allowAboveRoot
              (if allowAboveRoot then [seg] else []) rest
        end
      else normSegs allowAboveRoot (seg :: stack) rest
  end.

Definition normalizeString (path : jsstring) (allowAboveRoot : bool) : jsstring :=
  joinSlash (normSegs allowAboveRoot [] (splitSlash path)).

Definition isAbsolute (path : jsstring) : bool := startsWith path sep.

Definition endsWithSlash (path : jsstring) : bool :=
  match rev path with
  | c :: _ => N.eqb c SLASH
  | [] => false
  end.

(** The right-to-left loop of [resolve]: arguments are prepended until an
    absolute one is met; [process.cwd()] comes after the first argument. *)
Fixpoint resolveLoop (rargs : list jsstring) (processCwd resolvedPath : jsstring)
  : jsstring * bool :=
  match rargs with
  | [] =>
      match processCwd with
      | [] => (resolvedPath, false)
      | _ => (processCwd ++ SLASH :: resolvedPath, isAbsolute processCwd)
      end
  | [] :: rest => resolveLoop rest processCwd resolvedPath
  | path :: rest =>
      if isAbsolute path then (path ++ SLASH :: resolvedPath, true)
      else resolveLoop rest processCwd (path ++ SLASH :: resolvedPath)
  end.

(** [resolve(...args)]. *)
Definition resolve (processCwd : jsstring) (args : list jsstring) : jsstring :=
  let '(resolvedPath, resolvedAbsolute) := resolveLoop (rev args) processCwd [] in
  let resolvedPath := normalizeString resolvedPath (negb resolvedAbsolute) in
  if resolvedAbsolute then SLASH :: resolvedPath
  else match resolvedPath with
       | [] => lit "."
       | _ => resolvedPath
       end.

(** [normalize(path)]. *)
Definition normalize (path : jsstring) : jsstring :=
  match path with
  | [] => lit "."
  | _ =>
      let absolute := isAbsolute path in
      let trailingSeparator := endsWithSlash path in
      let path := normalizeString path (negb absolute) in
      match path with
      | [] => if absolute then sep
              else if trailingSeparator then lit "./" else lit "."
      | _ =>
          let path := if trailingSeparator then path ++ sep else path in
          if absolute then SLASH :: path else path
      end
  end.

(** [join(...args)]. *)
Definition join (args : list jsstring) : jsstring :=
  match filter (fun a => a <> []) args with
  | [] => lit "."
  | parts => normalize (joinSlash parts)
  end.

(** The loop of [dirname], from the last code unit down to the one at
    index 1: the index of the last slash that has a name after it.
    [matchedSlash] holds as long as only slashes were seen. *)
Fixpoint dirnameEnd (backwards : jsstring) (i : nat) (matchedSlash : bool)
  : option nat :=
  match backwards with
  | [] => None
  | c :: rest =>
      if N.eqb c SLASH then
        if negb matchedSlash then Some i
        else dirnameEnd rest (i - 1) matchedSlash
      else dirnameEnd rest (i - 1) false
  end.

(** [dirname(path)]. *)
Definition dirname (path : jsstring) : jsstring :=
  match path with
  | [] => lit "."
  | first :: others =>
      let hasRoot := N.eqb first SLASH in
      match dirnameEnd (rev others) (length others) true with
      | None => if hasRoot then lit "/" else lit "."
      | Some end_ =>
          if hasRoot && (end_ =? 1)%nat then lit "//" else take end_ path
      end
  end.

End NodePath.

(* ===================================================================== *)
(** * The process and its surroundings *)
(* ===================================================================== *)

(** Values as [JSON.parse] returns them and [JSON.stringify] writes them.
    The TypeScript casts ([as CacheEntry<T>], [as HintMetadata]) check
    nothing, so cached and fetched data stay JSON values. *)
Inductive Json :=
| JNull
| JBool (b : bool)
| JNumber (n : Z)
| JString (s : jsstring)
| JArray (items : list Json)
| JObject (fields : list (jsstring * Json)).

(** What a function throws. *)
Inductive JsError :=
| Error (message : jsstring)      (* [throw new Error(message)] *)
| NetworkFailure                   (* [fetch] rejects *)
| BodyFailure                      (* reading the body of a response rejects *)
| JsonSyntaxError                  (* [JSON.parse] / [response.json()] *)
| FsError (path : jsstring).       (* a file operation on the path rejects *)

(** A response; [body] is what reading it to the end gives, [None] when
    that read rejects. *)
Record Response := {
  status : Z;
  statusText : jsstring;
  body : option jsstring
}.

(** [response.ok]: the status is in the range 200-299. *)
Definition ok (r : Response) : bool := (200 <=? status r) && (status r <=? 299).

(** [CacheEntry<T>] of cache.ts. *)
Record CacheEntry := {
  data : Json;
  timestamp : Z;
  sha256 : option jsstring
}.

(** What a run reads but does not change. *)
Record Env := {
  LOCAL_REGISTRY : option jsstring;           (* process.env.AGENTHINTS_REGISTRY *)
  processCwd : jsstring;                      (* process.cwd() *)
  tmpdir : jsstring;                          (* os.tmpdir() *)
  network : jsstring -> option Response;      (* fetch(url); None: rejected *)
  elapsed : jsstring -> Z;                    (* time the request takes, in ms *)
  files : jsstring -> option jsstring;        (* readFile(path, "utf-8") *)
  parseJSON : jsstring -> option Json;        (* JSON.parse *)
  mkdirFails : jsstring -> bool;              (* mkdir(dir, { recursive }) rejects *)
  writeFails : jsstring -> option bool        (* writeFile(path, ...) rejects;
                                                 true: after the file was
                                                 truncated or partly written *)
}.

(** What a run changes: the cache files that parse as cache entries, keyed
    by file path (a file that a failed write left truncated or partly
    written parses no more, as no proper prefix of an object's text does);
    the clock [Date.now()] reads, in milliseconds (times are
    integral and far below 2^53, where number arithmetic is exact); and the
    URLs requested so far, oldest first. *)
Record World := {
  disk : gmap jsstring CacheEntry;
  clock : Z;
  requests : list jsstring
}.

(** Computations that read and change the world and may throw. *)
Definition M (A : Type) : Type := World -> (JsError + A) * World.

Definition ret {A} (a : A) : M A := fun w => (inr a, w).

Definition throw {A} (e : JsError) : M A := fun w => (inl e, w).

Definition bind {A B} (m : M A) (k : A -> M B) : M B :=
  fun w => match m w with
           | (inl e, w') => (inl e, w')
           | (inr a, w') => k a w'
           end.

Declare Scope js_scope.
Delimit Scope js_scope with js.
Notation "'let!' x ':=' m 'in' k" := (bind m (fun x => k))
  (at level 10, x pattern, m at level 100, k at level 200) : js_scope.
Local Open Scope js_scope.

(* ===================================================================== *)
(** * cache.ts *)
(* ===================================================================== *)

Module Cache.

Definition INDEX_TTL_MS : Z := 5 * 60 * 1000.
Definition HINT_TTL_MS : Z := 24 * 60 * 60 * 1000.

Definition getCacheDir (env : Env) : jsstring :=
  NodePath.join [tmpdir env; lit "agenthints-cache"].

Definition getCachePath (env : Env) (key : jsstring) : jsstring :=
  NodePath.join [getCacheDir env; key ++ lit ".json"].

(** A missing or unparsable file reads as null. *)
Definition readCache (env : Env) (key : jsstring) : M (option CacheEntry) :=
  fun w => (inr (disk w !! getCachePath env key), w).

(** [await mkdir(dir, { recursive: true })]; directories are not kept. *)
Definition mkdir (env : Env) (dir : jsstring) : M unit :=
  fun w => if mkdirFails env dir then (inl (FsError dir), w) else (inr tt, w).

(** [await writeFile(path, JSON.stringify(entry))]: the entry is stored, or
    the write rejects and the file is as before or parses no more. *)
Definition writeEntry (env : Env) (path : jsstring) (entry : CacheEntry) : M unit :=
  fun w =>
    match writeFails env path with
    | None =>
        (inr tt, {| disk := <[path := entry]> (disk w);
                    clock := clock w;
                    requests := requests w |})
    | Some damaged =>
        (inl (FsError path),
         {| disk := if damaged then delete path (disk w) else disk w;
            clock := clock w;
            requests := requests w |})
    end.

(** [{ data, timestamp: Date.now(), ...(sha256 && { sha256 }) }]: a missing
    or empty hash leaves the entry without one.  Neither await is inside a
    try: a rejected [mkdir] or [writeFile] is thrown on. *)
Definition writeCache (env : Env) (key : jsstring) (d : Json)
  (sha : option jsstring) : M unit :=
  let cachePath := getCachePath env key in
  fun w =>
    let entry := {| data := d;
                    timestamp := clock w;
                    sha256 := if truthy sha then sha else None |} in
    (let! _ := mkdir env (NodePath.dirname cachePath) in
     writeEntry env cachePath entry) w.

(** [Date.now() - timestamp >= ttlMs]. *)
Definition isExpired (timestamp ttlMs : Z) : M bool :=
  fun w => (inr (clock w - timestamp >=? ttlMs), w).

End Cache.

(* ===================================================================== *)
(** * registry.ts *)
(* ===================================================================== *)

Module Registry.

Import Cache.

Definition REGISTRY_BASE_URL (env : Env) : jsstring :=
  if truthy (LOCAL_REGISTRY env) then default [] (LOCAL_REGISTRY env)
  else lit "https://agenthints.tech/registry".

(** [await fetch(url)]: the request is issued, then answered or rejected,
    and time has passed meanwhile. *)
Definition fetch (env : Env) (url : jsstring) : M Response :=
  fun w =>
    let w' := {| disk := disk w; clock := clock w + elapsed env url;
                 requests := requests w ++ [url] |} in
    match network env url with
    | Some r => (inr r, w')
    | None => (inl NetworkFailure, w')
    end.

Definition readFile (env : Env) (path : jsstring) : M jsstring :=
  fun w => match files env path with
           | Some text => (inr text, w)
           | None => (inl (FsError path), w)
           end.

Definition jsonParse (env : Env) (text : jsstring) : M Json :=
  fun w => match parseJSON env text with
           | Some v => (inr v, w)
           | None => (inl JsonSyntaxError, w)
           end.

(** [await response.text()]. *)
Definition text (response : Response) : M jsstring :=
  fun w => match body response with
           | Some t => (inr t, w)
           | None => (inl BodyFailure, w)
           end.

(** [await response.json()]: the body is read, then parsed. *)
Definition json (env : Env) (response : Response) : M Json :=
  let! t := text response in jsonParse env t.

(** Strict equality of [cached.sha256] and [expectedSha256], each a string
    or undefined. *)
Definition sameHash (a b : option jsstring) : bool :=
  match a, b with
  | Some x, Some y => streq x y
  | None, None => true
  | _, _ => false
  end.

(** [`Hint "${hintPath}" not found in registry. Run "agenthints list" to see
    available hints.`] *)
Definition notFoundMessage (hintPath : jsstring) : jsstring :=
  lit "Hint " ++ [DQUOTE] ++ hintPath ++ [DQUOTE]
  ++ lit " not found in registry. Run " ++ [DQUOTE] ++ lit "agenthints list"
  ++ [DQUOTE] ++ lit " to see available hints.".

Definition metadataFailedMessage (text : jsstring) : jsstring :=
  lit "Failed to fetch hint metadata: " ++ text.

Definition contentFailedMessage (text : jsstring) : jsstring :=
  lit "Failed to fetch hint content: " ++ text.

Definition fetchHintMetadata (env : Env) (hintPath : jsstring) : M Json :=
  if truthy (LOCAL_REGISTRY env) then
    let! content :=
      readFile env
        (NodePath.resolve (processCwd env)
           [default [] (LOCAL_REGISTRY env);
            lit "hints/" ++ hintPath ++ lit "/meta.json"]) in
    jsonParse env content
  else
    let cacheKey := lit "hints/" ++ hintPath ++ lit "/meta" in
    let fromNetwork : M Json :=
      let! response :=
        fetch env (REGISTRY_BASE_URL env ++ lit "/hints/" ++ hintPath
                   ++ lit "/meta.json") in
      if negb (ok response) then
        if status response =? 404
        then throw (Error (notFoundMessage hintPath))
        else throw (Error (metadataFailedMessage (statusText response)))
      else
        let! metadata := json env response in
        let! _ := writeCache env cacheKey metadata None in
        ret metadata in
    let! cached := readCache env cacheKey in
    match cached with
    | Some c =>
        let! expired := isExpired (timestamp c) HINT_TTL_MS in
        if negb expired then ret (data c) else fromNetwork
    | None => fromNetwork
    end.

Definition fetchHintContent (env : Env) (hintPath hintFile : jsstring)
  (expectedSha256 : option jsstring) : M Json :=
  let filePath := replace hintFile (lit "./") [] in
  if truthy (LOCAL_REGISTRY env) then
    let! text :=
      readFile env
        (NodePath.resolve (processCwd env)
           [default [] (LOCAL_REGISTRY env);
            lit "hints/" ++ hintPath ++ SLASH :: filePath]) in
    ret (JString text)
  else
    let cacheKey := lit "hints/" ++ hintPath ++ lit "/content" in
    let fromNetwork : M Json :=
      let! response :=
        fetch env (REGISTRY_BASE_URL env ++ lit "/hints/" ++ hintPath
                   ++ SLASH :: filePath) in
      if negb (ok response) then
        throw (Error (contentFailedMessage (statusText response)))
      else
        let! content := text response in
        let! _ := writeCache env cacheKey (JString content) expectedSha256 in
        ret (JString content) in
    let! cached := readCache env cacheKey in
    (* Use cache if: not expired AND (no expected SHA OR SHA matches) *)
    match cached with
    | Some c =>
        let! expired := isExpired (timestamp c) HINT_TTL_MS in
        if negb expired
           && (negb (truthy expectedSha256)
               || sameHash (sha256 c) expectedSha256)
        then ret (data c)
        else fromNetwork
    | None => fromNetwork
    end.

End Registry.

(* ===================================================================== *)
(** * fs.ts *)
(* ===================================================================== *)

Module Fs.

Definition escapeMessage (relativePath : jsstring) : jsstring :=
  lit "Path " ++ [DQUOTE] ++ relativePath ++ [DQUOTE]
  ++ lit " resolves outside the working directory".

(** [cwd ?? process.cwd()] takes the process directory only for a missing
    [cwd]. *)
Definition resolvePath (processCwd relativePath : jsstring)
  (cwd : option jsstring) : JsError + jsstring :=
  let baseDir := NodePath.resolve processCwd [default processCwd cwd] in
  let resolved := NodePath.resolve processCwd [baseDir; relativePath] in
  if negb (startsWith resolved (baseDir ++ NodePath.sep))
     && negb (streq resolved baseDir)
  then inl (Error (escapeMessage relativePath))
  else inr resolved.

End Fs.

(* ===================================================================== *)
(** * Vocabulary of the statements *)
(* ===================================================================== *)

Import Cache Registry NodePath.

(** ** Occurrences of a text in a text *)

(** [occ s pat j]: [pat] occurs in [s] at position [j]. *)
Definition occ (s pat : jsstring) (j : nat) : bool := startsWith (drop j s) pat.

(** Number of positions at which [pat] occurs in [s]. *)
Fixpoint countOcc (s pat : jsstring) : nat :=
  ((if startsWith s pat then 1 else 0)
   + match s with
     | [] => 0
     | _ :: t => countOcc t pat
     end)%nat.

(** ** Shapes of texts *)

Definition allWhite (s : jsstring) : bool := forallb isWhiteSpace s.

(** Texts without a line feed. *)
Definition lineFree (s : jsstring) : bool := forallb (fun c => negb (N.eqb c LF)) s.

Definition angleFree (s : jsstring) : bool := forallb (fun c => negb (N.eqb c LT)) s.

(** Slugs without a line feed and without [<]. *)
Definition plainSlug (slug : jsstring) : bool :=
  forallb (fun c => negb (N.eqb c LF) && negb (N.eqb c LT)) slug.

(** Replacement texts that hold none of the patterns [$$], [$&], [$`], [$']. *)
Fixpoint plainReplacement (repl : jsstring) : bool :=
  match repl with
  | [] => true
  | c :: t =>
      if N.eqb c DOLLAR then
        match t with
        | [] => true
        | d :: _ =>
            negb (N.eqb d DOLLAR || N.eqb d AMP || N.eqb d BACKTICK || N.eqb d APOS)
            && plainReplacement t
        end
      else plainReplacement t
  end.

(** ** Files and their sections *)

(** How a file with a section for the slug is laid out. *)
Record SectionAt (F : jsstring) (slug : jsstring) (sec : jsstring)
  (before after : jsstring) : Prop := {
  sa_file : F = before ++ sec ++ after;
  sa_start_first : search F (sectionStart slug) = Some (length before);
  sa_end_first :
    search F (sectionEnd slug)
    = Some (length before + length sec - length (sectionEnd slug))%nat;
  sa_starts : startsWith sec (sectionStart slug) = true;
  sa_len : (length (sectionStart slug) <= length sec)%nat;
  sa_found : search F sec = Some (length before)
}.

Definition hasSection (F slug : jsstring) : bool :=
  match extractSection F slug with Some _ => true | None => false end.

(** Neither marker of the slug occurs in the text. *)
Definition markerFree (F slug : jsstring) : bool :=
  negb (includes F (sectionStart slug)) && negb (includes F (sectionEnd slug)).

(** ** The collapse of line-feed runs, in the words of the specification *)

(** [RunsCollapsed s r]: [r] is [s] with every maximal run of three or
    more line feeds replaced by exactly two line feeds, and every other
    code unit and every shorter run kept.  A run is taken whole: it ends
    where the text ends or another code unit follows, and it begins at the
    start of the text or after another code unit. *)
Inductive RunsCollapsed : jsstring -> jsstring -> Prop :=
| collapsed_end : RunsCollapsed [] []
| collapsed_unit c s r :
    c <> LF -> RunsCollapsed s r -> RunsCollapsed (c :: s) (c :: r)
| collapsed_run n s r :
    (0 < n)%nat -> (forall t, s <> LF :: t) -> RunsCollapsed s r ->
    RunsCollapsed (repeat LF n ++ s)
      (repeat LF (if (3 <=? n)%nat then 2%nat else n) ++ r).

(** ** Worlds and requests of the registry client *)

Definition contentKey (hintPath : jsstring) : jsstring :=
  lit "hints/" ++ hintPath ++ lit "/content".

Definition contentUrl (env : Env) (hintPath hintFile : jsstring) : jsstring :=
  REGISTRY_BASE_URL env ++ lit "/hints/" ++ hintPath
  ++ SLASH :: replace hintFile (lit "./") [].

Definition metaKey (hintPath : jsstring) : jsstring :=
  lit "hints/" ++ hintPath ++ lit "/meta".

Definition metaUrl (env : Env) (hintPath : jsstring) : jsstring :=
  REGISTRY_BASE_URL env ++ lit "/hints/" ++ hintPath ++ lit "/meta.json".

(** The cache test as the claim words it: the entry exists, is not expired
    under the hint TTL, and no hash was supplied or the cached hash equals
    the supplied one. *)
Definition usableAsClaimed (cached : option CacheEntry) (now : Z)
  (expectedSha256 : option jsstring) : bool :=
  match cached with
  | None => false
  | Some c =>
      negb (now - timestamp c >=? HINT_TTL_MS)
      && match expectedSha256 with
         | None => true
         | Some _ => sameHash (sha256 c) expectedSha256
         end
  end.

(** The cache test with an empty hash counted as no hash. *)
Definition usable (cached : option CacheEntry) (now : Z)
  (expectedSha256 : option jsstring) : bool :=
  match cached with
  | None => false
  | Some c =>
      negb (now - timestamp c >=? HINT_TTL_MS)
      && (negb (truthy expectedSha256) || sameHash (sha256 c) expectedSha256)
  end.

(** A cached entry that is not expired under the hint TTL. *)
Definition fresh (cached : option CacheEntry) (now : Z) : bool :=
  match cached with
  | None => false
  | Some c => negb (now - timestamp c >=? HINT_TTL_MS)
  end.

(** The world after a successful fetch of [text]. *)
Definition afterFetch (env : Env) (w : World) (hintPath url text : jsstring)
  (expectedSha256 : option jsstring) : World :=
  {| disk := <[getCachePath env (contentKey hintPath) :=
                 {| data := JString text;
                    timestamp := clock w + elapsed env url;
                    sha256 := if truthy expectedSha256 then expectedSha256
                              else None |}]> (disk w);
     clock := clock w + elapsed env url;
     requests := requests w ++ [url] |}.

Definition afterRequest (env : Env) (w : World) (url : jsstring) : World :=
  {| disk := disk w;
     clock := clock w + elapsed env url;
     requests := requests w ++ [url] |}.

(** The world after a request whose answer could not be written to the
    cache file [path]: the write rejected after it had truncated or partly
    written the file. *)
Definition afterDamage (env : Env) (w : World) (url path : jsstring) : World :=
  {| disk := delete path (disk w);
     clock := clock w + elapsed env url;
     requests := requests w ++ [url] |}.

(** No directory and no file of the cache fails to be written. *)
Definition cacheWritable (env : Env) (key : jsstring) : bool :=
  negb (mkdirFails env (dirname (getCachePath env key)))
  && match writeFails env (getCachePath env key) with
     | None => true
     | Some _ => false
     end.

Definition remoteEnv (net : jsstring -> option Response) : Env :=
  {| LOCAL_REGISTRY := None;
     processCwd := lit "/home/user/project";
     tmpdir := lit "/tmp";
     network := net;
     elapsed := fun _ => 120;
     files := fun _ => None;
     parseJSON := fun _ => None;
     mkdirFails := fun _ => false;
     writeFails := fun _ => None |}.

(** The remote process on a full disk: every write of a cache file rejects
    after the file was truncated. *)
Definition fullDiskEnv (net : jsstring -> option Response) : Env :=
  {| LOCAL_REGISTRY := None;
     processCwd := lit "/home/user/project";
     tmpdir := lit "/tmp";
     network := net;
     elapsed := fun _ => 120;
     files := fun _ => None;
     parseJSON := fun _ => None;
     mkdirFails := fun _ => false;
     writeFails := fun _ => Some true |}.

Definition oneEntry (env : Env) (key : jsstring) (c : CacheEntry) (now : Z) : World :=
  {| disk := {[ getCachePath env key := c ]}; clock := now; requests := [] |}.

Definition emptyWorld (now : Z) : World :=
  {| disk := ∅; clock := now; requests := [] |}.

Definition okResponse (text : jsstring) : Response :=
  {| status := 200; statusText := lit "OK"; body := Some text |}.

Definition notFoundResponse : Response :=
  {| status := 404; statusText := lit "Not Found"; body := Some [] |}.

Definition serverErrorResponse : Response :=
  {| status := 500; statusText := lit "Internal Server Error"; body := Some [] |}.

(** ** Paths and their names *)

Definition slashFree (seg : jsstring) : bool :=
  forallb (fun c => negb (N.eqb c SLASH)) seg.

(** A name of a normalized path: not empty, not [.], not [..], no slash. *)
Definition properName (seg : jsstring) : bool :=
  negb (streq seg []) && negb (streq seg (lit "."))
  && negb (streq seg (lit "..")) && slashFree seg.

(** The names a path is made of: its segments without the empty ones. *)
Definition components (path : jsstring) : list jsstring :=
  filter (fun seg => seg <> []) (splitSlash path).

(** [p] is [base] or below it: the names of [base] begin the names of [p]. *)
Definition inside (base p : jsstring) : Prop :=
  components base `prefix_of` components p.

(* ===================================================================== *)
(** * More of agents.ts and registry.ts *)
(* ===================================================================== *)

Module AgentsTable.

Definition appendAgent (n d p : string) : AgentConfig :=
  {| name := lit n; description := lit d; Agents.path := lit p;
     header := None; Agents.appendMode := true; transform := None |}.

Definition perHintAgent (n d p : string) : AgentConfig :=
  {| name := lit n; description := lit d; Agents.path := lit p;
     header := None; Agents.appendMode := false; transform := None |}.

(** The [agents] object, key by key in source order. *)
Definition agents : list (jsstring * AgentConfig) :=
  [ (lit "droid", appendAgent "Droid" "Factory Droid CLI" "AGENTS.md");
    (lit "claude", claude);
    (lit "codex", appendAgent "OpenAI Codex" "OpenAI Codex CLI" "AGENTS.md");
    (lit "google",
     appendAgent "Gemini / Antigravity / Firebase Studio"
       "Gemini CLI / Antigravity IDE / Firebase Studio" "GEMINI.md");
    (lit "copilot", appendAgent "GitHub Copilot" "GitHub Copilot" "AGENTS.md");
    (lit "aider", appendAgent "Aider" "Aider CLI coding assistant" "CONVENTIONS.md");
    (lit "amp", appendAgent "AMP" "Sourcegraph AMP" "AGENT.md");
    (lit "augment",
     perHintAgent "Augment Code" "Augment Code assistant" ".augment/rules/{hint}.md");
    (lit "cline", perHintAgent "Cline" "Cline VS Code extension" ".clinerules/{hint}.md");
    (lit "cursor", cursor);
    (lit "devin", appendAgent "Devin" "Cognition Devin AI" "AGENTS.md");
    (lit "goose", appendAgent "Goose" "Block's Codename Goose" ".goosehints");
    (lit "jules", appendAgent "Jules" "Google Jules AI agent" "AGENTS.md");
    (lit "junie", appendAgent "Junie" "JetBrains Junie" "AGENTS.md");
    (lit "kilo-code",
     perHintAgent "Kilo Code" "Kilo Code assistant" ".kilocode/rules/{hint}.md");
    (lit "kiro", perHintAgent "Kiro" "Kiro IDE" ".kiro/steering/{hint}.md");
    (lit "open-hands",
     perHintAgent "OpenHands" "OpenHands AI agent" ".openhands/skills/{hint}.md");
    (lit "opencode", appendAgent "OpenCode" "OpenCode CLI assistant" "AGENTS.md");
    (lit "roo-code", perHintAgent "Roo Code" "Roo Code assistant" ".roo/rules/{hint}.md");
    (lit "replit", appendAgent "Replit" "Replit Agent" "replit.md");
    (lit "warp", appendAgent "Warp" "Warp terminal AI" "WARP.md");
    (lit "windsurf", windsurf);
    (lit "zed", appendAgent "Zed" "Zed editor AI assistant" "AGENTS.md") ].

(** [Object.keys(agents)]. *)
Definition agentNames : list jsstring := map fst agents.

End AgentsTable.

Module CacheMore.

(** [p] is the directory [dir] or a path below it. *)
Definition underDir (dir p : jsstring) : bool :=
  streq p dir || startsWith p (dir ++ sep).

End CacheMore.

Module RegistryMore.

Definition indexFailedMessage (text : jsstring) : jsstring :=
  lit "Failed to fetch registry index: " ++ text.

Definition fetchRegistryIndex (env : Env) : M Json :=
  if truthy (LOCAL_REGISTRY env) then
    let! content :=
      readFile env
        (NodePath.resolve (processCwd env)
           [default [] (LOCAL_REGISTRY env); lit "index.json"]) in
    jsonParse env content
  else
    let cacheKey := lit "index" in
    let fromNetwork : M Json :=
      let! response := fetch env (REGISTRY_BASE_URL env ++ lit "/index.json") in
      if negb (ok response) then
        throw (Error (indexFailedMessage (statusText response)))
      else
        let! parsed := json env response in
        let! _ := writeCache env cacheKey parsed None in
        ret parsed in
    let! cached := readCache env cacheKey in
    match cached with
    | Some c =>
        let! expired := isExpired (timestamp c) INDEX_TTL_MS in
        if negb expired then ret (data c) else fromNetwork
    | None => fromNetwork
    end.

End RegistryMore.

(* ===================================================================== *)
(** * The rest of fs.ts; the write steps of add.ts and remove.ts *)
(* ===================================================================== *)

Module FsFiles.

(** The files of the project, path to text.  Directories are not kept. *)
Abbreviation Files := (gmap (list N) (list N)).

(** A write that rejects: the message of its error, and what it leaves of
    the file - nothing changed when the file could not be opened, or the
    text the file holds after it was truncated and partly written. *)
Record WriteFault := {
  faultMessage : jsstring;
  leftover : option jsstring
}.

(** The failures of the file system other than a missing file: for a path,
    the message of the error that reading (or probing) it raises, the
    fault of writing (or deleting) it, and the message of the error that
    creating it as a directory raises. *)
Record FsEnv := {
  readFault : jsstring -> option jsstring;
  writeFault : jsstring -> option WriteFault;
  mkdirFault : jsstring -> option jsstring
}.

(** File operations; what is thrown is kept as its [message]. *)
Definition IO (A : Type) : Type := Files -> (jsstring + A) * Files.

Definition ioRet {A} (a : A) : IO A := fun fs => (inr a, fs).

Definition ioThrow {A} (message : jsstring) : IO A := fun fs => (inl message, fs).

Definition ioBind {A B} (m : IO A) (k : A -> IO B) : IO B :=
  fun fs => match m fs with
            | (inl e, fs') => (inl e, fs')
            | (inr a, fs') => k a fs'
            end.

(** [fileExists]: ENOENT is [false], any other error is thrown on. *)
Definition fileExists (fenv : FsEnv) (filePath : jsstring) : IO bool :=
  fun fs => match readFault fenv filePath with
            | Some message => (inl message, fs)
            | None => (inr (bool_decide (is_Some (fs !! filePath))), fs)
            end.

(** [readFile]: the text, or null when the file is missing. *)
Definition readFile (fenv : FsEnv) (filePath : jsstring) : IO (option jsstring) :=
  fun fs => match readFault fenv filePath with
            | Some message => (inl message, fs)
            | None => (inr (fs !! filePath), fs)
            end.

(** [ensureDir]: [mkdir(dirPath, { recursive: true })]. *)
Definition ensureDir (fenv : FsEnv) (dirPath : jsstring) : IO unit :=
  fun fs => match mkdirFault fenv dirPath with
            | Some message => (inl message, fs)
            | None => (inr tt, fs)
            end.

(** [fsWriteFile(filePath, content, "utf-8")]. *)
Definition fsWriteFile (fenv : FsEnv) (filePath content : jsstring) : IO unit :=
  fun fs => match writeFault fenv filePath with
            | Some fault =>
                (inl (faultMessage fault),
                 match leftover fault with
                 | Some remains => <[filePath := remains]> fs
                 | None => fs
                 end)
            | None => (inr tt, <[filePath := content]> fs)
            end.

(** [writeFile]: [ensureDir] of the directory, then the write. *)
Definition writeFile (fenv : FsEnv) (filePath content : jsstring) : IO unit :=
  let dir := NodePath.dirname filePath in
  ioBind (ensureDir fenv dir) (fun _ => fsWriteFile fenv filePath content).

Definition appendFile (fenv : FsEnv) (filePath content : jsstring) : IO unit :=
  let dir := NodePath.dirname filePath in
  ioBind (ensureDir fenv dir) (fun _ =>
  ioBind (readFile fenv filePath) (fun existing =>
    if truthy existing
    then fsWriteFile fenv filePath (trim (default [] existing) ++ [LF; LF] ++ content)
    else fsWriteFile fenv filePath content)).

(** [deleteFile]: true when a file was removed, false when there was none;
    an [unlink] that rejects leaves the file. *)
Definition deleteFile (fenv : FsEnv) (filePath : jsstring) : IO bool :=
  fun fs => match writeFault fenv filePath with
            | Some fault => (inl (faultMessage fault), fs)
            | None =>
                match fs !! filePath with
                | Some _ => (inr true, delete filePath fs)
                | None => (inr false, fs)
                end
            end.

End FsFiles.

Module Commands.

Import FsFiles.

(** [{ success: boolean; error?: string }] *)
Record WriteResult := {
  success : bool;
  error : option jsstring
}.

(** add.ts: every error of the read and the write is caught and reported
    in the result. *)
Definition writeHintToFile (fenv : FsEnv) (absolutePath hintPath : jsstring)
  (transformed : TransformResult) : Files -> WriteResult * Files :=
  fun fs =>
    let attempt : IO unit :=
      if Transformer.appendMode transformed then
        ioBind (readFile fenv absolutePath) (fun read =>
          let existing := if truthy read then default [] read else [] in
          let updated := upsertSection existing hintPath (content transformed) in
          writeFile fenv absolutePath updated)
      else writeFile fenv absolutePath (content transformed) in
    match attempt fs with
    | (inr _, fs') => ({| success := true; error := None |}, fs')
    | (inl message, fs') => ({| success := false; error := Some message |}, fs')
    end.

(** What one turn of the write loop of [add] did with a fetched hint. *)
Inductive AddOutcome :=
| Added (resolvedPath : jsstring)
| WriteFailed (message : jsstring).

(** One turn of the write loop of [add] for a fetched hint: the path of the
    agent is resolved and guarded, the content transformed and written.
    The guard throws out of the loop; log lines are left out. *)
Definition addStep (fenv : FsEnv) (processCwd cwd : jsstring) (agent : AgentConfig)
  (hintPath hintContent : jsstring) : Files -> (JsError + AddOutcome) * Files :=
  fun fs =>
    let resolvedPath := resolveAgentPath agent hintPath in
    match Fs.resolvePath processCwd resolvedPath (Some cwd) with
    | inl e => (inl e, fs)
    | inr absolutePath =>
        let transformed := transformForAgent hintContent hintPath agent resolvedPath in
        let '(writeResult, fs') :=
          writeHintToFile fenv absolutePath hintPath transformed fs in
        if negb (success writeResult)
        then (inr (WriteFailed (default [] (error writeResult))), fs')
        else (inr (Added resolvedPath), fs')
    end.

(** What one turn of the loop of [remove] did. *)
Inductive RemoveOutcome :=
| NoFile            (* "No hints file found at ..." *)
| NoSection         (* "No hints found for ... in ..." *)
| RemovedAndDeleted (* "... (deleted empty file)" *)
| RemovedFromFile   (* "Removed ... from ..." *)
| RemovedFile.      (* per-hint file deleted *)

(** What is thrown in a turn of [remove]: the guard's error or the message
    of a file error. *)
Definition removeStep (fenv : FsEnv) (processCwd cwd : jsstring) (agent : AgentConfig)
  (hintPath : jsstring) : Files -> ((JsError + jsstring) + RemoveOutcome) * Files :=
  fun fs =>
    let resolvedPath := resolveAgentPath agent hintPath in
    match Fs.resolvePath processCwd resolvedPath (Some cwd) with
    | inl e => (inl (inl e), fs)
    | inr absolutePath =>
        let lift {A} (r : (jsstring + A) * Files) (k : A -> Files -> _) :=
          match r with
          | (inl message, fs') => (inl (inr message), fs')
          | (inr a, fs') => k a fs'
          end in
        if Agents.appendMode agent then
          lift (readFile fenv absolutePath fs) (fun existing fs1 =>
            if negb (truthy existing) then (inr NoFile, fs1)
            else
              let existing := default [] existing in
              let section := extractSection existing hintPath in
              if negb (truthy section) then (inr NoSection, fs1)
              else
                let updated := removeSection existing hintPath in
                if (length (trim updated) =? 0)%nat then
                  lift (deleteFile fenv absolutePath fs1) (fun _ fs2 =>
                    (inr RemovedAndDeleted, fs2))
                else
                  lift (writeFile fenv absolutePath updated fs1) (fun _ fs2 =>
                    (inr RemovedFromFile, fs2)))
        else
          lift (fileExists fenv absolutePath fs) (fun exists_ fs1 =>
            if negb exists_ then (inr NoFile, fs1)
            else
              lift (deleteFile fenv absolutePath fs1) (fun _ fs2 =>
                (inr RemovedFile, fs2)))
    end.

End Commands.

(* ===================================================================== *)
(** * Vocabulary of the further statements *)
(* ===================================================================== *)

Import CacheMore RegistryMore.

(** ** The registry index and what a fetch leaves behind *)

Definition indexUrl (env : Env) : jsstring := REGISTRY_BASE_URL env ++ lit "/index.json".

(** The world after a parsed answer was cached under [key] without hash. *)
Definition afterCached (env : Env) (w : World) (key url : jsstring) (v : Json) : World :=
  {| disk := <[getCachePath env key :=
                 {| data := v; timestamp := clock w + elapsed env url;
                    sha256 := None |}]> (disk w);
     clock := clock w + elapsed env url;
     requests := requests w ++ [url] |}.

(** How a request for JSON ends after a miss, step by step: the request
    is rejected; the status is not 2xx; the body cannot be read; the body
    does not parse; the directory of the cache file cannot be created; the
    cache file cannot be written; or the parsed value is cached and
    returned. *)
Definition fetchedJson (env : Env) (w : World) (key url : jsstring)
  (failed : Response -> JsError) : (JsError + Json) * World :=
  let path := getCachePath env key in
  match network env url with
  | None => (inl NetworkFailure, afterRequest env w url)
  | Some r =>
      if ok r then
        match body r with
        | None => (inl BodyFailure, afterRequest env w url)
        | Some t =>
            match parseJSON env t with
            | None => (inl JsonSyntaxError, afterRequest env w url)
            | Some v =>
                if mkdirFails env (dirname path)
                then (inl (FsError (dirname path)), afterRequest env w url)
                else
                  match writeFails env path with
                  | Some damaged =>
                      (inl (FsError path),
                       if damaged then afterDamage env w url path
                       else afterRequest env w url)
                  | None => (inr v, afterCached env w key url v)
                  end
            end
        end
      else (inl (failed r), afterRequest env w url)
  end.

(** What reading a JSON file of the local registry gives. *)
Definition localJson (env : Env) (path : jsstring) : JsError + Json :=
  match files env path with
  | None => inl (FsError path)
  | Some t =>
      match parseJSON env t with
      | None => inl JsonSyntaxError
      | Some v => inr v
      end
  end.

(** A process that reads its registry from the directory [dir]. *)
Definition localEnv (dir : string) (fs : jsstring -> option jsstring) : Env :=
  {| LOCAL_REGISTRY := Some (lit dir);
     processCwd := lit "/home/user/project";
     tmpdir := lit "/tmp";
     network := fun _ => None;
     elapsed := fun _ => 0;
     files := fs;
     parseJSON := fun _ => None;
     mkdirFails := fun _ => false;
     writeFails := fun _ => None |}.

(** ** Where cache entries are stored *)

(** Keys and slugs made of proper names separated by single slashes. *)
Definition properKey (key : jsstring) : bool := forallb properName (splitSlash key).

(** An absolute, normalized directory: [/] or [/name/.../name]. *)
Definition normalDir (dir : jsstring) : bool :=
  match dir with
  | c :: rest =>
      N.eqb c SLASH
      && match rest with
         | [] => true
         | _ => forallb properName (splitSlash rest)
         end
  | [] => false
  end.

(** ** The write steps of the commands *)

Import FsFiles Commands.

(** The content [transformForAgent] renders before the section wrap. *)
Definition rendered (text hintPath : jsstring) (agent : AgentConfig) : jsstring :=
  withTransform (withHeader text hintPath agent) hintPath agent.

(** A file system without failures. *)
Definition noFaults : FsEnv :=
  {| readFault := fun _ => None; writeFault := fun _ => None;
     mkdirFault := fun _ => None |}.

(** Neither reading nor writing the path fails, nor creating its
    directory. *)
Definition quiet (fenv : FsEnv) (p : jsstring) : bool :=
  match readFault fenv p, writeFault fenv p, mkdirFault fenv (dirname p) with
  | None, None, None => true
  | _, _, _ => false
  end.


(* ===================================================================== *)
(** * The scenarios of the specification, run on the model *)
(* ===================================================================== *)

Example scenario1 :
  let env := remoteEnv (fun _ => Some (okResponse (lit "# Prisma"))) in
  let w := emptyWorld 1700000000000 in
  let url := lit "https://agenthints.tech/registry/hints/prisma/hint.md" in
  fetchHintContent env (lit "prisma") (lit "./hint.md") (Some (lit "abc123")) w
  = (inr (JString (lit "# Prisma")),
     {| disk := {[ lit "/tmp/agenthints-cache/hints/prisma/content.json" :=
                     {| data := JString (lit "# Prisma");
                        timestamp := 1700000000120;
                        sha256 := Some (lit "abc123") |} ]};
        clock := 1700000000120;
        requests := [url] |}).
Proof. vm_compute. reflexivity. Qed.

Example scenario2 :
  upsertSection
    (lit "# Rules" ++ [LF; LF] ++ wrapInSection (lit "OLD") (lit "x"))
    (lit "x") (wrapInSection (lit "NEW") (lit "x"))
  = lit "# Rules" ++ [LF; LF] ++ wrapInSection (lit "NEW") (lit "x").
Proof. vm_compute. reflexivity. Qed.

Example scenario3 :
  removeSection (wrapInSection (lit "OLD") (lit "x")) (lit "x") = [].
Proof. vm_compute. reflexivity. Qed.

Example scenario4 :
  resolveAgentPath claude (lit "anything") = lit "CLAUDE.md" /\
  resolveAgentPath cursor (lit "prisma") = lit ".cursor/rules/prisma.mdc".
Proof. vm_compute. split; reflexivity. Qed.

Example removeSection_middle :
  removeSection
    (lit "# Rules" ++ [LF; LF] ++ wrapInSection (lit "OLD") (lit "x")
     ++ [LF; LF] ++ lit "tail" ++ [LF])
    (lit "x")
  = lit "# Rules" ++ [LF; LF] ++ lit "tail".
Proof. vm_compute. reflexivity. Qed.

Example resolve_ex1 :
  NodePath.resolve (lit "/w") [lit "/home/user/project"; lit "../../etc/passwd"]
  = lit "/home/etc/passwd".
Proof. vm_compute. reflexivity. Qed.

Example resolve_ex2 :
  NodePath.resolve (lit "/w/x") [lit "a/./b//c/../d/"] = lit "/w/x/a/b/d".
Proof. vm_compute. reflexivity. Qed.

Example join_ex :
  NodePath.join [lit "/tmp"; lit "agenthints-cache"; lit "hints/foo/meta.json"]
  = lit "/tmp/agenthints-cache/hints/foo/meta.json".
Proof. vm_compute. reflexivity. Qed.

Example dirname_ex :
  NodePath.dirname (lit "/tmp/agenthints-cache/hints/foo/meta.json")
  = lit "/tmp/agenthints-cache/hints/foo" /\
  NodePath.dirname (lit "/home/user/project/CLAUDE.md") = lit "/home/user/project" /\
  NodePath.dirname (lit "/CLAUDE.md") = lit "/" /\
  NodePath.dirname (lit "CLAUDE.md") = lit "." /\
  NodePath.dirname (lit "//a") = lit "//" /\
  NodePath.dirname (lit "a//b") = lit "a/".
Proof. vm_compute. repeat split. Qed.

Example scenario5 :
  Fs.resolvePath (lit "/w") (lit "../../etc/passwd") (Some (lit "/home/user/project"))
  = inl (Error (Fs.escapeMessage (lit "../../etc/passwd"))).
Proof. vm_compute. reflexivity. Qed.

(* ===================================================================== *)
(** * Facts about the string primitives *)
(* ===================================================================== *)

Lemma streq_eq a b : streq a b = true <-> a = b.
Proof.
  revert b; induction a as [|x a IH]; intros [|y b]; simpl; try (split; congruence).
  rewrite andb_true_iff, N.eqb_eq, IH. split; [intros [-> ->]|intros [= -> ->]]; done.
Qed.

Lemma startsWith_take s p : startsWith s p = true <-> take (length p) s = p.
Proof.
  revert s; induction p as [|x p IH]; intros [|y s]; simpl; try (split; congruence).
  rewrite andb_true_iff, N.eqb_eq, IH. split; [intros [-> ->]|intros [= -> ->]]; done.
Qed.

Lemma startsWith_app s p : startsWith (p ++ s) p = true.
Proof. apply startsWith_take. by rewrite take_app_length. Qed.

Lemma startsWith_split s p : startsWith s p = true -> s = p ++ drop (length p) s.
Proof.
  intros H%startsWith_take. rewrite <- H at 1. by rewrite take_drop.
Qed.

Lemma occ_take s pat j : occ s pat j = true <-> take (length pat) (drop j s) = pat.
Proof. apply startsWith_take. Qed.

Lemma occ_split s pat j :
  occ s pat j = true -> pat <> [] ->
  s = take j s ++ pat ++ drop (j + length pat) s /\ (j + length pat <= length s)%nat.
Proof.
  intros H Hne. pose proof (startsWith_split _ _ H) as E.
  assert (j + length pat <= length s)%nat as Hlen.
  { apply occ_take in H. apply (f_equal length) in H.
    rewrite length_take, length_drop in H.
    destruct pat; [done|]. cbn [length] in *. lia. }
  split; [|done].
  rewrite drop_drop in E. rewrite <- E. by rewrite take_drop.
Qed.

Lemma occ_bound s pat j :
  occ s pat j = true -> pat <> [] -> (j + length pat <= length s)%nat.
Proof. intros H Hne. by apply occ_split. Qed.

(** An occurrence depends only on the text it covers. *)
Lemma occ_agree s1 s2 pat j n :
  take n s1 = take n s2 -> (j + length pat <= n)%nat ->
  occ s1 pat j = occ s2 pat j.
Proof.
  intros E Hn.
  assert (take (length pat) (drop j s1) = take (length pat) (drop j s2)) as E'.
  { rewrite !take_drop_commute.
    assert (forall s : jsstring,
               take (j + length pat) s = take (j + length pat) (take n s)) as T.
    { intros s. rewrite take_take. f_equal. lia. }
    rewrite (T s1), (T s2), E. done. }
  destruct (occ s1 pat j) eqn:H1, (occ s2 pat j) eqn:H2; try done.
  - apply occ_take in H1. rewrite E' in H1. apply occ_take in H1. congruence.
  - apply occ_take in H2. rewrite <- E' in H2. apply occ_take in H2. congruence.
Qed.

Lemma occ_app_l x y pat j :
  (j + length pat <= length x)%nat -> occ (x ++ y) pat j = occ x pat j.
Proof.
  intros H. apply (occ_agree _ _ _ _ (length x)); [|done].
  by rewrite take_app_length, take_ge.
Qed.

Lemma occ_app_r x y pat j : occ (x ++ y) pat (length x + j) = occ y pat j.
Proof. unfold occ. by rewrite drop_app_add. Qed.

Lemma occ_app_r' x y pat j :
  (length x <= j)%nat -> occ (x ++ y) pat j = occ y pat (j - length x).
Proof.
  intros H. replace j with (length x + (j - length x))%nat at 1 by lia.
  apply occ_app_r.
Qed.

Lemma occ_lookup s pat j i :
  occ s pat j = true -> (i < length pat)%nat -> s !! (j + i)%nat = pat !! i.
Proof.
  intros H Hi. apply occ_take in H.
  apply (f_equal (fun l : jsstring => l !! i)) in H. cbv beta in H.
  rewrite lookup_take_lt in H by done. by rewrite lookup_drop in H.
Qed.

Lemma search_nil pat :
  search [] pat = if startsWith [] pat then Some 0%nat else None.
Proof. done. Qed.

Lemma search_cons c s pat :
  search (c :: s) pat =
  if startsWith (c :: s) pat then Some 0%nat else option_map S (search s pat).
Proof. done. Qed.

Lemma occ_0 s pat : occ s pat 0 = startsWith s pat.
Proof. done. Qed.

Lemma occ_S c s pat j : occ (c :: s) pat (S j) = occ s pat j.
Proof. done. Qed.

Lemma occ_nil pat j : occ [] pat j = startsWith [] pat.
Proof. unfold occ. by rewrite drop_nil. Qed.

Lemma search_Some s pat k :
  search s pat = Some k <->
  occ s pat k = true /\ forall j, (j < k)%nat -> occ s pat j = false.
Proof.
  revert k; induction s as [|c s IH]; intros k.
  - rewrite search_nil, occ_nil. destruct (startsWith [] pat) eqn:E.
    + split.
      * intros [= <-]. split; [done|]. intros; lia.
      * intros [_ H]. destruct k; [done|]. specialize (H 0%nat ltac:(lia)).
        rewrite occ_nil in H. congruence.
    + split; [done|]. intros [H _]. congruence.
  - rewrite search_cons. destruct (startsWith (c :: s) pat) eqn:E.
    + split.
      * intros [= <-]. split; [done|]. intros; lia.
      * intros [_ H]. destruct k; [done|]. specialize (H 0%nat ltac:(lia)).
        rewrite occ_0 in H. congruence.
    + destruct k as [|k].
      * rewrite occ_0, E. split; [|intros [? _]; done].
        destruct (search s pat); done.
      * rewrite occ_S. split.
        -- destruct (search s pat) as [k'|] eqn:Es; [|done].
           intros [= <-]. destruct (IH k') as [IH1 _].
           destruct (IH1 eq_refl) as [H1 H2]. split; [done|].
           intros [|j] Hj; [by rewrite occ_0|]. rewrite occ_S. apply H2. lia.
        -- intros [H1 H2].
           assert (search s pat = Some k) as ->; [|done].
           apply IH. split; [done|]. intros j Hj.
           rewrite <- (occ_S c). apply H2. lia.
Qed.

Lemma search_None s pat : search s pat = None <-> forall j, occ s pat j = false.
Proof.
  induction s as [|c s IH].
  - rewrite search_nil. destruct (startsWith [] pat) eqn:E.
    + split; [done|]. intros H. specialize (H 0%nat). rewrite occ_nil in H.
      congruence.
    + split; [|done]. intros _ j. by rewrite occ_nil.
  - rewrite search_cons. destruct (startsWith (c :: s) pat) eqn:E.
    + split; [done|]. intros H. specialize (H 0%nat). rewrite occ_0 in H.
      congruence.
    + split.
      * destruct (search s pat) eqn:Es; [done|]. intros _ [|j].
        -- by rewrite occ_0.
        -- rewrite occ_S. by apply IH.
      * intros H. assert (search s pat = None) as ->; [|done].
        apply IH. intros j. rewrite <- (occ_S c). apply H.
Qed.

(** The first occurrence is the least position with an occurrence. *)
Lemma search_first s pat k :
  occ s pat k = true -> (forall j, (j < k)%nat -> occ s pat j = false) ->
  search s pat = Some k.
Proof. intros. by apply search_Some. Qed.

Lemma search_occ s pat j :
  occ s pat j = true -> exists k, search s pat = Some k /\ (k <= j)%nat.
Proof.
  intros H. destruct (search s pat) as [k|] eqn:E.
  - exists k. split; [done|]. apply search_Some in E as [_ E].
    destruct (decide (k <= j)%nat); [done|]. rewrite E in H by lia. done.
  - rewrite search_None in E. congruence.
Qed.

Lemma startsWith_trans s big small :
  startsWith s big = true -> startsWith big small = true ->
  startsWith s small = true.
Proof.
  intros H1%startsWith_split H2%startsWith_split.
  rewrite H1, H2, <- app_assoc. apply startsWith_app.
Qed.

Lemma startsWith_length s p : startsWith s p = true -> (length p <= length s)%nat.
Proof.
  intros H%startsWith_split. rewrite H, length_app. lia.
Qed.

Lemma startsWith_refl s : startsWith s s = true.
Proof. rewrite <- (app_nil_r s) at 1. apply startsWith_app. Qed.

Lemma startsWith_same_length s p :
  startsWith s p = true -> length s = length p -> s = p.
Proof.
  intros H%startsWith_take E. rewrite <- E, firstn_all in H. done.
Qed.

(* ===================================================================== *)
(** * Facts about the section markers *)
(* ===================================================================== *)

Lemma length_lit_app_cons (a : string) (x b : jsstring) :
  length (lit a ++ x ++ b) = (length (lit a) + length x + length b)%nat.
Proof. rewrite !length_app. lia. Qed.

Lemma length_sectionStart slug :
  length (sectionStart slug) = (length slug + 26)%nat.
Proof. unfold sectionStart. rewrite length_lit_app_cons. simpl. lia. Qed.

Lemma length_sectionEnd slug :
  length (sectionEnd slug) = (length slug + 24)%nat.
Proof. unfold sectionEnd. rewrite length_lit_app_cons. simpl. lia. Qed.

Lemma sectionStart_nonempty slug : sectionStart slug <> [].
Proof. done. Qed.

Lemma sectionEnd_nonempty slug : sectionEnd slug <> [].
Proof. done. Qed.

Lemma sectionStart_head slug :
  exists rest, sectionStart slug = LT :: BANG :: rest.
Proof. eexists. reflexivity. Qed.

Lemma sectionEnd_head slug :
  exists rest, sectionEnd slug = LT :: BANG :: rest.
Proof. eexists. reflexivity. Qed.

(** The two markers of a slug differ right after [agenthints:slug:], so
    they never occur at the same position. *)
Lemma markers_disagree slug :
  sectionStart slug !! (length slug + 17)%nat = Some 115%N /\
  sectionEnd slug !! (length slug + 17)%nat = Some 101%N.
Proof.
  unfold sectionStart, sectionEnd.
  assert (length (lit "<!-- agenthints:") = 16%nat) as L by done.
  split.
  - rewrite lookup_app_r by (rewrite L; lia).
    rewrite lookup_app_r by (rewrite L; lia).
    rewrite L. by replace (length slug + 17 - 16 - length slug)%nat with 1%nat by lia.
  - rewrite lookup_app_r by (rewrite L; lia).
    rewrite lookup_app_r by (rewrite L; lia).
    rewrite L. by replace (length slug + 17 - 16 - length slug)%nat with 1%nat by lia.
Qed.

Lemma occ_start_not_end s slug j :
  occ s (sectionStart slug) j = true -> occ s (sectionEnd slug) j = false.
Proof.
  intros H. destruct (occ s (sectionEnd slug) j) eqn:E; [|done].
  destruct (markers_disagree slug) as [M1 M2].
  pose proof (occ_lookup _ _ _ (length slug + 17) H) as L1.
  pose proof (occ_lookup _ _ _ (length slug + 17) E) as L2.
  rewrite length_sectionStart in L1. rewrite length_sectionEnd in L2.
  rewrite L1 in L2 by lia. rewrite M1, M2 in L2 by lia. specialize (L2 ltac:(lia)).
  done.
Qed.

(** An end marker cannot begin one position after a start marker. *)
Lemma occ_end_not_next s slug j :
  occ s (sectionStart slug) j = true -> occ s (sectionEnd slug) (S j) = false.
Proof.
  intros H. destruct (occ s (sectionEnd slug) (S j)) eqn:E; [|done].
  pose proof (occ_lookup _ _ _ 1 H) as L1.
  pose proof (occ_lookup _ _ _ 0 E) as L2.
  rewrite length_sectionStart in L1. rewrite length_sectionEnd in L2.
  specialize (L1 ltac:(lia)). specialize (L2 ltac:(lia)).
  replace (S j + 0)%nat with (j + 1)%nat in L2 by lia.
  rewrite L1 in L2. done.
Qed.

(* ===================================================================== *)
(** * extractSection, read off its two searches *)
(* ===================================================================== *)

(** Both marker lengths, for [lia]. *)
Ltac marker_lengths slug :=
  pose proof (length_sectionStart slug);
  pose proof (length_sectionEnd slug).

Arguments sectionStart : simpl never.
Arguments sectionEnd : simpl never.

Lemma extractSection_Some F slug sec :
  extractSection F slug = Some sec <->
  exists si ei,
    search F (sectionStart slug) = Some si /\
    search F (sectionEnd slug) = Some ei /\
    (si < ei)%nat /\
    sec = take (ei + length (sectionEnd slug) - si) (drop si F).
Proof.
  unfold extractSection, indexOf.
  destruct (search F (sectionStart slug)) as [si|] eqn:Es;
    [|split; [done|intros (si' & ei' & ? & ? & _); congruence]].
  destruct (search F (sectionEnd slug)) as [ei|] eqn:Ee;
    [|split; [by rewrite orb_true_r|intros (si' & ei' & ? & ? & _); congruence]].
  pose proof Es as [Os _]%search_Some. pose proof Ee as [Oe _]%search_Some.
  apply occ_bound in Os; [|done]. apply occ_bound in Oe; [|done].
  destruct (Z.of_nat si =? -1) eqn:E1; [lia|].
  destruct (Z.of_nat ei =? -1) eqn:E2; [lia|]. cbn [orb].
  destruct (Z.of_nat si >=? Z.of_nat ei) eqn:E3.
  - split; [done|]. intros (si' & ei' & [= <-] & [= <-] & ? & _). lia.
  - assert (si < ei)%nat as Hlt by lia.
    assert (slice F (Z.of_nat si) (Z.of_nat ei + Z.of_nat (length (sectionEnd slug)))
            = take (ei + length (sectionEnd slug) - si) (drop si F)) as ->.
    { unfold slice.
      destruct (Z.of_nat si <? 0) eqn:?; [lia|].
      destruct (Z.of_nat ei + Z.of_nat (length (sectionEnd slug)) <? 0) eqn:?; [lia|].
      f_equal; [|f_equal]; lia. }
    split.
    + intros [= <-]. exists si, ei. done.
    + intros (si' & ei' & [= <-] & [= <-] & _ & ->). done.
Qed.

Lemma extractSection_None F slug :
  extractSection F slug = None <->
  forall si ei,
    search F (sectionStart slug) = Some si ->
    search F (sectionEnd slug) = Some ei -> (ei <= si)%nat.
Proof.
  split.
  - intros H si ei Hs He. destruct (decide (ei <= si)%nat); [done|].
    assert (extractSection F slug = Some (take (ei + length (sectionEnd slug) - si) (drop si F))) as E.
    { apply extractSection_Some. exists si, ei. repeat split; try done. lia. }
    congruence.
  - intros H. destruct (extractSection F slug) as [sec|] eqn:E; [|done].
    apply extractSection_Some in E as (si & ei & Hs & He & Hlt & _).
    specialize (H _ _ Hs He). lia.
Qed.

Lemma extractSection_layout F slug sec :
  extractSection F slug = Some sec ->
  exists before after, SectionAt F slug sec before after.
Proof.
  intros (si & ei & Hs & He & Hlt & ->)%extractSection_Some.
  pose proof Hs as [Os Ms]%search_Some. pose proof He as [Oe Me]%search_Some.
  pose proof (occ_bound _ _ _ Os (sectionStart_nonempty slug)) as Bs.
  pose proof (occ_bound _ _ _ Oe (sectionEnd_nonempty slug)) as Be.
  marker_lengths slug.
  assert (S si <> ei) as Hne.
  { intros <-. rewrite (occ_end_not_next _ _ _ Os) in Oe. done. }
  set (n := (ei + length (sectionEnd slug) - si)%nat).
  assert (length (take n (drop si F)) = n) as Ln.
  { rewrite length_take, length_drop. lia. }
  assert (startsWith (take n (drop si F)) (sectionStart slug) = true) as St.
  { apply startsWith_take. rewrite take_take.
    replace (min (length (sectionStart slug)) n) with (length (sectionStart slug))
      by (unfold n; lia).
    by apply occ_take. }
  exists (take si F), (drop (si + n) F).
  assert (length (take si F) = si) as Lb by (rewrite length_take; lia).
  assert (F = take si F ++ take n (drop si F) ++ drop (si + n) F) as EF.
  { rewrite <- (take_drop si F) at 1. f_equal.
    rewrite <- (take_drop n (drop si F)) at 1. by rewrite drop_drop. }
  split.
  - done.
  - by rewrite Lb.
  - rewrite Lb, Ln. rewrite He. f_equal. unfold n. lia.
  - done.
  - rewrite Ln. unfold n. lia.
  - rewrite Lb. apply search_first.
    + unfold occ. apply startsWith_take. by rewrite Ln.
    + intros j Hj. destruct (occ F (take n (drop si F)) j) eqn:E; [|done].
      assert (occ F (sectionStart slug) j = true) as E'.
      { unfold occ in *. by eapply startsWith_trans. }
      rewrite Ms in E' by done. done.
Qed.

Lemma startsWith_app_l s t p :
  startsWith s p = true -> startsWith (s ++ t) p = true.
Proof.
  intros H%startsWith_split. rewrite H, <- app_assoc. apply startsWith_app.
Qed.

(** A text that is exactly one section: it begins with the start marker and
    its first end marker closes it. *)
Lemma whole_section S slug :
  extractSection S slug = Some S ->
  search S (sectionStart slug) = Some 0%nat /\
  search S (sectionEnd slug) = Some (length S - length (sectionEnd slug))%nat /\
  (length (sectionStart slug) <= length S)%nat.
Proof.
  intros (si & ei & Hs & He & Hlt & E)%extractSection_Some.
  pose proof Hs as [Os _]%search_Some. pose proof He as [Oe _]%search_Some.
  pose proof (occ_bound _ _ _ Os (sectionStart_nonempty slug)) as Bs.
  pose proof (occ_bound _ _ _ Oe (sectionEnd_nonempty slug)) as Be.
  marker_lengths slug.
  apply (f_equal length) in E. rewrite length_take, length_drop in E.
  assert (si = 0%nat) as -> by lia.
  split; [done|]. split; [|lia]. rewrite He. f_equal. lia.
Qed.

(** A whole section placed after a text that lets no marker begin inside
    it is the section [extractSection] finds. *)
Lemma extract_embedded before S after slug :
  (forall j, (j < length before)%nat ->
             occ (before ++ S ++ after) (sectionStart slug) j = false) ->
  (forall j, (j < length before)%nat ->
             occ (before ++ S ++ after) (sectionEnd slug) j = false) ->
  extractSection S slug = Some S ->
  extractSection (before ++ S ++ after) slug = Some S.
Proof.
  intros Hs He (Ss & Se & Sl)%whole_section.
  marker_lengths slug.
  apply search_Some in Ss as [Ss0 _]. apply search_Some in Se as [Se0 Se1].
  apply extractSection_Some.
  exists (length before), (length before + (length S - length (sectionEnd slug)))%nat.
  repeat split.
  - apply search_first; [|done].
    rewrite occ_app_r' by lia. rewrite Nat.sub_diag, occ_0.
    apply startsWith_app_l. by rewrite <- occ_0.
  - apply search_first.
    + rewrite occ_app_r, occ_app_l by lia. done.
    + intros j Hj. destruct (decide (j < length before)%nat) as [|Hge].
      * by apply He.
      * rewrite occ_app_r' by lia. rewrite occ_app_l by lia. apply Se1. lia.
  - lia.
  - rewrite drop_app_length.
    replace (length before + (length S - length (sectionEnd slug))
             + length (sectionEnd slug) - length before)%nat
      with (length S) by lia.
    by rewrite take_app_length.
Qed.

Lemma getSubstitution_plain matched before after repl :
  plainReplacement repl = true ->
  getSubstitution matched before after repl = repl.
Proof.
  induction repl as [|c t IH]; [done|].
  cbn [plainReplacement getSubstitution].
  destruct (N.eqb c DOLLAR).
  - destruct t as [|d t']; [done|].
    intros [Hd Ht]%andb_true_iff. apply negb_true_iff in Hd.
    apply orb_false_iff in Hd as [Hd H4]. apply orb_false_iff in Hd as [Hd H3].
    apply orb_false_iff in Hd as [H1 H2].
    rewrite H1, H2, H3, H4. f_equal. by apply IH.
  - intros Ht. f_equal. by apply IH.
Qed.

Lemma getSubstitution_nil matched before after :
  getSubstitution matched before after [] = [].
Proof. done. Qed.

(** [replace] of the found section splices the substitution between the
    text before and the text after it. *)
Lemma replace_section F slug sec before after repl :
  SectionAt F slug sec before after ->
  replace F sec repl = before ++ getSubstitution sec before after repl ++ after.
Proof.
  intros [EF _ _ _ _ Hf]. unfold replace. rewrite Hf.
  assert (take (length before) F = before) as ->
    by (rewrite EF; apply take_app_length).
  assert (drop (length before + length sec) F = after) as ->.
  { rewrite EF, app_assoc. rewrite <- length_app. apply drop_app_length. }
  done.
Qed.

Lemma truthy_section F slug sec :
  extractSection F slug = Some sec -> truthy (Some sec) = true.
Proof.
  intros (b & a & [_ _ _ _ Hl _])%extractSection_layout.
  rewrite length_sectionStart in Hl. destruct sec; [simpl in Hl; lia|done].
Qed.

(** In a file with a section, no marker begins before the section even
    after the section is exchanged for another whole section. *)
Lemma exchange_keeps_front F slug sec before after S :
  SectionAt F slug sec before after ->
  startsWith S (sectionStart slug) = true ->
  forall j, (j < length before)%nat ->
    occ (before ++ S ++ after) (sectionStart slug) j = false /\
    occ (before ++ S ++ after) (sectionEnd slug) j = false.
Proof.
  intros [EF Hs He St Hl _] HS j Hj.
  marker_lengths slug.
  apply search_Some in Hs as [_ Hs]. apply search_Some in He as [_ He].
  assert (take (length before + length (sectionStart slug)) (before ++ S ++ after)
          = take (length before + length (sectionStart slug)) F) as E.
  { rewrite EF. rewrite !take_app_add.
    f_equal. apply startsWith_take in HS, St.
    rewrite (take_app_le S) by (apply startsWith_length; by apply startsWith_take).
    rewrite (take_app_le sec) by lia. congruence. }
  split.
  - rewrite (occ_agree _ F _ _ _ E) by lia. by apply Hs.
  - rewrite (occ_agree _ F _ _ _ E) by lia. apply He. lia.
Qed.

(* ===================================================================== *)
(** * Facts about trim and the line-feed collapse *)
(* ===================================================================== *)

Lemma trimStart_split s :
  exists ws, s = ws ++ trimStart s /\ allWhite ws = true.
Proof.
  induction s as [|c s (ws & E & W)]; [by exists []|].
  cbn [trimStart]. destruct (isWhiteSpace c) eqn:Hc.
  - exists (c :: ws). split; [simpl; congruence|]. simpl. by rewrite Hc.
  - by exists [].
Qed.

Lemma trimEnd_split s :
  exists ws, s = trimEnd s ++ ws /\ allWhite ws = true.
Proof.
  unfold trimEnd. destruct (trimStart_split (rev s)) as (ws & E & W).
  exists (rev ws). split.
  - rewrite <- rev_app_distr, <- E. by rewrite rev_involutive.
  - unfold allWhite in *. rewrite forallb_forall in *. intros x Hx.
    apply W. by apply in_rev.
Qed.

Lemma trim_split s :
  exists a b, s = a ++ trim s ++ b /\ allWhite a = true /\ allWhite b = true.
Proof.
  unfold trim. destruct (trimStart_split s) as (a & Ea & Wa).
  destruct (trimEnd_split (trimStart s)) as (b & Eb & Wb).
  exists a, b. split; [|done]. rewrite <- Eb. done.
Qed.

Lemma trimStart_head s c t : trimStart s = c :: t -> isWhiteSpace c = false.
Proof.
  induction s as [|d s IH]; [done|]. cbn [trimStart].
  destruct (isWhiteSpace d) eqn:Hd; [done|]. by intros [= <- _].
Qed.

Lemma trimStart_id s c t : s = c :: t -> isWhiteSpace c = false -> trimStart s = s.
Proof. intros -> H. cbn [trimStart]. by rewrite H. Qed.

Lemma trimStart_nil s : allWhite s = true -> trimStart s = [].
Proof.
  induction s as [|c s IH]; [done|]. simpl. intros [Hc Hs]%andb_true_iff.
  rewrite Hc. by apply IH.
Qed.

Lemma trim_nil : trim [] = [].
Proof. done. Qed.

(** What is left after [trim] neither begins nor ends with white space. *)
Lemma trim_ends s :
  (forall c t, trim s = c :: t -> isWhiteSpace c = false) /\
  (forall c t, trim s = t ++ [c] -> isWhiteSpace c = false).
Proof.
  unfold trim, trimEnd. split.
  - intros c t E.
    destruct (trimStart s) as [|d u] eqn:Es; [done|].
    pose proof (trimStart_head _ _ _ Es) as Hd.
    destruct (trimStart_split (rev (d :: u))) as (ws & Ew & W).
    apply (f_equal (@rev N)) in Ew. rewrite rev_involutive, rev_app_distr in Ew.
    rewrite E in Ew. simpl in Ew. by injection Ew as <- _.
  - intros c t E. apply (f_equal (@rev N)) in E.
    rewrite rev_involutive, rev_app_distr in E. simpl in E.
    by apply trimStart_head in E.
Qed.

Lemma lineFree_lookup s i : lineFree s = true -> s !! i <> Some LF.
Proof.
  unfold lineFree. rewrite forallb_forall. intros H E.
  apply list_elem_of_lookup_2, list_elem_of_In, H in E. done.
Qed.

Lemma lineFree_app a b : lineFree (a ++ b) = lineFree a && lineFree b.
Proof. apply forallb_app. Qed.

Lemma lineFree_markers slug :
  lineFree slug = true ->
  lineFree (sectionStart slug) = true /\ lineFree (sectionEnd slug) = true.
Proof.
  intros H. unfold sectionStart, sectionEnd.
  rewrite !lineFree_app, H. done.
Qed.

(** A text without line feeds cannot lie across a line feed. *)
Lemma occ_not_across s pat j k :
  occ s pat j = true -> lineFree pat = true ->
  s !! k = Some LF -> (j <= k)%nat -> (k < j + length pat)%nat -> False.
Proof.
  intros H Hp Hk H1 H2.
  pose proof (occ_lookup _ _ _ (k - j) H ltac:(lia)) as E.
  replace (j + (k - j))%nat with k in E by lia. rewrite Hk in E.
  by eapply lineFree_lookup.
Qed.

Lemma occ_inside a s b pat j :
  pat <> [] -> occ s pat j = true -> occ (a ++ s ++ b) pat (length a + j) = true.
Proof.
  intros Hne H. rewrite occ_app_r, occ_app_l; [done|by apply occ_bound].
Qed.

(** After a text without the marker and a blank line, the marker cannot
    begin before the appended text. *)
Lemma append_keeps_front T S pat j :
  pat <> [] -> lineFree pat = true ->
  (forall i, occ T pat i = false) ->
  (j < length (T ++ [LF; LF]))%nat ->
  occ ((T ++ [LF; LF]) ++ S ++ []) pat j = false.
Proof.
  intros Hne Hp HT Hj. rewrite length_app in Hj. cbn [length] in Hj.
  destruct (occ _ pat j) eqn:E; [exfalso|done].
  assert (0 < length pat)%nat by (destruct pat; [done|cbn [length]; lia]).
  destruct (decide (j + length pat <= length T)%nat) as [Hin|Hout].
  - rewrite <- app_assoc, occ_app_l in E by done. by rewrite HT in E.
  - apply (occ_not_across _ _ _ (max j (length T)) E Hp); [|lia|lia].
    rewrite <- !app_assoc. rewrite lookup_app_r by lia.
    destruct (decide (j <= length T)%nat).
    + by replace (j `max` length T - length T)%nat with 0%nat by lia.
    + by replace (j `max` length T - length T)%nat with 1%nat by lia.
Qed.

Lemma includes_false s pat : includes s pat = false <-> forall j, occ s pat j = false.
Proof.
  unfold includes. rewrite <- search_None. by destruct (search s pat).
Qed.

Lemma no_occ_trim s pat :
  pat <> [] -> (forall j, occ s pat j = false) -> forall j, occ (trim s) pat j = false.
Proof.
  intros Hne H j. destruct (trim_split s) as (a & b & E & _).
  destruct (occ (trim s) pat j) eqn:O; [|done].
  apply (occ_inside a _ b) in O; [|done]. rewrite <- E in O. by rewrite H in O.
Qed.

(* ===================================================================== *)
(** * upsertSection *)
(* ===================================================================== *)

(** The three outcomes of [upsertSection]. *)
Lemma upsertSection_replace F slug sec newSection :
  extractSection F slug = Some sec ->
  upsertSection F slug newSection = replace F sec newSection.
Proof.
  intros H. unfold upsertSection. rewrite H, (truthy_section _ _ _ H). done.
Qed.

Lemma upsertSection_append F slug newSection :
  extractSection F slug = None ->
  upsertSection F slug newSection
  = match trim F with
    | [] => newSection
    | trimmed => trimmed ++ [LF; LF] ++ newSection
    end.
Proof.
  intros H. unfold upsertSection. rewrite H. cbn [truthy].
  by destruct (trim F).
Qed.

(** A content without the end marker, wrapped for a slug without line
    feed, is exactly one section. *)
Lemma wrapInSection_whole body slug :
  lineFree slug = true -> includes body (sectionEnd slug) = false ->
  extractSection (wrapInSection body slug) slug = Some (wrapInSection body slug).
Proof.
  intros Hl Hb. destruct (lineFree_markers _ Hl) as [_ Le].
  marker_lengths slug.
  rewrite includes_false in Hb.
  set (ls := length (sectionStart slug)) in *.
  assert (wrapInSection body slug !! ls = Some LF) as K1.
  { unfold wrapInSection. by apply list_lookup_middle. }
  assert (wrapInSection body slug !! (ls + 1 + length body)%nat = Some LF) as K2.
  { unfold wrapInSection. rewrite (app_assoc _ [LF]), (app_assoc _ body).
    apply list_lookup_middle. rewrite !length_app. cbn [length]. lia. }
  assert (length (wrapInSection body slug)
          = (ls + 1 + length body + 1 + length (sectionEnd slug))%nat) as LS.
  { unfold wrapInSection. rewrite !length_app. cbn [length]. lia. }
  assert (occ (sectionStart slug) (sectionStart slug) 0 = true) as O0.
  { rewrite occ_0. apply startsWith_refl. }
  apply extractSection_Some. exists 0%nat, (ls + 1 + length body + 1)%nat.
  repeat split.
  - apply search_first; [|intros; lia]. rewrite occ_0. apply startsWith_app.
  - apply search_first.
    + unfold wrapInSection.
      rewrite (app_assoc _ [LF]), (app_assoc _ body), (app_assoc _ [LF]).
      rewrite occ_app_r'; rewrite !length_app; cbn [length]; [|lia].
      replace (_ - _)%nat with 0%nat by lia. rewrite occ_0. apply startsWith_refl.
    + intros j Hj.
      destruct (occ (wrapInSection body slug) (sectionEnd slug) j) eqn:E;
        [exfalso|done].
      destruct (decide (j + length (sectionEnd slug) <= ls)%nat) as [H1|H1].
      { unfold wrapInSection in E. rewrite occ_app_l in E by done.
        destruct j as [|[|[|j]]]; [| | |lia].
        - by rewrite (occ_start_not_end _ _ _ O0) in E.
        - by rewrite (occ_end_not_next _ _ _ O0) in E.
        - pose proof (occ_lookup _ _ _ 0 E ltac:(lia)) as L. done. }
      destruct (decide (j <= ls)%nat) as [H2|H2].
      { by apply (occ_not_across _ _ _ ls E Le K1); lia. }
      destruct (decide (j + length (sectionEnd slug) <= ls + 1 + length body)%nat)
        as [H3|H3].
      { unfold wrapInSection in E. rewrite (app_assoc _ [LF]) in E.
        rewrite occ_app_r' in E by (rewrite length_app; cbn [length]; lia).
        rewrite occ_app_l in E by (rewrite length_app; cbn [length]; lia).
        by rewrite Hb in E. }
      by apply (occ_not_across _ _ _ (ls + 1 + length body) E Le K2); lia.
  - lia.
  - rewrite drop_0, take_ge; [done|]. lia.
Qed.

Lemma markerFree_no_section F slug :
  markerFree F slug = true -> extractSection F slug = None.
Proof.
  intros [H _]%andb_true_iff. apply negb_true_iff in H.
  apply extractSection_None. intros si ei Hs _.
  unfold includes in H. by rewrite Hs in H.
Qed.

Lemma roundtrip_replace_path F slug S :
  hasSection F slug = true -> plainReplacement S = true ->
  extractSection S slug = Some S ->
  extractSection (upsertSection F slug S) slug = Some S.
Proof.
  unfold hasSection. destruct (extractSection F slug) as [sec|] eqn:E; [|done].
  intros _ Hp HS.
  destruct (extractSection_layout _ _ _ E) as (before & after & L).
  rewrite (upsertSection_replace _ _ _ _ E), (replace_section _ _ _ _ _ _ L).
  rewrite getSubstitution_plain by done.
  pose proof (whole_section _ _ HS) as ([St _]%search_Some & _ & _).
  rewrite occ_0 in St.
  apply extract_embedded; [| |done]; intros j Hj;
    by destruct (exchange_keeps_front _ _ _ _ _ S L St j Hj).
Qed.

Lemma roundtrip_append_path F slug S :
  markerFree F slug = true -> lineFree slug = true ->
  extractSection S slug = Some S ->
  extractSection (upsertSection F slug S) slug = Some S.
Proof.
  intros HF Hl HS. rewrite upsertSection_append by by apply markerFree_no_section.
  destruct (trim F) as [|c t] eqn:ET; [done|]. rewrite <- ET.
  apply andb_true_iff in HF as [H1%negb_true_iff H2%negb_true_iff].
  rewrite includes_false in H1, H2.
  destruct (lineFree_markers _ Hl) as [L1 L2].
  replace (trim F ++ [LF; LF] ++ S) with ((trim F ++ [LF; LF]) ++ S ++ [])
    by (by rewrite app_nil_r, <- app_assoc).
  apply extract_embedded; [| |done]; intros j Hj.
  - apply append_keeps_front; try done. by apply no_occ_trim.
  - apply append_keeps_front; try done. by apply no_occ_trim.
Qed.

(** C1, as stated, fails: a file that holds a start marker of the slug
    without its end marker has no section, so the new section is appended;
    [extractSection] then pairs the first start marker, the old one, with
    the end marker of the new section and returns more than the section. *)
Lemma roundtrip_fails_after_stray_marker :
  let F := sectionStart (lit "x") in
  let S := wrapInSection (lit "NEW") (lit "x") in
  extractSection (upsertSection F (lit "x") S) (lit "x")
  = Some (F ++ [LF; LF] ++ S)
  /\ extractSection (upsertSection F (lit "x") S) (lit "x") <> Some S.
Proof. vm_compute. split; [reflexivity|discriminate]. Qed.

(** The two other ways past the round trip: a body that holds the end
    marker is cut at it, and a replacement pattern in the new section is
    expanded when an old section is replaced. *)
Example extract_stops_at_first_end_marker :
  let S := wrapInSection (lit "see <!-- agenthints:x:end --> above") (lit "x") in
  extractSection (upsertSection [] (lit "x") S) (lit "x")
  = Some (sectionStart (lit "x") ++ [LF] ++ lit "see " ++ sectionEnd (lit "x")).
Proof. vm_compute. reflexivity. Qed.

Example replaced_section_expands_patterns :
  let F := wrapInSection (lit "OLD") (lit "x") in
  let S := wrapInSection (lit "a $$ b") (lit "x") in
  extractSection (upsertSection F (lit "x") S) (lit "x")
  = Some (wrapInSection (lit "a $ b") (lit "x")).
Proof. vm_compute. reflexivity. Qed.

(** C1, amended: for every section text [S] that is exactly one section of
    the slug (it begins with the start marker and its first end marker
    closes it), [extractSection (upsertSection F slug S) slug] is [S]
    whenever the file already has a section of the slug and [S] holds none
    of the replacement patterns [$$], [$&], [$`], [$'], or the file holds
    neither marker of the slug and the slug has no line feed. *)
Theorem upsert_extract_roundtrip F slug S :
  extractSection S slug = Some S ->
  hasSection F slug && plainReplacement S
  || markerFree F slug && lineFree slug = true ->
  extractSection (upsertSection F slug S) slug = Some S.
Proof.
  intros HS [[H1 H2]%andb_true_iff|[H1 H2]%andb_true_iff]%orb_true_iff.
  - by apply roundtrip_replace_path.
  - by apply roundtrip_append_path.
Qed.

Lemma upsert_extract_roundtrip_witness :
  let S := wrapInSection (lit "NEW $1") (lit "x") in
  let F1 := lit "# Rules" ++ [LF; LF] ++ wrapInSection (lit "OLD") (lit "x")
            ++ [LF] ++ lit "tail" in
  let F2 := lit "  # Rules" ++ [LF; LF; LF] in
  extractSection (upsertSection F1 (lit "x") S) (lit "x") = Some S /\
  extractSection (upsertSection F2 (lit "x") S) (lit "x") = Some S.
Proof.
  split.
  - apply (upsert_extract_roundtrip _ (lit "x")); vm_compute; reflexivity.
  - apply (upsert_extract_roundtrip _ (lit "x")); vm_compute; reflexivity.
Defined.

(** With a replacement text free of replacement patterns, the section is
    exchanged in place and the text around it stays. *)
Lemma upsertSection_in_place F slug sec S :
  extractSection F slug = Some sec -> plainReplacement S = true ->
  exists before after,
    F = before ++ sec ++ after /\ upsertSection F slug S = before ++ S ++ after.
Proof.
  intros E Hp. destruct (extractSection_layout _ _ _ E) as (before & after & L).
  exists before, after. split; [apply L|].
  rewrite (upsertSection_replace _ _ _ _ E), (replace_section _ _ _ _ _ _ L).
  by rewrite getSubstitution_plain.
Qed.

(** C4, at the failing input: the new section text goes through the
    replacement patterns of [String.prototype.replace], so its [$$] is
    written as a single [$]; the result is not the file with the old
    section replaced by the new section text. *)
Theorem upsert_rewrites_replacement_patterns :
  let F := lit "# Rules" ++ [LF; LF] ++ wrapInSection (lit "OLD") (lit "x") in
  let S := wrapInSection (lit "echo $$") (lit "x") in
  upsertSection F (lit "x") S
  = lit "# Rules" ++ [LF; LF] ++ wrapInSection (lit "echo $") (lit "x")
  /\ upsertSection F (lit "x") S <> lit "# Rules" ++ [LF; LF] ++ S.
Proof. vm_compute. split; [reflexivity|discriminate]. Qed.

(* ===================================================================== *)
(** * removeSection *)
(* ===================================================================== *)

Lemma flushLF_small n : (n < 3)%nat -> flushLF n = repeat LF n.
Proof. intros H. unfold flushLF. destruct (3 <=? n)%nat eqn:E; [|done].
  apply Nat.leb_le in E. lia. Qed.

Lemma flushLF_large n : (3 <= n)%nat -> flushLF n = [LF; LF].
Proof. intros H. unfold flushLF. destruct (3 <=? n)%nat eqn:E; [done|].
  apply Nat.leb_gt in E. lia. Qed.

Lemma collapseFrom_LF n s : collapseFrom n (LF :: s) = collapseFrom (S n) s.
Proof. done. Qed.

Lemma collapseFrom_other n c s :
  c <> LF -> collapseFrom n (c :: s) = flushLF n ++ c :: collapseFrom 0 s.
Proof. intros H. cbn [collapseFrom]. apply N.eqb_neq in H. by rewrite H. Qed.

Lemma collapseFrom_run n k s :
  collapseFrom n (repeat LF k ++ s) = collapseFrom (n + k) s.
Proof.
  revert n; induction k as [|k IH]; intros n; [by rewrite Nat.add_0_r|].
  cbn [repeat app]. rewrite collapseFrom_LF, IH. f_equal. lia.
Qed.

Lemma collapseFrom_cut n a c s :
  c <> LF ->
  collapseFrom n (a ++ c :: s) = collapseFrom n (a ++ [c]) ++ collapseFrom 0 s.
Proof.
  intros Hc. revert n; induction a as [|d a IH]; intros n.
  - cbn [app]. rewrite !collapseFrom_other by done. cbn [collapseFrom flushLF].
    by rewrite <- app_assoc.
  - cbn [app]. destruct (decide (d = LF)) as [->|Hd].
    + rewrite !collapseFrom_LF. apply IH.
    + rewrite !collapseFrom_other by done. rewrite IH, <- app_assoc. done.
Qed.

(** The line-feed collapse, run by run: between a text that does not end
    with a line feed and a text that does not begin with one, a run of [n]
    line feeds becomes two when [n >= 3] and stays otherwise. *)
Lemma collapseNewlines_run a n b :
  (forall a' c, a = a' ++ [c] -> c <> LF) ->
  (forall c b', b = c :: b' -> c <> LF) ->
  collapseNewlines (a ++ repeat LF n ++ b)
  = collapseNewlines a ++ flushLF n ++ collapseNewlines b.
Proof.
  intros Ha Hb. unfold collapseNewlines.
  assert (collapseFrom 0 (repeat LF n ++ b) = flushLF n ++ collapseFrom 0 b) as Hrun.
  { rewrite collapseFrom_run. destruct b as [|c b'].
    - cbn [collapseFrom]. by rewrite app_nil_r.
    - rewrite !collapseFrom_other by (by eapply Hb). done. }
  induction a as [|c a' _] using rev_ind; [done|].
  rewrite <- (app_assoc a' [c]). cbn [app].
  rewrite collapseFrom_cut by (by eapply Ha). by rewrite Hrun, app_assoc.
Qed.

(** A text without three line feeds in a row is left as it is. *)
Lemma collapseFrom_no_triple n s :
  (n < 3)%nat -> includes (repeat LF n ++ s) [LF; LF; LF] = false ->
  collapseFrom n s = repeat LF n ++ s.
Proof.
  revert n; induction s as [|c s IH]; intros n Hn H.
  - cbn [collapseFrom]. rewrite app_nil_r. by apply flushLF_small.
  - destruct (decide (c = LF)) as [->|Hc].
    + rewrite collapseFrom_LF.
      assert (repeat LF n ++ LF :: s = repeat LF (S n) ++ s) as E.
      { change (repeat LF (S n)) with (LF :: repeat LF n).
        by rewrite repeat_cons, <- app_assoc. }
      rewrite E in *.
      destruct (decide (S n < 3)%nat) as [Hlt|Hge]; [by apply IH|].
      assert (n = 2%nat) as -> by lia. done.
    + rewrite collapseFrom_other, flushLF_small by done. f_equal. f_equal.
      apply (IH 0%nat); [lia|]. cbn [repeat app].
      rewrite includes_false in *. intros j.
      specialize (H (n + S j)%nat).
      rewrite <- (repeat_length LF n) in H at 2.
      rewrite occ_app_r in H. done.
Qed.

Lemma collapseNewlines_no_triple s :
  includes s [LF; LF; LF] = false -> collapseNewlines s = s.
Proof.
  intros H. unfold collapseNewlines.
  apply (collapseFrom_no_triple 0 s); [lia|exact H].
Qed.

Lemma flushLF_length n : (length (flushLF n) <= 2)%nat.
Proof.
  unfold flushLF. rewrite repeat_length.
  destruct (3 <=? n)%nat eqn:E; [lia|]. apply Nat.leb_gt in E. lia.
Qed.

Lemma occ_LF_run s j i :
  occ s [LF; LF; LF] j = true -> (j <= i)%nat -> (i < j + 3)%nat ->
  s !! i = Some LF.
Proof.
  intros H H1 H2. pose proof (occ_lookup _ _ _ (i - j) H) as E.
  replace (j + (i - j))%nat with i in E by lia. rewrite E by (cbn [length]; lia).
  destruct (i - j)%nat as [|[|[|k]]] eqn:D; try done. lia.
Qed.

(** No run of three line feeds is left in the collapsed text. *)
Lemma collapseFrom_no_run n s j : occ (collapseFrom n s) [LF; LF; LF] j = false.
Proof.
  revert n j; induction s as [|c s IH]; intros n j.
  - cbn [collapseFrom]. destruct (occ _ _ j) eqn:E; [|done].
    apply occ_bound in E; [|done]. pose proof (flushLF_length n).
    cbn [length] in E. lia.
  - destruct (decide (c = LF)) as [->|Hc].
    + rewrite collapseFrom_LF. apply IH.
    + rewrite collapseFrom_other by done.
      destruct (occ _ _ j) eqn:E; [exfalso|done].
      pose proof (flushLF_length n) as Hl.
      destruct (decide (j <= length (flushLF n))%nat) as [Hle|Hgt].
      * pose proof (occ_LF_run _ _ (length (flushLF n)) E Hle ltac:(lia)) as L.
        rewrite lookup_app_r, Nat.sub_diag in L by lia. cbn in L. congruence.
      * rewrite occ_app_r' in E by lia.
        destruct (j - length (flushLF n))%nat as [|i] eqn:D; [lia|].
        rewrite occ_S, IH in E. done.
Qed.

Lemma removeSection_none F slug :
  extractSection F slug = None -> removeSection F slug = F.
Proof. intros H. unfold removeSection. by rewrite H. Qed.

Lemma removeSection_some F slug sec before after :
  extractSection F slug = Some sec -> SectionAt F slug sec before after ->
  removeSection F slug = trim (collapseNewlines (before ++ after)).
Proof.
  intros E L. unfold removeSection.
  rewrite E, (truthy_section _ _ _ E). cbn [negb default].
  by rewrite (replace_section _ _ _ _ _ _ L).
Qed.

(** The scan of [collapseNewlines] does what the specification says of
    the runs. *)
Lemma collapseFrom_RunsCollapsed n s :
  RunsCollapsed (repeat LF n ++ s) (collapseFrom n s).
Proof.
  revert n; induction s as [|c s IH]; intros n.
  - cbn [collapseFrom]. destruct n as [|n].
    + apply collapsed_end.
    + rewrite <- (app_nil_r (flushLF (S n))). unfold flushLF.
      apply collapsed_run; [lia|done|apply collapsed_end].
  - destruct (decide (c = LF)) as [->|Hc].
    + rewrite collapseFrom_LF.
      replace (repeat LF n ++ LF :: s) with (repeat LF (S n) ++ s); [apply IH|].
      change (repeat LF (S n)) with (LF :: repeat LF n).
      by rewrite repeat_cons, <- app_assoc.
    + rewrite collapseFrom_other by done.
      assert (RunsCollapsed (c :: s) (c :: collapseFrom 0 s)) as Hu
        by (apply collapsed_unit; [done|apply (IH 0%nat)]).
      destruct n as [|n]; [exact Hu|]. unfold flushLF.
      apply collapsed_run; [lia| |exact Hu]. intros t [= -> _]. done.
Qed.

Lemma collapseNewlines_RunsCollapsed s : RunsCollapsed s (collapseNewlines s).
Proof. apply (collapseFrom_RunsCollapsed 0 s). Qed.

(** The specification's collapse has one result. *)
Lemma RunsCollapsed_unique s r : RunsCollapsed s r -> r = collapseNewlines s.
Proof.
  unfold collapseNewlines. induction 1 as [|c s r Hc _ IH|n s r Hn Hs _ IH].
  - done.
  - rewrite collapseFrom_other by done. by rewrite IH.
  - rewrite collapseFrom_run, Nat.add_0_l. subst r. destruct s as [|c s].
    + cbn [collapseFrom]. by rewrite app_nil_r.
    + assert (c <> LF) as Hc by (intros ->; by apply (Hs s)).
      by rewrite !collapseFrom_other.
Qed.

(** One run of four line feeds between two letters can only become two. *)
Example RunsCollapsed_run_of_four r :
  RunsCollapsed (lit "a" ++ [LF; LF; LF; LF] ++ lit "b") r ->
  r = lit "a" ++ [LF; LF] ++ lit "b".
Proof. intros H. by apply RunsCollapsed_unique in H. Qed.

(** C5: without a section of the slug [removeSection] returns the file
    unchanged; with one, the file is [before ++ section ++ after] with the
    section beginning at the first start marker, and the result is what is
    left of [before ++ after] when every maximal run of three or more line
    feeds is replaced by exactly two (everything else kept) and the white
    space at both ends is taken away; the result holds no three line feeds
    in a row and neither begins nor ends with white space; and a file that
    is exactly one section yields the empty string. *)
Theorem removeSection_spec F slug :
  (extractSection F slug = None -> removeSection F slug = F) /\
  (forall sec, extractSection F slug = Some sec ->
     exists before after collapsed leading trailing,
       F = before ++ sec ++ after /\
       indexOf F (sectionStart slug) = Z.of_nat (length before) /\
       RunsCollapsed (before ++ after) collapsed /\
       collapsed = leading ++ removeSection F slug ++ trailing /\
       allWhite leading = true /\ allWhite trailing = true /\
       removeSection F slug = trim (collapseNewlines (before ++ after)) /\
       includes (removeSection F slug) [LF; LF; LF] = false /\
       (forall c t, removeSection F slug = c :: t -> isWhiteSpace c = false) /\
       (forall c t, removeSection F slug = t ++ [c] -> isWhiteSpace c = false)) /\
  (extractSection F slug = Some F -> removeSection F slug = []).
Proof.
  split; [apply removeSection_none|]. split.
  - intros sec E.
    destruct (extractSection_layout _ _ _ E) as (before & after & L).
    pose proof (removeSection_some _ _ _ _ _ E L) as R.
    destruct (trim_split (collapseNewlines (before ++ after)))
      as (leading & trailing & Hsplit & Hl & Ht).
    exists before, after, (collapseNewlines (before ++ after)), leading, trailing.
    split; [apply L|]. split.
    { unfold indexOf. by rewrite (sa_start_first _ _ _ _ _ L). }
    split; [apply collapseNewlines_RunsCollapsed|].
    split; [by rewrite R|]. split; [done|]. split; [done|].
    split; [done|]. rewrite R. split; [|apply trim_ends].
    apply includes_false, no_occ_trim; [done|]. apply collapseFrom_no_run.
  - intros E.
    destruct (extractSection_layout _ _ _ E) as (before & after & L).
    rewrite (removeSection_some _ _ _ _ _ E L).
    pose proof (sa_file _ _ _ _ _ L) as EF.
    apply (f_equal length) in EF. rewrite !length_app in EF.
    assert (before = []) as -> by (apply length_zero_iff_nil; lia).
    assert (after = []) as -> by (apply length_zero_iff_nil; lia).
    done.
Qed.

Lemma removeSection_spec_witness :
  let S := wrapInSection (lit "OLD") (lit "x") in
  let F := lit "# Rules" ++ [LF; LF] ++ S ++ [LF; LF; LF] ++ lit "tail" ++ [LF] in
  removeSection (lit "# Rules") (lit "x") = lit "# Rules" /\
  removeSection S (lit "x") = [] /\
  (exists before after collapsed leading trailing,
     F = before ++ S ++ after /\
     RunsCollapsed (before ++ after) collapsed /\
     collapsed = leading ++ removeSection F (lit "x") ++ trailing /\
     allWhite leading = true /\ allWhite trailing = true /\
     includes (removeSection F (lit "x")) [LF; LF; LF] = false).
Proof.
  intros S F. split; [|split].
  - apply (proj1 (removeSection_spec (lit "# Rules") (lit "x"))).
    vm_compute. reflexivity.
  - apply (proj2 (proj2 (removeSection_spec S (lit "x")))).
    vm_compute. reflexivity.
  - destruct (proj1 (proj2 (removeSection_spec F (lit "x"))) S)
      as (before & after & collapsed & leading & trailing
          & HF & _ & HC & HS & HL & HT & _ & HN & _).
    + vm_compute. reflexivity.
    + exists before, after, collapsed, leading, trailing.
      split; [exact HF|]. split; [exact HC|]. split; [exact HS|].
      split; [exact HL|]. split; [exact HT|exact HN].
Defined.

(** ** What [removeSection] leaves of the markers *)

Lemma collapseFrom_S_head n s : exists r, collapseFrom (S n) s = LF :: r.
Proof.
  revert n; induction s as [|c s IH]; intros n.
  - cbn [collapseFrom]. unfold flushLF.
    destruct (3 <=? S n)%nat; eexists; reflexivity.
  - destruct (decide (c = LF)) as [->|Hc].
    + rewrite collapseFrom_LF. apply IH.
    + rewrite collapseFrom_other by done. unfold flushLF.
      destruct (3 <=? S n)%nat; eexists; reflexivity.
Qed.

Lemma lineFree_cons c s : lineFree (c :: s) = true -> c <> LF /\ lineFree s = true.
Proof.
  cbn [lineFree forallb]. intros [H1 H2]%andb_true_iff. split; [|done].
  apply negb_true_iff, N.eqb_neq in H1. done.
Qed.

Lemma startsWith_cons c s d p :
  startsWith (c :: s) (d :: p) = N.eqb d c && startsWith s p.
Proof. done. Qed.

(** A prefix without line feeds of the collapsed text is a prefix of the
    text. *)
Lemma startsWith_collapse s p :
  lineFree p = true -> startsWith (collapseFrom 0 s) p = true ->
  startsWith s p = true.
Proof.
  revert s; induction p as [|d p IH]; intros s Hp H; [done|].
  apply lineFree_cons in Hp as [Hd Hp].
  destruct s as [|c s]; [done|].
  destruct (decide (c = LF)) as [->|Hc].
  - rewrite collapseFrom_LF in H. destruct (collapseFrom_S_head 0 s) as [r E].
    rewrite E, startsWith_cons in H. apply andb_true_iff in H as [H _].
    apply N.eqb_eq in H. done.
  - rewrite collapseFrom_other in H by done. cbn [flushLF repeat Nat.leb app] in H.
    rewrite startsWith_cons in *. apply andb_true_iff in H as [-> H].
    by rewrite (IH _ Hp H).
Qed.

Lemma lookup_repeat (x : N) n i : (i < n)%nat -> repeat x n !! i = Some x.
Proof.
  revert i; induction n as [|n IH]; intros i Hi; [lia|].
  destruct i as [|i]; [done|]. cbn [repeat]. apply IH. lia.
Qed.

Lemma occ_in_run pat k j :
  pat <> [] -> lineFree pat = true -> occ (repeat LF k) pat j = false.
Proof.
  intros Hne Hp. destruct (occ _ pat j) eqn:E; [exfalso|done].
  pose proof (occ_bound _ _ _ E Hne) as B. rewrite repeat_length in B.
  assert (0 < length pat)%nat by (destruct pat; [done|cbn [length]; lia]).
  apply (occ_not_across _ _ _ j E Hp); [|lia|lia].
  apply lookup_repeat. lia.
Qed.

(** A text without line feeds that occurs in the collapsed text occurs in
    the text. *)
Lemma occ_collapse pat n s j :
  pat <> [] -> lineFree pat = true ->
  occ (collapseFrom n s) pat j = true -> exists j', occ s pat j' = true.
Proof.
  intros Hne Hp. revert n j; induction s as [|c s IH]; intros n j H.
  - cbn [collapseFrom] in H. unfold flushLF in H.
    by rewrite occ_in_run in H.
  - destruct (decide (c = LF)) as [->|Hc].
    + rewrite collapseFrom_LF in H. destruct (IH _ _ H) as [j' Hj'].
      by exists (S j').
    + rewrite collapseFrom_other in H by done.
      assert (0 < length pat)%nat by (destruct pat; [done|cbn [length]; lia]).
      destruct (decide (j < length (flushLF n))%nat) as [Hlt|Hge].
      * exfalso. apply (occ_not_across _ _ _ j H Hp); [|lia|lia].
        rewrite lookup_app_l by done. unfold flushLF in *.
        rewrite repeat_length in Hlt. by apply lookup_repeat.
      * rewrite occ_app_r' in H by lia.
        destruct (j - length (flushLF n))%nat as [|i].
        -- exists 0%nat. rewrite occ_0 in *.
           destruct pat as [|d p]; [done|].
           apply lineFree_cons in Hp as [_ Hp].
           rewrite startsWith_cons in *. apply andb_true_iff in H as [-> H].
           by rewrite (startsWith_collapse _ _ Hp H).
        -- rewrite occ_S in H. destruct (IH _ _ H) as [j' Hj'].
           by exists (S j').
Qed.

Lemma occ_trim pat s j :
  pat <> [] -> occ (trim s) pat j = true -> exists j', occ s pat j' = true.
Proof.
  intros Hne H. destruct (trim_split s) as (a & b & E & _).
  exists (length a + j)%nat. rewrite E at 1. by apply occ_inside.
Qed.

Lemma countOcc_pos s pat j :
  pat <> [] -> occ s pat j = true -> (1 <= countOcc s pat)%nat.
Proof.
  intros Hne. revert j; induction s as [|c s IH]; intros j H.
  - rewrite occ_nil in H. by destruct pat.
  - cbn [countOcc]. destruct j as [|j].
    + rewrite occ_0 in H. rewrite H. lia.
    + rewrite occ_S in H. specialize (IH _ H). lia.
Qed.

Lemma countOcc_unique s pat i j :
  pat <> [] -> (countOcc s pat <= 1)%nat ->
  occ s pat i = true -> occ s pat j = true -> i = j.
Proof.
  intros Hne. revert i j; induction s as [|c s IH]; intros i j Hc Hi Hj.
  - rewrite occ_nil in Hi. by destruct pat.
  - cbn [countOcc] in Hc. destruct i as [|i], j as [|j]; [done| | |].
    + rewrite occ_0 in Hi. rewrite occ_S in Hj. rewrite Hi in Hc.
      pose proof (countOcc_pos _ _ _ Hne Hj). lia.
    + rewrite occ_0 in Hj. rewrite occ_S in Hi. rewrite Hj in Hc.
      pose proof (countOcc_pos _ _ _ Hne Hi). lia.
    + rewrite occ_S in Hi, Hj. f_equal. apply IH; [lia|done|done].
Qed.

Lemma plainSlug_lineFree slug : plainSlug slug = true -> lineFree slug = true.
Proof.
  unfold plainSlug, lineFree. rewrite !forallb_forall. intros H x Hx.
  by apply H, andb_true_iff in Hx as [? _].
Qed.

Lemma angleFree_lookup s i : angleFree s = true -> s !! i <> Some LT.
Proof.
  unfold angleFree. rewrite forallb_forall. intros H E.
  apply list_elem_of_lookup_2, list_elem_of_In, H in E. done.
Qed.

(** In the markers of such a slug, [<] is the first character only. *)
Lemma markers_one_angle slug i :
  plainSlug slug = true ->
  sectionStart slug !! S i <> Some LT /\ sectionEnd slug !! S i <> Some LT.
Proof.
  intros H.
  assert (angleFree slug = true) as Ha.
  { unfold plainSlug, angleFree in *. rewrite !forallb_forall in *. intros x Hx.
    by apply H, andb_true_iff in Hx as [_ ?]. }
  unfold sectionStart, sectionEnd.
  change (lit "<!-- agenthints:") with (LT :: lit "!-- agenthints:").
  cbn [app lookup list_lookup].
  split; apply angleFree_lookup; unfold angleFree in *;
    rewrite !forallb_app, Ha; done.
Qed.

(** With each marker occurring once in the file, a marker that occurs in
    what is left around the section lies across the place of the section. *)
Lemma remainder_across (F sec before after pat : jsstring) k j :
  pat <> [] ->
  F = before ++ sec ++ after ->
  (countOcc F pat <= 1)%nat ->
  occ F pat k = true -> (length before <= k)%nat ->
  (k < length before + length sec)%nat ->
  (length before < k + length pat)%nat ->
  occ (before ++ after) pat j = true ->
  (j < length before)%nat /\ (length before < j + length pat)%nat.
Proof.
  intros Hne EF Hc Hk H1 H2 H3 H.
  assert (0 < length pat)%nat by (destruct pat; [done|cbn [length]; lia]).
  destruct (decide (j + length pat <= length before)%nat) as [Hin|Hout].
  - exfalso. rewrite occ_app_l in H by done.
    assert (occ F pat j = true) as HF by (by rewrite EF, occ_app_l).
    pose proof (countOcc_unique _ _ _ _ Hne Hc Hk HF). lia.
  - destruct (decide (j < length before)%nat) as [|Hge]; [lia|]. exfalso.
    rewrite occ_app_r' in H by lia.
    assert (occ F pat (length (before ++ sec) + (j - length before)) = true) as HF.
    { by rewrite EF, app_assoc, occ_app_r. }
    rewrite length_app in HF.
    pose proof (countOcc_unique _ _ _ _ Hne Hc Hk HF). lia.
Qed.

Lemma remainder_one_kind F slug sec before after a b :
  SectionAt F slug sec before after -> plainSlug slug = true ->
  (countOcc F (sectionStart slug) <= 1)%nat ->
  (countOcc F (sectionEnd slug) <= 1)%nat ->
  occ (before ++ after) (sectionStart slug) a = true ->
  occ (before ++ after) (sectionEnd slug) b = true -> False.
Proof.
  intros [EF Hs He St Hl _] Hp Cs Ce Ha Hb.
  marker_lengths slug.
  apply search_Some in Hs as [Os _]. apply search_Some in He as [Oe _].
  destruct (remainder_across F sec before after _ _ a
              (sectionStart_nonempty slug) EF Cs Os) as [A1 A2]; [lia..|done|].
  destruct (remainder_across F sec before after _ _ b
              (sectionEnd_nonempty slug) EF Ce Oe) as [B1 B2]; [lia..|done|].
  destruct (decide (a = b)) as [->|Hne].
  { by rewrite (occ_start_not_end _ _ _ Ha) in Hb. }
  destruct (decide (a < b)%nat).
  - pose proof (occ_lookup _ _ _ (b - a) Ha ltac:(lia)) as E1.
    pose proof (occ_lookup _ _ _ 0 Hb ltac:(lia)) as E2.
    replace (a + (b - a))%nat with b in E1 by lia.
    replace (b + 0)%nat with b in E2 by lia.
    rewrite E1 in E2. destruct (b - a)%nat as [|i] eqn:D; [lia|].
    by destruct (markers_one_angle slug i Hp) as [M _].
  - pose proof (occ_lookup _ _ _ (a - b) Hb ltac:(lia)) as E1.
    pose proof (occ_lookup _ _ _ 0 Ha ltac:(lia)) as E2.
    replace (b + (a - b))%nat with a in E1 by lia.
    replace (a + 0)%nat with a in E2 by lia.
    rewrite E1 in E2. destruct (a - b)%nat as [|i] eqn:D; [lia|].
    by destruct (markers_one_angle slug i Hp) as [_ M].
Qed.

(** After the only section of a slug is removed, no section of that slug
    is left. *)
Lemma removeSection_clears F slug :
  hasSection F slug = true -> plainSlug slug = true ->
  (countOcc F (sectionStart slug) <= 1)%nat ->
  (countOcc F (sectionEnd slug) <= 1)%nat ->
  extractSection (removeSection F slug) slug = None.
Proof.
  unfold hasSection. destruct (extractSection F slug) as [sec|] eqn:E; [|done].
  intros _ Hp Cs Ce.
  destruct (extractSection_layout _ _ _ E) as (before & after & L).
  rewrite (removeSection_some _ _ _ _ _ E L).
  destruct (extractSection (trim (collapseNewlines (before ++ after))) slug)
    as [sec'|] eqn:E'; [exfalso|done].
  apply extractSection_Some in E' as (si & ei & [Os _]%search_Some & [Oe _]%search_Some & _).
  destruct (lineFree_markers _ (plainSlug_lineFree _ Hp)) as [L1 L2].
  apply occ_trim in Os as [a' Os]; [|done].
  apply occ_trim in Oe as [b' Oe]; [|done].
  apply occ_collapse in Os as [a Os]; [|done..].
  apply occ_collapse in Oe as [b Oe]; [|done..].
  by eapply remainder_one_kind.
Qed.

(** C3, as stated, fails: of two sections of one slug the first is removed
    by the first call and the second by the second call. *)
Lemma removeSection_twice_differs :
  let S := wrapInSection (lit "A") (lit "x") in
  let F := S ++ [LF] ++ S in
  removeSection F (lit "x") = S /\
  removeSection (removeSection F (lit "x")) (lit "x") = [] /\
  removeSection (removeSection F (lit "x")) (lit "x") <> removeSection F (lit "x").
Proof. vm_compute. repeat split; discriminate. Qed.

(** C3, amended: [removeSection] is idempotent on every file that has no
    section of the slug, and on every file in which the start marker and
    the end marker of the slug each occur at most once, for slugs that
    contain neither a line feed nor [<]. *)
Theorem removeSection_idempotent F slug :
  negb (hasSection F slug)
  || plainSlug slug
     && (countOcc F (sectionStart slug) <=? 1)%nat
     && (countOcc F (sectionEnd slug) <=? 1)%nat = true ->
  removeSection (removeSection F slug) slug = removeSection F slug.
Proof.
  intros [H|H]%orb_true_iff.
  - apply negb_true_iff in H. unfold hasSection in H.
    destruct (extractSection F slug) eqn:E; [done|].
    by rewrite !(removeSection_none _ _ E).
  - apply andb_true_iff in H as [[Hp Cs]%andb_true_iff Ce].
    apply Nat.leb_le in Cs, Ce.
    destruct (hasSection F slug) eqn:Hs.
    + apply removeSection_none. by apply removeSection_clears.
    + unfold hasSection in Hs. destruct (extractSection F slug) eqn:E; [done|].
      by rewrite !(removeSection_none _ _ E).
Qed.

Lemma removeSection_idempotent_witness :
  let S := wrapInSection (lit "A") (lit "x") in
  let F1 := lit "# Rules" ++ [LF; LF] ++ S ++ [LF; LF] ++ lit "tail" in
  let F2 := sectionStart (lit "x") ++ sectionStart (lit "x") in
  removeSection (removeSection F1 (lit "x")) (lit "x") = removeSection F1 (lit "x")
  /\ removeSection (removeSection F2 (lit "x")) (lit "x") = removeSection F2 (lit "x").
Proof.
  split.
  - apply (removeSection_idempotent _ (lit "x")). vm_compute. reflexivity.
  - apply (removeSection_idempotent _ (lit "x")). vm_compute. reflexivity.
Defined.

(* ===================================================================== *)
(** * transformForAgent *)
(* ===================================================================== *)

Lemma includes_true s pat j : occ s pat j = true -> includes s pat = true.
Proof.
  intros H. unfold includes. by destruct (search_occ _ _ _ H) as (k & -> & _).
Qed.

Lemma wrapInSection_has_markers body slug :
  includes (wrapInSection body slug) (sectionStart slug) = true /\
  includes (wrapInSection body slug) (sectionEnd slug) = true.
Proof.
  unfold wrapInSection. split.
  - apply (includes_true _ _ 0). rewrite occ_0. apply startsWith_app.
  - apply (includes_true _ _ (length (sectionStart slug ++ [LF] ++ body ++ [LF]))).
    rewrite !app_assoc. rewrite occ_app_r', Nat.sub_diag, occ_0.
    + apply startsWith_refl.
    + by rewrite <- !app_assoc.
Qed.

(** C6, as stated, fails: with [appendMode = false] the content is passed
    on as it is, so a content that quotes a marker is rendered with it. *)
Lemma unwrapped_output_may_hold_marker :
  includes
    (content (transformForAgent
                (lit "Sections start with <!-- agenthints:x:start -->")
                (lit "x") windsurf (lit ".windsurf/rules/x.md")))
    (sectionStart (lit "x"))
  = true.
Proof. vm_compute. reflexivity. Qed.

(** C6, amended: with [appendMode = true] the rendered content is the
    header-prefixed, custom-transformed content between the start and the
    end marker of the slug and contains both; with [appendMode = false]
    [transformForAgent] adds no marker: the rendered content is the
    header-prefixed, custom-transformed content itself, and contains a
    marker only if that content does. *)
Theorem transformForAgent_markers text hintName agent resolvedPath :
  let body := withTransform (withHeader text hintName agent) hintName agent in
  let out := content (transformForAgent text hintName agent resolvedPath) in
  (Agents.appendMode agent = true ->
     out = sectionStart hintName ++ [LF] ++ body ++ [LF] ++ sectionEnd hintName /\
     includes out (sectionStart hintName) = true /\
     includes out (sectionEnd hintName) = true) /\
  (Agents.appendMode agent = false ->
     out = body /\
     includes out (sectionStart hintName) = includes body (sectionStart hintName) /\
     includes out (sectionEnd hintName) = includes body (sectionEnd hintName)).
Proof.
  cbn zeta. unfold transformForAgent. cbn [content]. split; intros ->.
  - split; [done|]. apply wrapInSection_has_markers.
  - done.
Qed.

Lemma transformForAgent_markers_witness :
  (includes (content (transformForAgent (lit "Use pnpm.") (lit "x") claude
                        (lit "CLAUDE.md"))) (sectionStart (lit "x")) = true /\
   includes (content (transformForAgent (lit "Use pnpm.") (lit "x") claude
                        (lit "CLAUDE.md"))) (sectionEnd (lit "x")) = true) /\
  content (transformForAgent (lit "Use pnpm.") (lit "x") cursor
             (lit ".cursor/rules/x.mdc"))
  = withTransform (withHeader (lit "Use pnpm.") (lit "x") cursor) (lit "x") cursor.
Proof.
  split.
  - apply (proj1 (transformForAgent_markers (lit "Use pnpm.") (lit "x") claude
                    (lit "CLAUDE.md"))).
    reflexivity.
  - apply (proj2 (transformForAgent_markers (lit "Use pnpm.") (lit "x") cursor
                    (lit ".cursor/rules/x.mdc"))).
    reflexivity.
Defined.

(** C10: for an agent without header, without custom transform and with
    [appendMode = false], [transformForAgent] returns the content
    unchanged, the resolved path it was given, and [appendMode = false]. *)
Theorem transformForAgent_plain_agent text hintName agent resolvedPath :
  header agent = None -> transform agent = None ->
  Agents.appendMode agent = false ->
  transformForAgent text hintName agent resolvedPath
  = {| content := text; path := resolvedPath; appendMode := false |}.
Proof.
  intros Hh Ht Ha.
  unfold transformForAgent, withTransform, withHeader, resolveAgentHeader.
  by rewrite Hh, Ht, Ha.
Qed.

Lemma transformForAgent_plain_agent_witness :
  transformForAgent (lit "Use pnpm.") (lit "prisma") windsurf
    (lit ".windsurf/rules/prisma.md")
  = {| content := lit "Use pnpm.";
       path := lit ".windsurf/rules/prisma.md";
       appendMode := false |}.
Proof.
  apply (transformForAgent_plain_agent _ _ windsurf); reflexivity.
Defined.

(* ===================================================================== *)
(** * isExpired *)
(* ===================================================================== *)

(** C9: [isExpired timestamp ttl] returns, without changing anything,
    whether [now - timestamp >= ttl]; an entry whose age is exactly the TTL
    is expired, one that is a millisecond younger is not. *)
Theorem isExpired_spec (timestamp ttl : Z) (w : World) :
  exists b,
    Cache.isExpired timestamp ttl w = (inr b, w) /\
    (b = true <-> clock w - timestamp >= ttl) /\
    Cache.isExpired (clock w - ttl) ttl w = (inr true, w) /\
    Cache.isExpired (clock w - ttl + 1) ttl w = (inr false, w).
Proof.
  exists (clock w - timestamp >=? ttl). unfold Cache.isExpired.
  split; [done|]. split; [|split].
  - rewrite Z.geb_leb, Z.leb_le. lia.
  - do 2 f_equal. rewrite Z.geb_leb, Z.leb_le. lia.
  - do 2 f_equal. rewrite Z.geb_leb, Z.leb_gt. lia.
Qed.

(* ===================================================================== *)
(** * fetchHintContent *)
(* ===================================================================== *)

(** C2, as stated, fails: an empty [expectedSha256] is supplied and differs
    from the cached hash, the entry is one hour old, and the cached data is
    returned without a request. *)
Lemma empty_hash_uses_cache :
  let env := remoteEnv (fun _ => Some (okResponse (lit "new content"))) in
  let c := {| data := JString (lit "old content");
              timestamp := 1700000000000;
              sha256 := Some (lit "abc123") |} in
  let w := oneEntry env (contentKey (lit "prisma")) c (1700000000000 + 3600000) in
  usableAsClaimed (Some c) (clock w) (Some []) = false /\
  fetchHintContent env (lit "prisma") (lit "./hint.md") (Some []) w
  = (inr (JString (lit "old content")), w).
Proof. split; reflexivity. Qed.

Lemma snoc_neq {A} (l : list A) x : l ++ [x] <> l.
Proof.
  intros E. apply (f_equal length) in E. rewrite length_app in E.
  cbn [length] in E. lia.
Qed.

(** [fetchHintContent] in remote mode, run on a world. *)
Lemma fetchHintContent_remote env hintPath hintFile expectedSha256 w :
  truthy (LOCAL_REGISTRY env) = false ->
  fetchHintContent env hintPath hintFile expectedSha256 w
  = let cached := disk w !! getCachePath env (contentKey hintPath) in
    let url := contentUrl env hintPath hintFile in
    let path := getCachePath env (contentKey hintPath) in
    if usable cached (clock w) expectedSha256
    then (inr (default JNull (data <$> cached)), w)
    else match network env url with
         | None => (inl NetworkFailure, afterRequest env w url)
         | Some r =>
             if ok r then
               match body r with
               | None => (inl BodyFailure, afterRequest env w url)
               | Some t =>
                   if mkdirFails env (dirname path)
                   then (inl (FsError (dirname path)), afterRequest env w url)
                   else
                     match writeFails env path with
                     | Some damaged =>
                         (inl (FsError path),
                          if damaged then afterDamage env w url path
                          else afterRequest env w url)
                     | None =>
                         (inr (JString t),
                          afterFetch env w hintPath url t expectedSha256)
                     end
               end
             else (inl (Error (contentFailedMessage (statusText r))),
                   afterRequest env w url)
         end.
Proof.
  intros Hremote. unfold fetchHintContent. rewrite Hremote.
  fold (contentKey hintPath). fold (contentUrl env hintPath hintFile).
  cbn zeta. unfold bind, readCache, isExpired, ret, usable.
  assert (forall w0 : World,
    disk w0 = disk w -> clock w0 = clock w -> requests w0 = requests w ->
    (let (s, w') := fetch env (contentUrl env hintPath hintFile) w0 in
     match s with
     | inl e => (inl e, w')
     | inr a =>
         (if negb (ok a)
          then throw (Error (contentFailedMessage (statusText a)))
          else
            fun w1 : World =>
              let (s0, w'0) := text a w1 in
              match s0 with
              | inl e => (inl e, w'0)
              | inr a0 =>
                  let (s1, w'1) :=
                    writeCache env (contentKey hintPath) (JString a0)
                      expectedSha256 w'0 in
                  match s1 with
                  | inl e => (inl e, w'1)
                  | inr _ => (inr (JString a0), w'1)
                  end
              end) w'
     end)
    = match network env (contentUrl env hintPath hintFile) with
      | None => (inl NetworkFailure, afterRequest env w (contentUrl env hintPath hintFile))
      | Some r =>
          if ok r then
            match body r with
            | None => (inl BodyFailure, afterRequest env w (contentUrl env hintPath hintFile))
            | Some t =>
                if mkdirFails env (dirname (getCachePath env (contentKey hintPath)))
                then (inl (FsError (dirname (getCachePath env (contentKey hintPath)))),
                      afterRequest env w (contentUrl env hintPath hintFile))
                else
                  match writeFails env (getCachePath env (contentKey hintPath)) with
                  | Some damaged =>
                      (inl (FsError (getCachePath env (contentKey hintPath))),
                       if damaged
                       then afterDamage env w (contentUrl env hintPath hintFile)
                              (getCachePath env (contentKey hintPath))
                       else afterRequest env w (contentUrl env hintPath hintFile))
                  | None =>
                      (inr (JString t),
                       afterFetch env w hintPath (contentUrl env hintPath hintFile) t
                         expectedSha256)
                  end
            end
          else (inl (Error (contentFailedMessage (statusText r))),
                afterRequest env w (contentUrl env hintPath hintFile))
      end) as Hnet.
  { intros w0 Hd Hc Hr.
    unfold fetch, throw, text, writeCache, bind, mkdir, writeEntry,
      afterRequest, afterDamage, afterFetch.
    rewrite Hd, Hc, Hr.
    destruct (network env (contentUrl env hintPath hintFile)) as [r|]; [|done].
    destruct (ok r); [|done]. cbn [negb].
    destruct (body r) as [t|]; [|done]. cbn [disk clock requests].
    destruct (mkdirFails env _); [done|].
    destruct (writeFails env _) as [[|]|]; done. }
  destruct (disk w !! getCachePath env (contentKey hintPath)) as [c|] eqn:Ec.
  - destruct (negb (clock w - timestamp c >=? HINT_TTL_MS)
              && (negb (truthy expectedSha256)
                  || sameHash (sha256 c) expectedSha256)) eqn:U; [done|].
    by apply Hnet.
  - by apply Hnet.
Qed.

(** C2, amended: in remote mode [fetchHintContent] returns the cached data,
    without a request and without touching the cache, if and only if the
    entry exists, is not expired under the hint TTL, and [expectedSha256]
    is missing or empty or equals the cached hash.  In every other case it
    issues one request.  When the response is 2xx and its body can be read,
    the text is written to the cache with the time of its arrival and
    [expectedSha256] (no hash when that is missing or empty) and returned;
    but when the directory of the cache file cannot be created or the file
    cannot be written, the call throws that error instead of returning the
    text, and the entry is as before or lost.  A response that is not 2xx,
    a body that cannot be read, or a rejected request throws and leaves
    the cache as it was. *)
Theorem fetchHintContent_cache_gate env hintPath hintFile expectedSha256 w :
  truthy (LOCAL_REGISTRY env) = false ->
  let cached := disk w !! getCachePath env (contentKey hintPath) in
  let url := contentUrl env hintPath hintFile in
  let path := getCachePath env (contentKey hintPath) in
  let run := fetchHintContent env hintPath hintFile expectedSha256 w in
  (usable cached (clock w) expectedSha256 = true <->
   requests (snd run) = requests w) /\
  (if usable cached (clock w) expectedSha256
   then exists c, cached = Some c /\ run = (inr (data c), w)
   else match network env url with
        | None => run = (inl NetworkFailure, afterRequest env w url)
        | Some r =>
            if ok r then
              match body r with
              | None => run = (inl BodyFailure, afterRequest env w url)
              | Some t =>
                  if mkdirFails env (dirname path)
                  then run = (inl (FsError (dirname path)), afterRequest env w url)
                  else
                    match writeFails env path with
                    | Some true =>
                        run = (inl (FsError path), afterDamage env w url path)
                    | Some false =>
                        run = (inl (FsError path), afterRequest env w url)
                    | None =>
                        run = (inr (JString t),
                               afterFetch env w hintPath url t expectedSha256)
                    end
              end
            else run = (inl (Error (lit "Failed to fetch hint content: "
                                    ++ statusText r)),
                        afterRequest env w url)
        end).
Proof.
  intros Hremote. cbn zeta. rewrite fetchHintContent_remote by done. cbn zeta.
  destruct (usable _ (clock w) expectedSha256) eqn:U.
  - split; [done|].
    destruct (disk w !! getCachePath env (contentKey hintPath)) as [c|]; [|done].
    by exists c.
  - assert (forall l : list jsstring, requests w ++ l = requests w -> l = [])
      as Hsame.
    { intros l E. rewrite <- (app_nil_r (requests w)) in E at 2.
      by apply app_inv_head in E. }
    destruct (network env (contentUrl env hintPath hintFile)) as [r|];
      [destruct (ok r); [destruct (body r) as [t|];
         [destruct (mkdirFails env _); [|destruct (writeFails env _) as [[|]|]]|]|]|];
      (split; [|done]);
      cbn [snd afterFetch afterRequest afterDamage requests];
      (split; [done|]); intros E; by apply Hsame in E.
Qed.

Lemma fetchHintContent_cache_gate_witness :
  let env := remoteEnv (fun _ => Some (okResponse (lit "new content"))) in
  let c := {| data := JString (lit "old content");
              timestamp := 1700000000000;
              sha256 := Some (lit "old-sha") |} in
  let hour := 3600000 in
  let w1 := oneEntry env (contentKey (lit "prisma")) c (1700000000000 + hour) in
  let w25 := oneEntry env (contentKey (lit "prisma")) c (1700000000000 + 25 * hour) in
  let url := lit "https://agenthints.tech/registry/hints/prisma/hint.md" in
  (* the hashes differ, the entry is fresh: fetched *)
  fetchHintContent env (lit "prisma") (lit "./hint.md") (Some (lit "new-sha")) w1
  = (inr (JString (lit "new content")),
     afterFetch env w1 (lit "prisma") url (lit "new content") (Some (lit "new-sha")))
  /\
  (* the hashes match, the entry is expired: fetched *)
  fetchHintContent env (lit "prisma") (lit "./hint.md") (Some (lit "old-sha")) w25
  = (inr (JString (lit "new content")),
     afterFetch env w25 (lit "prisma") url (lit "new content") (Some (lit "old-sha")))
  /\
  (* the hashes match, the entry is fresh: served from the cache *)
  (exists c0,
     disk w1 !! getCachePath env (contentKey (lit "prisma")) = Some c0 /\
     fetchHintContent env (lit "prisma") (lit "./hint.md") (Some (lit "old-sha")) w1
     = (inr (data c0), w1))
  /\
  (* the cache file cannot be written: the fetched text is not returned *)
  fetchHintContent (fullDiskEnv (fun _ => Some (okResponse (lit "new content"))))
    (lit "prisma") (lit "./hint.md") (Some (lit "new-sha")) w1
  = (inl (FsError (lit "/tmp/agenthints-cache/hints/prisma/content.json")),
     {| disk := ∅; clock := 1700000000000 + hour + 120; requests := [url] |}).
Proof.
  intros env c hour w1 w25 url. split; [|split; [|split]].
  - exact (proj2 (fetchHintContent_cache_gate env (lit "prisma") (lit "./hint.md")
                    (Some (lit "new-sha")) w1 eq_refl)).
  - exact (proj2 (fetchHintContent_cache_gate env (lit "prisma") (lit "./hint.md")
                    (Some (lit "old-sha")) w25 eq_refl)).
  - exact (proj2 (fetchHintContent_cache_gate env (lit "prisma") (lit "./hint.md")
                    (Some (lit "old-sha")) w1 eq_refl)).
  - etransitivity.
    + exact (proj2 (fetchHintContent_cache_gate
                      (fullDiskEnv (fun _ => Some (okResponse (lit "new content"))))
                      (lit "prisma") (lit "./hint.md") (Some (lit "new-sha")) w1
                      eq_refl)).
    + vm_compute. reflexivity.
Defined.

(* ===================================================================== *)
(** * fetchHintMetadata *)
(* ===================================================================== *)

Lemma includes_occ s pat : includes s pat = true -> exists j, occ s pat j = true.
Proof.
  unfold includes. destruct (search s pat) as [k|] eqn:E; [|done].
  intros _. exists k. by apply search_Some in E as [? _].
Qed.

Lemma includes_app_r a b pat : includes b pat = true -> includes (a ++ b) pat = true.
Proof.
  intros [j Hj]%includes_occ. apply (includes_true _ _ (length a + j)).
  by rewrite occ_app_r.
Qed.

Lemma includes_prefix pat b : includes (pat ++ b) pat = true.
Proof. apply (includes_true _ _ 0). rewrite occ_0. apply startsWith_app. Qed.

(** [fetchHintMetadata] in remote mode, when a request is answered. *)
Lemma fetchHintMetadata_remote env hintPath w r :
  truthy (LOCAL_REGISTRY env) = false ->
  fresh (disk w !! getCachePath env (metaKey hintPath)) (clock w) = false ->
  network env (metaUrl env hintPath) = Some r ->
  ok r = false ->
  fetchHintMetadata env hintPath w
  = (inl (Error (if status r =? 404 then notFoundMessage hintPath
                 else metadataFailedMessage (statusText r))),
     afterRequest env w (metaUrl env hintPath)).
Proof.
  intros Hremote Hfresh Hnet Hok. unfold fetchHintMetadata. rewrite Hremote.
  fold (metaKey hintPath). fold (metaUrl env hintPath).
  cbn zeta. unfold bind, readCache, isExpired, ret, fresh in *.
  destruct (disk w !! getCachePath env (metaKey hintPath)) as [c|] eqn:Ec.
  - rewrite Hfresh. unfold fetch, throw. rewrite Hnet, Hok. cbn [negb].
    by destruct (status r =? 404).
  - unfold fetch, throw. rewrite Hnet, Hok. cbn [negb].
    by destruct (status r =? 404).
Qed.

(** C8: when the request for a hint's metadata is answered with status 404,
    [fetchHintMetadata] throws an error whose message names the slug and
    suggests [agenthints list]; with any other status outside 200-299 it
    throws the generic failure with the status text; and the two messages
    are never the same, so the not-found error can be told from the
    generic one. *)
Theorem fetchHintMetadata_not_found env hintPath w r :
  truthy (LOCAL_REGISTRY env) = false ->
  fresh (disk w !! getCachePath env (metaKey hintPath)) (clock w) = false ->
  network env (metaUrl env hintPath) = Some r ->
  (status r = 404 ->
     fst (fetchHintMetadata env hintPath w) = inl (Error (notFoundMessage hintPath))) /\
  (ok r = false -> status r <> 404 ->
     fst (fetchHintMetadata env hintPath w)
     = inl (Error (metadataFailedMessage (statusText r)))) /\
  includes (notFoundMessage hintPath) hintPath = true /\
  includes (notFoundMessage hintPath) (lit "agenthints list") = true /\
  (forall text, notFoundMessage hintPath <> metadataFailedMessage text).
Proof.
  intros Hremote Hfresh Hnet. repeat split.
  - intros H404.
    rewrite (fetchHintMetadata_remote _ _ _ r) by (try done; unfold ok; by rewrite H404).
    by rewrite H404.
  - intros Hok Hne. rewrite (fetchHintMetadata_remote _ _ _ r) by done.
    apply Z.eqb_neq in Hne. by rewrite Hne.
  - unfold notFoundMessage. do 2 apply includes_app_r. apply includes_prefix.
  - unfold notFoundMessage. do 6 apply includes_app_r. apply includes_prefix.
  - intros text. discriminate.
Qed.

Lemma fetchHintMetadata_not_found_witness :
  fst (fetchHintMetadata (remoteEnv (fun _ => Some notFoundResponse))
         (lit "prisma") (emptyWorld 1700000000000))
  = inl (Error (notFoundMessage (lit "prisma")))
  /\ fst (fetchHintMetadata (remoteEnv (fun _ => Some serverErrorResponse))
            (lit "prisma") (emptyWorld 1700000000000))
     = inl (Error (metadataFailedMessage (lit "Internal Server Error"))).
Proof.
  split.
  - apply (proj1 (fetchHintMetadata_not_found
                    (remoteEnv (fun _ => Some notFoundResponse)) (lit "prisma")
                    (emptyWorld 1700000000000) notFoundResponse
                    eq_refl eq_refl eq_refl)).
    reflexivity.
  - apply (proj1 (proj2 (fetchHintMetadata_not_found
                    (remoteEnv (fun _ => Some serverErrorResponse)) (lit "prisma")
                    (emptyWorld 1700000000000) serverErrorResponse
                    eq_refl eq_refl eq_refl))).
    + reflexivity.
    + vm_compute. discriminate.
Defined.

(* ===================================================================== *)
(** * resolvePath *)
(* ===================================================================== *)

Lemma splitSlash_nonempty s : splitSlash s <> [].
Proof.
  destruct s as [|c s]; [done|]. cbn [splitSlash].
  destruct (N.eqb c SLASH); [done|]. by destruct (splitSlash s).
Qed.

Lemma splitSlash_app x y :
  splitSlash (x ++ SLASH :: y) = splitSlash x ++ splitSlash y.
Proof.
  induction x as [|c x IH]; [done|].
  cbn [app splitSlash]. rewrite IH. destruct (N.eqb c SLASH); [done|].
  pose proof (splitSlash_nonempty x). by destruct (splitSlash x).
Qed.

Lemma components_app x y :
  components (x ++ SLASH :: y) = components x ++ components y.
Proof. unfold components. by rewrite splitSlash_app, filter_app. Qed.

Lemma splitSlash_slashFree s : forallb slashFree (splitSlash s) = true.
Proof.
  induction s as [|c s IH]; [done|]. cbn [splitSlash].
  destruct (N.eqb c SLASH) eqn:E; [done|].
  destruct (splitSlash s) as [|seg rest]; cbn [forallb slashFree] in *.
  - by rewrite E.
  - rewrite E. done.
Qed.

Lemma splitSlash_one seg : slashFree seg = true -> splitSlash seg = [seg].
Proof.
  induction seg as [|c seg IH]; [done|]. cbn [slashFree forallb].
  intros [Hc Hs]%andb_true_iff. cbn [splitSlash].
  apply negb_true_iff in Hc. rewrite Hc. by rewrite (IH Hs).
Qed.

Lemma splitSlash_joinSlash l :
  l <> [] -> forallb slashFree l = true -> splitSlash (joinSlash l) = l.
Proof.
  induction l as [|seg l IH]; [done|]. intros _.
  cbn [forallb]. intros [Hs Hl]%andb_true_iff.
  destruct l as [|seg' l'].
  - by apply splitSlash_one.
  - change (joinSlash (seg :: seg' :: l'))
      with (seg ++ SLASH :: joinSlash (seg' :: l')).
    rewrite splitSlash_app, (splitSlash_one _ Hs), IH; done.
Qed.

Lemma properName_slashFree seg : properName seg = true -> slashFree seg = true.
Proof. unfold properName. by intros [_ ?]%andb_true_iff. Qed.

Lemma properName_nonempty seg : properName seg = true -> seg <> [].
Proof. by destruct seg. Qed.

Lemma forallb_proper_slashFree l :
  forallb properName l = true -> forallb slashFree l = true.
Proof.
  rewrite !forallb_forall. intros H x Hx. by apply properName_slashFree, H.
Qed.

Lemma filter_proper l :
  forallb properName l = true -> filter (fun seg : jsstring => seg <> []) l = l.
Proof.
  induction l as [|seg l IH]; [done|]. cbn [forallb].
  intros [Hs Hl]%andb_true_iff. rewrite filter_cons.
  destruct (decide (seg <> [])) as [|Hn].
  - by rewrite (IH Hl).
  - by apply properName_nonempty in Hs.
Qed.

(** The names of an absolute normalized path are the names it was joined
    from. *)
Lemma components_joinSlash l :
  forallb properName l = true -> components (SLASH :: joinSlash l) = l.
Proof.
  intros H. unfold components. cbn [splitSlash N.eqb SLASH Pos.eqb].
  rewrite filter_cons. destruct (decide (@nil N <> [])) as [|_]; [done|].
  destruct l as [|seg l]; [done|].
  rewrite splitSlash_joinSlash; [by apply filter_proper|done|].
  by apply forallb_proper_slashFree.
Qed.

(** Without leave to go above the root, [normalizeString] keeps proper
    names only. *)
Lemma normSegs_proper stack segs :
  forallb properName stack = true -> forallb slashFree segs = true ->
  forallb properName (normSegs false stack segs) = true.
Proof.
  revert stack; induction segs as [|seg rest IH]; intros stack Hst Hs.
  - cbn [normSegs]. rewrite forallb_forall in *. intros x Hx.
    apply Hst. by apply in_rev.
  - cbn [forallb] in Hs. apply andb_true_iff in Hs as [Hseg Hrest].
    cbn [normSegs].
    destruct (streq seg [] || streq seg (lit ".")) eqn:E1; [by apply IH|].
    destruct (streq seg (lit "..")) eqn:E2.
    + destruct stack as [|top stack']; [by apply IH|].
      cbn [forallb] in Hst. apply andb_true_iff in Hst as [Htop Hst'].
      destruct (streq top (lit "..")).
      * apply IH; [|done]. cbn [forallb]. by rewrite Htop.
      * by apply IH.
    + apply IH; [|done]. cbn [forallb]. rewrite Hst, andb_true_r.
      apply orb_false_iff in E1 as [E0 E1]. unfold properName.
      by rewrite E0, E1, E2, Hseg.
Qed.

Lemma isAbsolute_cons path : isAbsolute path = true -> exists t, path = SLASH :: t.
Proof.
  destruct path as [|c t]; [done|]. unfold isAbsolute, sep.
  rewrite startsWith_cons. intros [H _]%andb_true_iff.
  apply N.eqb_eq in H. subst. by exists t.
Qed.

Lemma resolveLoop_absolute rargs processCwd acc :
  isAbsolute processCwd = true -> snd (resolveLoop rargs processCwd acc) = true.
Proof.
  intros H. revert acc; induction rargs as [|path rest IH]; intros acc.
  - cbn [resolveLoop]. destruct (isAbsolute_cons _ H) as [t ->]. by rewrite H.
  - cbn [resolveLoop]. destruct path as [|c p]; [apply IH|].
    destruct (isAbsolute (c :: p)); [done|apply IH].
Qed.

(** With an absolute process directory, [resolve] returns a slash followed
    by proper names joined with slashes. *)
Lemma resolve_normalized processCwd args :
  isAbsolute processCwd = true ->
  exists names, resolve processCwd args = SLASH :: joinSlash names /\
                forallb properName names = true.
Proof.
  intros H. unfold resolve.
  pose proof (resolveLoop_absolute (rev args) processCwd [] H) as Ha.
  destruct (resolveLoop (rev args) processCwd []) as [rp abs].
  cbn [snd] in Ha. subst abs. cbn [negb]. unfold normalizeString.
  eexists. split; [done|]. apply normSegs_proper; [done|].
  apply splitSlash_slashFree.
Qed.

Lemma isAbsolute_resolve processCwd args :
  isAbsolute processCwd = true -> isAbsolute (resolve processCwd args) = true.
Proof.
  intros H. destruct (resolve_normalized processCwd args H) as (names & -> & _).
  done.
Qed.

Lemma inside_refl base : inside base base.
Proof. unfold inside. by exists []; rewrite app_nil_r. Qed.

Lemma inside_below base rest : inside base (base ++ sep ++ rest).
Proof.
  unfold inside, sep. cbn [app]. rewrite components_app. by apply prefix_app_r.
Qed.

(** The guard of [resolvePath] lets through only paths inside the base. *)
Lemma guard_inside base resolved :
  negb (startsWith resolved (base ++ sep)) && negb (streq resolved base) = false ->
  inside base resolved.
Proof.
  intros [H|H]%andb_false_iff; apply negb_false_iff in H.
  - apply startsWith_split in H. rewrite H, <- app_assoc. apply inside_below.
  - apply streq_eq in H. subst. apply inside_refl.
Qed.

(** C7: with an absolute process directory, [resolvePath] either returns
    the resolved path itself, which is absolute, made of proper names only
    (no [.] or [..] left) and inside the working directory, or throws the
    path-escape error; whenever the resolved path is not inside the working
    directory it throws. *)
Theorem resolvePath_stays_inside processCwd relativePath cwd :
  isAbsolute processCwd = true ->
  let baseDir := resolve processCwd [default processCwd cwd] in
  let resolved := resolve processCwd [baseDir; relativePath] in
  match Fs.resolvePath processCwd relativePath cwd with
  | inr p =>
      p = resolved /\ isAbsolute p = true /\ inside baseDir p /\
      forallb properName (components p) = true
  | inl e => e = Error (Fs.escapeMessage relativePath)
  end /\
  (~ inside baseDir resolved ->
   Fs.resolvePath processCwd relativePath cwd
   = inl (Error (Fs.escapeMessage relativePath))).
Proof.
  intros Habs. cbn zeta. unfold Fs.resolvePath.
  set (baseDir := resolve processCwd [default processCwd cwd]).
  set (resolved := resolve processCwd [baseDir; relativePath]).
  destruct (negb (startsWith resolved (baseDir ++ sep))
            && negb (streq resolved baseDir)) eqn:G.
  - done.
  - pose proof (guard_inside _ _ G) as Hin. split; [|done].
    split; [done|]. split; [by apply isAbsolute_resolve|]. split; [done|].
    destruct (resolve_normalized processCwd [baseDir; relativePath] Habs)
      as (names & E & Hn).
    fold resolved in E. rewrite E. by rewrite components_joinSlash.
Qed.

Lemma resolvePath_stays_inside_witness :
  Fs.resolvePath (lit "/w") (lit "../../etc/passwd")
    (Some (lit "/home/user/project"))
  = inl (Error (Fs.escapeMessage (lit "../../etc/passwd")))
  /\
  (exists p,
     Fs.resolvePath (lit "/w") (lit ".cursor/rules/../rules/x.mdc")
       (Some (lit "/home/user/project")) = inr p /\
     p = lit "/home/user/project/.cursor/rules/x.mdc" /\
     inside (lit "/home/user/project") p).
Proof.
  split.
  - apply (proj2 (resolvePath_stays_inside (lit "/w") (lit "../../etc/passwd")
                    (Some (lit "/home/user/project")) eq_refl)).
    intros [k Hk]. vm_compute in Hk. discriminate.
  - pose proof (proj1 (resolvePath_stays_inside (lit "/w")
                         (lit ".cursor/rules/../rules/x.mdc")
                         (Some (lit "/home/user/project")) eq_refl)) as H.
    destruct (Fs.resolvePath (lit "/w") (lit ".cursor/rules/../rules/x.mdc")
                (Some (lit "/home/user/project"))) as [e|p] eqn:E.
    + vm_compute in E. discriminate.
    + exists p. destruct H as (_ & _ & Hin & _). split; [reflexivity|].
      vm_compute in E. injection E as <-. split; [reflexivity|exact Hin].
Defined.

(* ===================================================================== *)
(** * Further properties of the section transformer *)
(* ===================================================================== *)

Lemma sectionEnd_ends s slug j :
  occ s (sectionEnd slug) j = true ->
  take (length (sectionEnd slug)) (drop j s) = sectionEnd slug.
Proof. apply occ_take. Qed.

(** X1: the section [extractSection] returns lies in the file from the
    first start marker to the end of the first end marker: it begins with
    the start marker, ends with the end marker, and the file is the text
    before the first start marker, the section, and the rest. *)
Theorem extractSection_shape F slug sec :
  extractSection F slug = Some sec ->
  exists before inner after,
    F = before ++ sec ++ after /\
    indexOf F (sectionStart slug) = Z.of_nat (length before) /\
    indexOf F (sectionEnd slug)
    = Z.of_nat (length before + length sec - length (sectionEnd slug)) /\
    startsWith sec (sectionStart slug) = true /\
    sec = inner ++ sectionEnd slug.
Proof.
  intros E. destruct (extractSection_layout _ _ _ E) as (before & after & L).
  destruct L as [EF Hs He St Hl Hf].
  pose proof He as [Oe _]%search_Some.
  marker_lengths slug.
  exists before, (take (length sec - length (sectionEnd slug)) sec), after.
  split; [done|]. unfold indexOf. rewrite Hs, He. repeat split; try done.
  rewrite <- (take_drop (length sec - length (sectionEnd slug)) sec) at 1.
  f_equal. apply occ_take in Oe. rewrite EF in Oe.
  rewrite drop_app_ge in Oe by lia.
  replace (length before + length sec - length (sectionEnd slug) - length before)%nat
    with (length sec - length (sectionEnd slug))%nat in Oe by lia.
  rewrite drop_app_le in Oe by lia.
  rewrite take_app_le in Oe by (rewrite length_drop; lia).
  rewrite take_ge in Oe by (rewrite length_drop; lia). done.
Qed.

Lemma extractSection_shape_witness :
  let F := lit "# Rules" ++ [LF; LF] ++ wrapInSection (lit "OLD") (lit "x")
           ++ [LF] ++ lit "tail" in
  exists before inner after,
    F = before ++ wrapInSection (lit "OLD") (lit "x") ++ after /\
    indexOf F (sectionStart (lit "x")) = Z.of_nat (length before) /\
    wrapInSection (lit "OLD") (lit "x") = inner ++ sectionEnd (lit "x").
Proof.
  intros F.
  destruct (extractSection_shape F (lit "x") (wrapInSection (lit "OLD") (lit "x")))
    as (before & inner & after & H1 & H2 & _ & _ & H5).
  - vm_compute. reflexivity.
  - exists before, inner, after. split; [exact H1|]. split; [exact H2|exact H5].
Defined.

(** X2: for a slug without line feed, a wrapped content is found again as
    a whole by [extractSection] exactly when the content does not hold the
    end marker. *)
Theorem wrapInSection_extractSection body slug :
  lineFree slug = true ->
  extractSection (wrapInSection body slug) slug = Some (wrapInSection body slug)
  <-> includes body (sectionEnd slug) = false.
Proof.
  intros Hl. split; [|by apply wrapInSection_whole].
  intros HS. destruct (includes body (sectionEnd slug)) eqn:I; [|done]. exfalso.
  apply includes_occ in I as [j O].
  destruct (whole_section _ _ HS) as (_ & He & _).
  apply search_Some in He as [_ Hmin].
  pose proof (occ_bound _ _ _ O (sectionEnd_nonempty slug)) as Hb.
  specialize (Hmin (length (sectionStart slug ++ [LF]) + j)%nat).
  unfold wrapInSection in Hmin.
  rewrite (app_assoc (sectionStart slug) [LF]) in Hmin.
  rewrite occ_app_r, occ_app_l, O in Hmin by done.
  rewrite !length_app in Hmin. cbn [length] in Hmin.
  assert (true = false) as Habs by (apply Hmin; lia). discriminate Habs.
Qed.

Lemma wrapInSection_extractSection_witness :
  extractSection (wrapInSection (lit "Use pnpm.") (lit "prisma")) (lit "prisma")
  = Some (wrapInSection (lit "Use pnpm.") (lit "prisma")).
Proof.
  apply (wrapInSection_extractSection (lit "Use pnpm.") (lit "prisma"));
    vm_compute; reflexivity.
Defined.

Lemma roundtrip_any_path F slug S :
  extractSection S slug = Some S ->
  hasSection F slug && plainReplacement S
  || markerFree F slug && lineFree slug = true ->
  extractSection (upsertSection F slug S) slug = Some S.
Proof.
  intros HS [[H1 H2]%andb_true_iff|[H1 H2]%andb_true_iff]%orb_true_iff.
  - by apply roundtrip_replace_path.
  - by apply roundtrip_append_path.
Qed.

(** X3: upserting the same section a second time changes nothing, for a
    section text that is exactly one section and holds no replacement
    pattern, on a file that has a section of the slug or (for a slug
    without line feed) neither of its markers. *)
Theorem upsertSection_idempotent F slug S :
  extractSection S slug = Some S -> plainReplacement S = true ->
  hasSection F slug || markerFree F slug && lineFree slug = true ->
  upsertSection (upsertSection F slug S) slug S = upsertSection F slug S.
Proof.
  intros HS Hp H.
  assert (extractSection (upsertSection F slug S) slug = Some S) as E.
  { apply roundtrip_any_path; [done|]. rewrite Hp, andb_true_r. done. }
  destruct (upsertSection_in_place _ _ _ S E Hp) as (before & after & EF & ->).
  done.
Qed.

Lemma upsertSection_idempotent_witness :
  let S := wrapInSection (lit "NEW") (lit "x") in
  let F := lit "# Rules" ++ [LF; LF] ++ wrapInSection (lit "OLD") (lit "x") in
  upsertSection (upsertSection F (lit "x") S) (lit "x") S
  = upsertSection F (lit "x") S.
Proof.
  apply (upsertSection_idempotent _ (lit "x")); vm_compute; reflexivity.
Defined.

Lemma nonwhite_not_LF c : isWhiteSpace c = false -> c <> LF.
Proof. by intros H ->. Qed.

Lemma trimStart_app_white a s : allWhite a = true -> trimStart (a ++ s) = trimStart s.
Proof.
  induction a as [|c a IH]; [done|]. cbn [allWhite forallb app trimStart].
  intros [-> H]%andb_true_iff. by apply IH.
Qed.

Lemma allWhite_rev b : allWhite b = true -> allWhite (rev b) = true.
Proof.
  unfold allWhite. rewrite !forallb_forall. intros H x Hx. apply H. by apply in_rev.
Qed.

Lemma trimEnd_app_white s b : allWhite b = true -> trimEnd (s ++ b) = trimEnd s.
Proof.
  intros H. unfold trimEnd. rewrite rev_app_distr.
  by rewrite trimStart_app_white by by apply allWhite_rev.
Qed.

Lemma trimEnd_id t d : isWhiteSpace d = false -> trimEnd (t ++ [d]) = t ++ [d].
Proof.
  intros H. unfold trimEnd. rewrite rev_app_distr. cbn [rev app trimStart].
  rewrite H. change (d :: rev t) with ([d] ++ rev t).
  by rewrite rev_app_distr, rev_involutive.
Qed.

Lemma collapseFrom_last n a d :
  d <> LF -> exists y, collapseFrom n (a ++ [d]) = y ++ [d].
Proof.
  intros Hd. revert n; induction a as [|c a IH]; intros n.
  - cbn [app]. rewrite collapseFrom_other by done. exists (flushLF n). done.
  - cbn [app]. destruct (decide (c = LF)) as [->|Hc].
    + rewrite collapseFrom_LF. apply IH.
    + rewrite collapseFrom_other by done. destruct (IH 0%nat) as [y ->].
      exists (flushLF n ++ c :: y). by rewrite <- app_assoc.
Qed.

(** A trimmed, non-empty text followed by a blank line collapses and trims
    to its own collapse. *)
Lemma trim_collapse_tail F :
  trim F <> [] ->
  trim (collapseNewlines (trim F ++ [LF; LF])) = collapseNewlines (trim F).
Proof.
  intros Hne. destruct (trim_ends F) as [Hhead Hlast].
  destruct (trim F) as [|c t] eqn:ET; [done|].
  specialize (Hhead c t eq_refl).
  assert (exists t' d, c :: t = t' ++ [d] /\ isWhiteSpace d = false) as (t' & d & Et & Hd).
  { destruct (exists_last (l := c :: t)) as (t' & d & Et); [done|].
    exists t', d. split; [done|]. by apply (Hlast d t'). }
  unfold collapseNewlines.
  assert (collapseFrom 0 ((c :: t) ++ [LF; LF]) = collapseFrom 0 (c :: t) ++ [LF; LF]) as ->.
  { rewrite Et, <- app_assoc. cbn [app].
    rewrite collapseFrom_cut by by apply nonwhite_not_LF.
    rewrite (collapseFrom_cut 0 t' d []) by by apply nonwhite_not_LF.
    cbn [collapseFrom flushLF Nat.leb repeat N.eqb LF Pos.eqb]. by rewrite app_nil_r. }
  destruct (collapseFrom_last 0 t' d (nonwhite_not_LF _ Hd)) as [y Ey].
  rewrite <- Et in Ey.
  assert (exists x, collapseFrom 0 (c :: t) = c :: x) as [x Ex].
  { rewrite collapseFrom_other by by apply nonwhite_not_LF. by eexists. }
  unfold trim. rewrite Ex. cbn [app trimStart]. rewrite Hhead.
  change (c :: x ++ [LF; LF]) with ((c :: x) ++ [LF; LF]).
  rewrite trimEnd_app_white by done. rewrite <- Ex, Ey. by apply trimEnd_id.
Qed.

(** Removing a whole section placed after a text that lets no marker begin
    inside it leaves the text around it, collapsed and trimmed. *)
Lemma removeSection_embedded before S after slug :
  (forall j, (j < length before)%nat ->
             occ (before ++ S ++ after) (sectionStart slug) j = false) ->
  (forall j, (j < length before)%nat ->
             occ (before ++ S ++ after) (sectionEnd slug) j = false) ->
  extractSection S slug = Some S ->
  removeSection (before ++ S ++ after) slug
  = trim (collapseNewlines (before ++ after)).
Proof.
  intros Hs He HS. pose proof (extract_embedded _ _ _ _ Hs He HS) as E.
  destruct (extractSection_layout _ _ _ E) as (b' & a' & L).
  pose proof (whole_section _ _ HS) as ([St _]%search_Some & _ & _).
  assert (search (before ++ S ++ after) (sectionStart slug) = Some (length before)) as F1.
  { apply search_first; [|done]. rewrite occ_app_r' by lia.
    rewrite Nat.sub_diag, occ_0. apply startsWith_app_l. by rewrite <- occ_0. }
  pose proof (sa_start_first _ _ _ _ _ L) as F2. rewrite F1 in F2.
  injection F2 as F2.
  pose proof (sa_file _ _ _ _ _ L) as EF.
  apply app_inj_1 in EF as [-> EF]; [|done].
  apply app_inv_head in EF as ->.
  by apply (removeSection_some _ _ S).
Qed.

Lemma remove_after_upsert F slug S :
  markerFree F slug = true -> lineFree slug = true ->
  extractSection S slug = Some S ->
  removeSection (upsertSection F slug S) slug = collapseNewlines (trim F).
Proof.
  intros HF Hl HS. rewrite upsertSection_append by by apply markerFree_no_section.
  destruct (trim F) as [|c t] eqn:ET.
  - rewrite <- (app_nil_r S), <- (app_nil_l (S ++ [])).
    rewrite removeSection_embedded; [done| | |done]; cbn [length]; intros; lia.
  - rewrite <- ET.
    apply andb_true_iff in HF as [H1%negb_true_iff H2%negb_true_iff].
    rewrite includes_false in H1, H2.
    destruct (lineFree_markers _ Hl) as [L1 L2].
    replace (trim F ++ [LF; LF] ++ S) with ((trim F ++ [LF; LF]) ++ S ++ [])
      by (by rewrite app_nil_r, <- app_assoc).
    rewrite removeSection_embedded; [| | |done].
    + rewrite app_nil_r. apply trim_collapse_tail. by rewrite ET.
    + intros j Hj. apply append_keeps_front; try done. by apply no_occ_trim.
    + intros j Hj. apply append_keeps_front; try done. by apply no_occ_trim.
Qed.

(** X4: adding a section to a file that holds neither marker of the slug
    and removing it again gives the trimmed file with its runs of three or
    more line feeds collapsed (for a slug without line feed and a section
    text that is exactly one section); a file without white space at its
    ends and without such a run comes back unchanged. *)
Theorem removeSection_after_upsertSection F slug S :
  markerFree F slug = true -> lineFree slug = true ->
  extractSection S slug = Some S ->
  removeSection (upsertSection F slug S) slug = collapseNewlines (trim F) /\
  (trim F = F -> includes F [LF; LF; LF] = false ->
   removeSection (upsertSection F slug S) slug = F).
Proof.
  intros HF Hl HS. rewrite remove_after_upsert by done. split; [done|].
  intros -> Hn. by apply collapseNewlines_no_triple.
Qed.

Lemma removeSection_after_upsertSection_witness :
  let F := [LF] ++ lit "# Rules" ++ [LF; LF; LF; LF] ++ lit "Be kind." ++ [LF] in
  removeSection (upsertSection F (lit "x") (wrapInSection (lit "NEW") (lit "x")))
    (lit "x")
  = lit "# Rules" ++ [LF; LF] ++ lit "Be kind.".
Proof.
  intros F.
  destruct (removeSection_after_upsertSection F (lit "x")
              (wrapInSection (lit "NEW") (lit "x")) eq_refl eq_refl eq_refl)
    as [H _].
  rewrite H. vm_compute. reflexivity.
Defined.

(** ** Sections of other slugs *)

Lemma search_app_stable T X pat k :
  pat <> [] -> search T pat = Some k -> search (T ++ X) pat = Some k.
Proof.
  intros Hne [Ho Hm]%search_Some. pose proof (occ_bound _ _ _ Ho Hne) as B.
  apply search_first.
  - by rewrite occ_app_l.
  - intros j Hj. rewrite occ_app_l by lia. by apply Hm.
Qed.

(** Text added at the end of a file leaves the section found in it. *)
Lemma extractSection_app_stable T X slug sec :
  extractSection T slug = Some sec -> extractSection (T ++ X) slug = Some sec.
Proof.
  intros (si & ei & Hs & He & Hlt & ->)%extractSection_Some.
  pose proof He as [Oe _]%search_Some.
  apply occ_bound in Oe; [|done].
  apply extractSection_Some. exists si, ei.
  split; [by apply search_app_stable|]. split; [by apply search_app_stable|].
  split; [done|].
  rewrite drop_app_le by lia. rewrite take_app_le; [done|].
  rewrite length_drop. lia.
Qed.

Lemma allWhite_lookup a i c :
  allWhite a = true -> a !! i = Some c -> isWhiteSpace c = true.
Proof.
  unfold allWhite. rewrite forallb_forall. intros H E.
  by apply list_elem_of_lookup_2, list_elem_of_In, H in E.
Qed.

(** The markers begin with [<] and end with [>]. *)
Lemma marker_ends slug :
  sectionStart slug !! 0%nat = Some LT /\
  sectionStart slug !! (length (sectionStart slug) - 1)%nat = Some 62%N /\
  sectionEnd slug !! 0%nat = Some LT /\
  sectionEnd slug !! (length (sectionEnd slug) - 1)%nat = Some 62%N.
Proof.
  marker_lengths slug. split; [done|]. split; [|split; [done|]].
  - unfold sectionStart in *.
    assert (length (lit "<!-- agenthints:") = 16%nat) as L by done.
    rewrite lookup_app_r by (rewrite L; lia).
    rewrite lookup_app_r by (rewrite L; lia).
    by replace (_ - _ - _)%nat with 9%nat by (rewrite L; lia).
  - unfold sectionEnd in *.
    assert (length (lit "<!-- agenthints:") = 16%nat) as L by done.
    rewrite lookup_app_r by (rewrite L; lia).
    rewrite lookup_app_r by (rewrite L; lia).
    by replace (_ - _ - _)%nat with 7%nat by (rewrite L; lia).
Qed.

(** A text that begins and ends with characters that are no white space is
    found in the trimmed text where it is found in the text. *)
Lemma search_trimmed a T b pat c0 c1 k :
  allWhite a = true -> allWhite b = true ->
  pat !! 0%nat = Some c0 -> isWhiteSpace c0 = false ->
  pat !! (length pat - 1)%nat = Some c1 -> isWhiteSpace c1 = false ->
  search (a ++ T ++ b) pat = Some k ->
  (length a <= k)%nat /\ (k + length pat <= length a + length T)%nat /\
  search T pat = Some (k - length a)%nat.
Proof.
  intros Wa Wb P0 H0 P1 H1 [Ho Hm]%search_Some.
  assert (pat <> []) as Hne by (by destruct pat).
  assert (0 < length pat)%nat as Hlen by (destruct pat; [done|cbn [length]; lia]).
  pose proof (occ_bound _ _ _ Ho Hne) as B. rewrite !length_app in B.
  assert (length a <= k)%nat as K1.
  { destruct (decide (length a <= k)%nat); [done|]. exfalso.
    pose proof (occ_lookup _ _ _ 0 Ho Hlen) as E.
    rewrite Nat.add_0_r, lookup_app_l, P0 in E by lia.
    apply (allWhite_lookup _ _ _ Wa) in E. congruence. }
  assert (k + length pat <= length a + length T)%nat as K2.
  { destruct (decide (k + length pat <= length a + length T)%nat); [done|]. exfalso.
    pose proof (occ_lookup _ _ _ (length pat - 1) Ho ltac:(lia)) as E.
    rewrite P1, lookup_app_r, lookup_app_r in E by lia.
    apply (allWhite_lookup _ _ _ Wb) in E. congruence. }
  split; [done|]. split; [done|]. apply search_first.
  - rewrite occ_app_r' in Ho by done. by rewrite occ_app_l in Ho by lia.
  - intros j Hj. specialize (Hm (length a + j)%nat ltac:(lia)).
    rewrite occ_app_r in Hm.
    destruct (occ T pat j) eqn:E; [|done].
    pose proof (occ_bound _ _ _ E Hne). rewrite occ_app_l in Hm by done.
    congruence.
Qed.

(** [trim] cuts no section: the section found in a file is the section
    found in the trimmed file. *)
Lemma extractSection_trim F slug sec :
  extractSection F slug = Some sec -> extractSection (trim F) slug = Some sec.
Proof.
  intros (si & ei & Hs & He & Hlt & ->)%extractSection_Some.
  destruct (trim_split F) as (a & b & EF & Wa & Wb).
  destruct (marker_ends slug) as (S0 & S1 & E0 & E1).
  rewrite EF in Hs, He.
  destruct (search_trimmed _ _ _ _ _ _ _ Wa Wb S0 eq_refl S1 eq_refl Hs)
    as (A1 & A2 & A3).
  destruct (search_trimmed _ _ _ _ _ _ _ Wa Wb E0 eq_refl E1 eq_refl He)
    as (B1 & B2 & B3).
  apply extractSection_Some. exists (si - length a)%nat, (ei - length a)%nat.
  split; [done|]. split; [done|]. split; [lia|].
  rewrite EF at 1. rewrite drop_app_ge by done.
  rewrite drop_app_le by lia. rewrite take_app_le by (rewrite length_drop; lia).
  f_equal. lia.
Qed.

(** X5: appending a section for a slug that has none in the file leaves the
    section of every other slug as [extractSection] finds it. *)
Theorem upsertSection_keeps_other_section F slug other S sec :
  extractSection F other = Some sec ->
  extractSection F slug = None ->
  extractSection (upsertSection F slug S) other = Some sec.
Proof.
  intros Ho Hn. rewrite upsertSection_append by done.
  apply extractSection_trim in Ho.
  destruct (trim F) as [|c t] eqn:ET.
  - apply extractSection_Some in Ho as (si & ei & Hs & _).
    apply search_Some in Hs as [Hs _]. by rewrite occ_nil in Hs.
  - by apply extractSection_app_stable.
Qed.

Lemma upsertSection_keeps_other_section_witness :
  let F := wrapInSection (lit "Use prisma.") (lit "prisma") ++ [LF] in
  extractSection (upsertSection F (lit "zod") (wrapInSection (lit "Use zod.") (lit "zod")))
    (lit "prisma")
  = Some (wrapInSection (lit "Use prisma.") (lit "prisma")).
Proof.
  intros F.
  apply (upsertSection_keeps_other_section F (lit "zod") (lit "prisma"));
    vm_compute; reflexivity.
Defined.

(** X6: when the file has a section of the slug, [upsertSection] keeps the
    text before the first start marker and the text after the section and
    puts between them the substitution that [String.prototype.replace]
    computes from the new section text - the new section text itself when
    it holds no replacement pattern. *)
Theorem upsertSection_replaces_in_place F slug sec S :
  extractSection F slug = Some sec ->
  exists before after,
    F = before ++ sec ++ after /\
    indexOf F (sectionStart slug) = Z.of_nat (length before) /\
    upsertSection F slug S = before ++ getSubstitution sec before after S ++ after /\
    (plainReplacement S = true -> upsertSection F slug S = before ++ S ++ after).
Proof.
  intros E. destruct (extractSection_layout _ _ _ E) as (before & after & L).
  exists before, after. split; [apply L|]. split.
  { unfold indexOf. by rewrite (sa_start_first _ _ _ _ _ L). }
  rewrite (upsertSection_replace _ _ _ _ E), (replace_section _ _ _ _ _ _ L).
  split; [done|]. intros Hp. by rewrite getSubstitution_plain.
Qed.

Lemma upsertSection_replaces_in_place_witness :
  let old := wrapInSection (lit "OLD") (lit "x") in
  let F := lit "# Rules" ++ [LF; LF] ++ old ++ [LF] ++ lit "tail" in
  exists before after,
    F = before ++ old ++ after /\
    upsertSection F (lit "x") (wrapInSection (lit "costs $5") (lit "x"))
    = before ++ wrapInSection (lit "costs $5") (lit "x") ++ after.
Proof.
  intros old F.
  destruct (upsertSection_replaces_in_place F (lit "x") old
              (wrapInSection (lit "costs $5") (lit "x")))
    as (before & after & H1 & _ & _ & H4).
  - vm_compute. reflexivity.
  - exists before, after. split; [exact H1|]. apply H4. vm_compute. reflexivity.
Defined.

(* ===================================================================== *)
(** * Further properties of the cache store and the registry client *)
(* ===================================================================== *)

Lemma fetchedJson_run env w key url failed :
  (let! response := fetch env url in
   if negb (ok response) then throw (failed response)
   else
     let! parsed := json env response in
     let! _ := writeCache env key parsed None in
     ret parsed) w
  = fetchedJson env w key url failed.
Proof.
  unfold bind, fetch, throw, json, text, jsonParse, writeCache, mkdir, writeEntry,
    ret, bind, fetchedJson, afterRequest, afterDamage, afterCached.
  destruct (network env url) as [r|]; [|done].
  destruct (ok r); [|done]. cbn [negb].
  destruct (body r) as [t|]; [|done].
  destruct (parseJSON env t) as [v|]; [|done]. cbn [disk clock requests].
  destruct (mkdirFails env _); [done|].
  destruct (writeFails env _) as [[|]|]; done.
Qed.

(** X8: in remote mode [fetchRegistryIndex] serves the cached index,
    without a request, exactly as long as the entry is younger than five
    minutes; otherwise it requests [/index.json] once and goes through the
    steps of [fetchedJson]: a status that is not 2xx throws
    [Failed to fetch registry index: <status text>], a body that cannot be
    read or does not parse throws, a cache file that cannot be written
    throws after the answer was parsed, and only then is the parsed answer
    cached without hash and returned. *)
Theorem fetchRegistryIndex_cache_gate env w :
  truthy (LOCAL_REGISTRY env) = false ->
  let cached := disk w !! getCachePath env (lit "index") in
  fetchRegistryIndex env w
  = match cached with
    | Some c =>
        if clock w - timestamp c <? 5 * 60 * 1000 then (inr (data c), w)
        else fetchedJson env w (lit "index") (indexUrl env)
               (fun r => Error (lit "Failed to fetch registry index: "
                                ++ statusText r))
    | None => fetchedJson env w (lit "index") (indexUrl env)
                (fun r => Error (lit "Failed to fetch registry index: "
                                 ++ statusText r))
    end.
Proof.
  intros Hremote. cbn zeta. unfold fetchRegistryIndex. rewrite Hremote.
  fold (indexUrl env). cbn zeta.
  pose proof (fetchedJson_run env w (lit "index") (indexUrl env)
                (fun r => Error (indexFailedMessage (statusText r)))) as Hrun.
  unfold bind at 1. unfold readCache, isExpired, ret.
  assert (forall c, negb (clock w - timestamp c >=? INDEX_TTL_MS)
                    = (clock w - timestamp c <? 5 * 60 * 1000)) as Hc.
  { intros c. unfold INDEX_TTL_MS. rewrite Z.geb_leb.
    destruct (Z.ltb_spec (clock w - timestamp c) (5 * 60 * 1000)),
      (Z.leb_spec (5 * 60 * 1000) (clock w - timestamp c)); simpl; lia. }
  destruct (disk w !! getCachePath env (lit "index")) as [c|] eqn:Ec.
  - unfold bind at 1. rewrite Hc.
    destruct (clock w - timestamp c <? 5 * 60 * 1000); [done|]. exact Hrun.
  - exact Hrun.
Qed.

Lemma fetchRegistryIndex_cache_gate_witness :
  let env := remoteEnv (fun _ => Some serverErrorResponse) in
  let c := {| data := JNull; timestamp := 1700000000000; sha256 := None |} in
  let w4 := oneEntry env (lit "index") c (1700000000000 + 4 * 60000) in
  let w5 := oneEntry env (lit "index") c (1700000000000 + 5 * 60000) in
  fetchRegistryIndex env w4 = (inr JNull, w4) /\
  fetchRegistryIndex env w5
  = (inl (Error (lit "Failed to fetch registry index: Internal Server Error")),
     afterRequest env w5 (lit "https://agenthints.tech/registry/index.json")).
Proof.
  intros env c w4 w5. split.
  - exact (fetchRegistryIndex_cache_gate env w4 eq_refl).
  - exact (fetchRegistryIndex_cache_gate env w5 eq_refl).
Defined.

Lemma streq_refl a : streq a a = true.
Proof. by apply streq_eq. Qed.

Lemma sameHash_stored sha :
  negb (truthy sha) || sameHash (if truthy sha then sha else None) sha = true.
Proof.
  destruct sha as [[|c s]|]; [done| |done]. cbn [truthy negb orb sameHash].
  apply streq_refl.
Qed.

Lemma cacheWritable_spec env key :
  cacheWritable env key = true ->
  mkdirFails env (dirname (getCachePath env key)) = false /\
  writeFails env (getCachePath env key) = None.
Proof.
  unfold cacheWritable. intros [H1 H2]%andb_true_iff.
  apply negb_true_iff in H1. by destruct (writeFails env _).
Qed.

(** X9: after [fetchHintContent] has fetched a hint (2xx answer, readable
    body) and could write its cache file, every call for the same hint
    with the same [expectedSha256], made while the cache file is there and
    less than 24 hours have passed since the answer, is served from the
    cache: it returns the same content and makes no request. *)
Theorem fetchHintContent_second_call env hintPath hintFile expectedSha256 w r t w2 :
  truthy (LOCAL_REGISTRY env) = false ->
  usable (disk w !! getCachePath env (contentKey hintPath)) (clock w) expectedSha256
  = false ->
  network env (contentUrl env hintPath hintFile) = Some r ->
  ok r = true ->
  body r = Some t ->
  cacheWritable env (contentKey hintPath) = true ->
  let first := fetchHintContent env hintPath hintFile expectedSha256 w in
  disk w2 !! getCachePath env (contentKey hintPath)
  = disk (snd first) !! getCachePath env (contentKey hintPath) ->
  clock w2 - clock (snd first) < HINT_TTL_MS ->
  fst first = inr (JString t) /\
  fetchHintContent env hintPath hintFile expectedSha256 w2
  = (inr (JString t), w2).
Proof.
  intros Hremote Hmiss Hnet Hok Hbody [Hmk Hwr]%cacheWritable_spec. cbn zeta.
  rewrite !fetchHintContent_remote by done. cbn zeta.
  rewrite Hmiss, Hnet, Hok, Hbody, Hmk, Hwr. cbn [fst snd afterFetch disk clock].
  rewrite lookup_insert_eq. intros -> Hclock. split; [done|].
  unfold usable. cbn [timestamp sha256 data].
  assert ((clock w2 - (clock w + elapsed env (contentUrl env hintPath hintFile))
           >=? HINT_TTL_MS) = false) as ->.
  { rewrite Z.geb_leb. apply Z.leb_gt. lia. }
  cbn [negb andb]. by rewrite sameHash_stored.
Qed.

Lemma fetchHintContent_second_call_witness :
  let env := remoteEnv (fun _ => Some (okResponse (lit "# Prisma"))) in
  let w := emptyWorld 1700000000000 in
  let first := fetchHintContent env (lit "prisma") (lit "./hint.md")
                 (Some (lit "abc123")) w in
  let later := {| disk := disk (snd first);
                  clock := 1700000000000 + 3600000;
                  requests := requests (snd first) |} in
  fetchHintContent env (lit "prisma") (lit "./hint.md") (Some (lit "abc123")) later
  = (inr (JString (lit "# Prisma")), later).
Proof.
  intros env w first later.
  apply (fetchHintContent_second_call env (lit "prisma") (lit "./hint.md")
           (Some (lit "abc123")) w (okResponse (lit "# Prisma")) (lit "# Prisma")
           later);
    try reflexivity.
Defined.

(** X10: with a local registry configured, the three fetch functions read
    the registry's files and nothing else: they make no request and leave
    every cache file as it is, whatever the cache holds; the index is the
    parsed [index.json] of the registry directory, the metadata the parsed
    [hints/<slug>/meta.json], the content the text of the hint's file, and
    each throws when its file cannot be read (or does not parse). *)
Theorem local_registry_bypasses_cache env hintPath hintFile expectedSha256 w :
  truthy (LOCAL_REGISTRY env) = true ->
  let registry := default [] (LOCAL_REGISTRY env) in
  let file := resolve (processCwd env)
                [registry;
                 lit "hints/" ++ hintPath ++ SLASH :: replace hintFile (lit "./") []] in
  fetchRegistryIndex env w
  = (localJson env (resolve (processCwd env) [registry; lit "index.json"]), w) /\
  fetchHintMetadata env hintPath w
  = (localJson env (resolve (processCwd env)
                      [registry; lit "hints/" ++ hintPath ++ lit "/meta.json"]), w) /\
  fetchHintContent env hintPath hintFile expectedSha256 w
  = (match files env file with
     | Some content => inr (JString content)
     | None => inl (FsError file)
     end, w).
Proof.
  intros Hlocal. cbn zeta.
  unfold fetchRegistryIndex, fetchHintMetadata, fetchHintContent.
  rewrite Hlocal. cbn zeta.
  unfold bind, Registry.readFile, jsonParse, ret, localJson.
  repeat split.
  - destruct (files env _); [|done]. by destruct (parseJSON env _).
  - destruct (files env _); [|done]. by destruct (parseJSON env _).
  - by destruct (files env _).
Qed.

Lemma local_registry_bypasses_cache_witness :
  let env := localEnv "./registry"
               (fun p => if streq p (lit "/home/user/project/registry/hints/prisma/hint.md")
                         then Some (lit "# Prisma") else None) in
  let w := emptyWorld 1700000000000 in
  fetchHintContent env (lit "prisma") (lit "./hint.md") (Some (lit "abc123")) w
  = (inr (JString (lit "# Prisma")), w) /\
  fetchRegistryIndex env w
  = (inl (FsError (lit "/home/user/project/registry/index.json")), w).
Proof.
  intros env w.
  destruct (local_registry_bypasses_cache env (lit "prisma") (lit "./hint.md")
              (Some (lit "abc123")) w eq_refl) as (H1 & _ & H3).
  split.
  - rewrite H3. vm_compute. reflexivity.
  - rewrite H1. vm_compute. reflexivity.
Defined.

(** X11: in remote mode [fetchHintMetadata] serves a cached entry younger
    than 24 hours without a request; otherwise it requests
    [hints/<slug>/meta.json] once and goes through the steps of
    [fetchedJson]: status 404 throws the not-found error, another status
    that is not 2xx throws [Failed to fetch hint metadata: <status text>],
    a body that cannot be read or does not parse throws, a cache file that
    cannot be written throws after the answer was parsed, and only then is
    the parsed answer cached without hash under [hints/<slug>/meta] and
    returned. *)
Theorem fetchHintMetadata_cache_gate env hintPath w :
  truthy (LOCAL_REGISTRY env) = false ->
  let cached := disk w !! getCachePath env (metaKey hintPath) in
  fetchHintMetadata env hintPath w
  = match cached with
    | Some c =>
        if clock w - timestamp c <? 24 * 60 * 60 * 1000 then (inr (data c), w)
        else fetchedJson env w (metaKey hintPath) (metaUrl env hintPath)
               (fun r => Error (if status r =? 404 then notFoundMessage hintPath
                                else lit "Failed to fetch hint metadata: "
                                     ++ statusText r))
    | None => fetchedJson env w (metaKey hintPath) (metaUrl env hintPath)
                (fun r => Error (if status r =? 404 then notFoundMessage hintPath
                                 else lit "Failed to fetch hint metadata: "
                                      ++ statusText r))
    end.
Proof.
  intros Hremote. cbn zeta. unfold fetchHintMetadata. rewrite Hremote.
  fold (metaKey hintPath). fold (metaUrl env hintPath). cbn zeta.
  pose proof (fetchedJson_run env w (metaKey hintPath) (metaUrl env hintPath)
                (fun r => Error (if status r =? 404 then notFoundMessage hintPath
                                 else metadataFailedMessage (statusText r))))
    as Hrun.
  assert (forall r : Response,
            (if status r =? 404
             then throw (A := Json) (Error (notFoundMessage hintPath))
             else throw (Error (metadataFailedMessage (statusText r))))
            = throw (Error (if status r =? 404 then notFoundMessage hintPath
                            else metadataFailedMessage (statusText r)))) as Hthrow.
  { intros r. by destruct (status r =? 404). }
  unfold bind at 1. unfold readCache, isExpired, ret.
  assert (forall c, negb (clock w - timestamp c >=? HINT_TTL_MS)
                    = (clock w - timestamp c <? 24 * 60 * 60 * 1000)) as Hc.
  { intros c. unfold HINT_TTL_MS. rewrite Z.geb_leb.
    destruct (Z.ltb_spec (clock w - timestamp c) (24 * 60 * 60 * 1000)),
      (Z.leb_spec (24 * 60 * 60 * 1000) (clock w - timestamp c)); simpl; lia. }
  assert ((let! response := fetch env (metaUrl env hintPath) in
           if negb (ok response) then
             if status response =? 404
             then throw (Error (notFoundMessage hintPath))
             else throw (Error (metadataFailedMessage (statusText response)))
           else
             let! metadata := json env response in
             let! _ := writeCache env (metaKey hintPath) metadata None in
             ret metadata) w
          = fetchedJson env w (metaKey hintPath) (metaUrl env hintPath)
              (fun r => Error (if status r =? 404 then notFoundMessage hintPath
                               else metadataFailedMessage (statusText r)))) as Hnet.
  { rewrite <- Hrun. unfold bind.
    destruct (fetch env (metaUrl env hintPath) w) as [[e|r] w']; [done|].
    by rewrite Hthrow. }
  destruct (disk w !! getCachePath env (metaKey hintPath)) as [c|] eqn:Ec.
  - unfold bind at 1. rewrite Hc.
    destruct (clock w - timestamp c <? 24 * 60 * 60 * 1000); [done|]. exact Hnet.
  - exact Hnet.
Qed.

Lemma fetchHintMetadata_cache_gate_witness :
  let env := remoteEnv (fun _ => Some (okResponse (lit "not json"))) in
  let w := emptyWorld 1700000000000 in
  fetchHintMetadata env (lit "prisma") w
  = (inl JsonSyntaxError,
     afterRequest env w
       (lit "https://agenthints.tech/registry/hints/prisma/meta.json")).
Proof.
  intros env w. exact (fetchHintMetadata_cache_gate env (lit "prisma") w eq_refl).
Defined.

(** ** Where cache entries are stored *)

Lemma joinSlash_cons seg l :
  l <> [] -> joinSlash (seg :: l) = seg ++ SLASH :: joinSlash l.
Proof. by destruct l. Qed.

Lemma joinSlash_splitSlash s : joinSlash (splitSlash s) = s.
Proof.
  induction s as [|c s IH]; [done|]. cbn [splitSlash].
  pose proof (splitSlash_nonempty s) as Hne.
  destruct (N.eqb c SLASH) eqn:E.
  - apply N.eqb_eq in E. subst. rewrite joinSlash_cons by done. by rewrite IH.
  - destruct (splitSlash s) as [|seg rest]; [done|].
    destruct rest; cbn [joinSlash app] in *; by rewrite IH.
Qed.

Lemma joinSlash_app l1 l2 :
  l1 <> [] -> l2 <> [] ->
  joinSlash (l1 ++ l2) = joinSlash l1 ++ SLASH :: joinSlash l2.
Proof.
  intros H1 H2. induction l1 as [|seg l1 IH]; [done|].
  destruct l1 as [|seg' l1'].
  - cbn [app]. by rewrite joinSlash_cons.
  - cbn [app] in *. rewrite joinSlash_cons by done.
    rewrite IH by done. rewrite (joinSlash_cons seg) by done.
    by rewrite <- app_assoc.
Qed.

Lemma joinSlash_snoc_app l x y :
  joinSlash (l ++ [x]) ++ y = joinSlash (l ++ [x ++ y]).
Proof.
  induction l as [|seg l IH]; [done|]. cbn [app].
  rewrite !joinSlash_cons by (by destruct l). by rewrite <- app_assoc, <- IH.
Qed.

Lemma normSegs_names stack segs :
  forallb (fun seg => streq seg [] || properName seg) segs = true ->
  normSegs false stack segs
  = rev stack ++ filter (fun seg : jsstring => seg <> []) segs.
Proof.
  revert stack; induction segs as [|seg rest IH]; intros stack H.
  - cbn [normSegs]. by rewrite app_nil_r.
  - cbn [forallb] in H. apply andb_true_iff in H as [Hs Hr].
    cbn [normSegs]. rewrite filter_cons.
    destruct seg as [|c seg'].
    + cbn [streq orb]. destruct (decide (@nil N <> [])); [done|]. by apply IH.
    + cbn [streq orb] in Hs. unfold properName in Hs.
      apply andb_true_iff in Hs as [Hs _].
      apply andb_true_iff in Hs as [Hs H2].
      apply andb_true_iff in Hs as [_ H1].
      apply negb_true_iff in H1, H2.
      change (streq (c :: seg') []) with false. rewrite H1, H2. cbn [orb].
      destruct (decide (c :: seg' <> [])) as [_|n]; [|exfalso; by apply n].
      rewrite IH by done. cbn [rev]. by rewrite <- app_assoc.
Qed.

Lemma forallb_proper_or_empty l :
  forallb properName l = true ->
  forallb (fun seg => streq seg [] || properName seg) l = true.
Proof.
  rewrite !forallb_forall. intros H x Hx. rewrite (H x Hx). apply orb_true_r.
Qed.

Lemma proper_joinSlash_last rest :
  rest <> [] -> forallb properName rest = true ->
  exists y c, joinSlash rest = y ++ [c] /\ c <> SLASH.
Proof.
  induction rest as [|seg rest IH]; [done|]. intros _.
  cbn [forallb]. intros [Hs Hr]%andb_true_iff.
  destruct rest as [|seg' rest'].
  - cbn [joinSlash]. pose proof (properName_slashFree _ Hs) as Hf.
    destruct (exists_last (l := seg)) as (y & c & ->); [by apply properName_nonempty|].
    exists y, c. split; [done|]. unfold slashFree in Hf.
    rewrite forallb_app in Hf. apply andb_true_iff in Hf as [_ Hf].
    cbn [forallb] in Hf. rewrite andb_true_r in Hf.
    by apply negb_true_iff, N.eqb_neq in Hf.
  - destruct IH as (y & c & E & Hc); [done|done|].
    rewrite joinSlash_cons by done. rewrite E.
    exists (seg ++ SLASH :: y), c. split; [|done].
    by rewrite <- app_assoc.
Qed.

Lemma endsWithSlash_snoc y c : endsWithSlash (y ++ [c]) = N.eqb c SLASH.
Proof. unfold endsWithSlash. by rewrite rev_app_distr. Qed.

(** [join] of a normalized directory and a relative path of proper names. *)
Lemma join_dir_names tn rest :
  forallb properName tn = true -> forallb properName rest = true -> rest <> [] ->
  join [SLASH :: joinSlash tn; joinSlash rest] = SLASH :: joinSlash (tn ++ rest).
Proof.
  intros Ht Hr Hne.
  destruct (proper_joinSlash_last rest Hne Hr) as (y & c & Ey & Hc).
  assert (joinSlash rest <> []) as Hb by (rewrite Ey; by destruct y).
  unfold join. rewrite !filter_cons, filter_nil.
  destruct (decide (SLASH :: joinSlash tn <> [])) as [_|n]; [|exfalso; by apply n].
  destruct (decide (joinSlash rest <> [])) as [_|n]; [|exfalso; by apply n].
  rewrite joinSlash_cons by done. cbn [joinSlash].
  set (p := (SLASH :: joinSlash tn) ++ SLASH :: joinSlash rest).
  assert (endsWithSlash p = false) as He.
  { unfold p. rewrite Ey.
    replace ((SLASH :: joinSlash tn) ++ SLASH :: y ++ [c])
      with (((SLASH :: joinSlash tn) ++ SLASH :: y) ++ [c])
      by (by rewrite <- app_assoc).
    rewrite endsWithSlash_snoc. by apply N.eqb_neq. }
  assert (normSegs false [] (splitSlash p) = tn ++ rest) as Hn.
  { unfold p. rewrite splitSlash_app.
    rewrite (splitSlash_joinSlash rest) by (done || by apply forallb_proper_slashFree).
    change (splitSlash (SLASH :: joinSlash tn)) with ([] :: splitSlash (joinSlash tn)).
    destruct tn as [|t0 tn'].
    - cbn [joinSlash splitSlash app]. rewrite normSegs_names.
      + cbn [rev app]. rewrite !filter_cons.
        destruct (decide (@nil N <> [])); [done|]. by apply filter_proper.
      + cbn [forallb streq orb andb]. by apply forallb_proper_or_empty.
    - rewrite (splitSlash_joinSlash (t0 :: tn'))
        by (done || by apply forallb_proper_slashFree).
      rewrite normSegs_names.
      + cbn [rev app]. rewrite filter_cons.
        destruct (decide (@nil N <> [])); [done|].
        apply filter_proper.
        change (forallb properName ((t0 :: tn') ++ rest) = true).
        rewrite forallb_app. by rewrite Ht, Hr.
      + change (forallb (fun seg => streq seg [] || properName seg)
                      ((t0 :: tn') ++ rest) = true).
        apply forallb_proper_or_empty. rewrite forallb_app. by rewrite Ht, Hr. }
  assert (normalize p
          = let q := joinSlash (normSegs false [] (splitSlash p)) in
            match q with
            | [] => sep
            | _ => SLASH :: (if endsWithSlash p then q ++ sep else q)
            end) as -> by reflexivity.
  cbn zeta.
  rewrite He, Hn.
  assert (joinSlash (tn ++ rest) <> []) as Hj.
  { destruct tn as [|t0 tn']; [done|].
    rewrite joinSlash_app by done.
    cbn [forallb] in Ht. apply andb_true_iff in Ht as [Ht _].
    apply properName_nonempty in Ht. destruct t0; [done|].
    destruct tn'; cbn; done. }
  by destruct (joinSlash (tn ++ rest)).
Qed.

Lemma normalDir_names dir :
  normalDir dir = true ->
  exists tn, dir = SLASH :: joinSlash tn /\ forallb properName tn = true.
Proof.
  destruct dir as [|c rest]; [done|]. cbn [normalDir].
  intros [Hc Hr]%andb_true_iff. apply N.eqb_eq in Hc. subst.
  destruct rest as [|d rest'].
  - by exists [].
  - exists (splitSlash (d :: rest')). by rewrite joinSlash_splitSlash.
Qed.

Lemma properName_ext seg :
  properName seg = true -> properName (seg ++ lit ".json") = true.
Proof.
  intros H. pose proof (properName_slashFree _ H) as Hf.
  assert (forall t : jsstring, (length t <= 2)%nat ->
                               streq (seg ++ lit ".json") t = false) as Hs.
  { intros t Ht. destruct (streq _ t) eqn:E; [|done].
    apply streq_eq in E. apply (f_equal length) in E.
    rewrite length_app in E. cbn [length lit] in E. simpl in E. lia. }
  unfold properName. rewrite !Hs by (cbn; lia). cbn [negb andb].
  unfold slashFree in *. by rewrite forallb_app, Hf.
Qed.

Lemma getCacheDir_names env tn :
  tmpdir env = SLASH :: joinSlash tn -> forallb properName tn = true ->
  getCacheDir env = SLASH :: joinSlash (tn ++ [lit "agenthints-cache"]).
Proof.
  intros E Ht. unfold getCacheDir. rewrite E.
  by apply (join_dir_names tn [lit "agenthints-cache"]).
Qed.

Lemma getCachePath_names env key :
  normalDir (tmpdir env) = true -> properKey key = true ->
  getCachePath env key = getCacheDir env ++ SLASH :: key ++ lit ".json".
Proof.
  intros (tn & Et & Ht)%normalDir_names Hk. unfold properKey in Hk.
  destruct (exists_last (splitSlash_nonempty key)) as (kn & kl & Ek).
  rewrite Ek, forallb_app in Hk. apply andb_true_iff in Hk as [Hkn Hkl].
  cbn [forallb] in Hkl. rewrite andb_true_r in Hkl.
  assert (key ++ lit ".json" = joinSlash (kn ++ [kl ++ lit ".json"])) as Ej.
  { rewrite <- joinSlash_snoc_app, <- Ek. by rewrite joinSlash_splitSlash. }
  unfold getCachePath. rewrite Ej, (getCacheDir_names env tn Et Ht).
  rewrite join_dir_names; try done.
  - cbn [app]. f_equal. apply joinSlash_app; by destruct tn, kn.
  - rewrite forallb_app, Ht. done.
  - rewrite forallb_app, Hkn. cbn [forallb]. by rewrite properName_ext.
  - by destruct kn.
Qed.

Lemma getCachePath_under env key :
  normalDir (tmpdir env) = true -> properKey key = true ->
  underDir (getCacheDir env) (getCachePath env key) = true.
Proof.
  intros Hd Hk. rewrite getCachePath_names by done. unfold underDir, sep.
  replace (getCacheDir env ++ SLASH :: key ++ lit ".json")
    with ((getCacheDir env ++ [SLASH]) ++ key ++ lit ".json")
    by (by rewrite <- app_assoc).
  by rewrite startsWith_app, orb_true_r.
Qed.

Lemma getCachePath_inj env key key' :
  normalDir (tmpdir env) = true -> properKey key = true -> properKey key' = true ->
  getCachePath env key = getCachePath env key' -> key = key'.
Proof.
  intros Hd Hk Hk'. rewrite !getCachePath_names by done.
  intros E. apply app_inv_head in E. injection E as E.
  by apply app_inv_tail in E.
Qed.

(** X12: with a normalized temporary directory, the cache file of a key
    made of proper names is [<cache dir>/<key>.json]: it lies below the
    cache directory, and two such keys with the same file are the same
    key. *)
Theorem getCachePath_proper env key key' :
  normalDir (tmpdir env) = true -> properKey key = true -> properKey key' = true ->
  getCachePath env key = getCacheDir env ++ SLASH :: key ++ lit ".json" /\
  underDir (getCacheDir env) (getCachePath env key) = true /\
  (getCachePath env key = getCachePath env key' -> key = key').
Proof.
  intros Hd Hk Hk'. split; [by apply getCachePath_names|].
  split; [by apply getCachePath_under|by apply getCachePath_inj].
Qed.

Lemma getCachePath_proper_witness :
  let env := remoteEnv (fun _ => None) in
  getCachePath env (lit "hints/next/app-router/meta")
  = getCacheDir env ++ SLASH :: lit "hints/next/app-router/meta" ++ lit ".json"
  /\ underDir (getCacheDir env) (getCachePath env (lit "hints/next/app-router/meta"))
     = true.
Proof.
  intros env.
  destruct (getCachePath_proper env (lit "hints/next/app-router/meta")
              (lit "index") eq_refl eq_refl eq_refl) as (H1 & H2 & _).
  split; [exact H1|exact H2].
Defined.

Lemma properKey_hint_keys slug :
  properKey slug = true ->
  properKey (contentKey slug) = true /\ properKey (metaKey slug) = true.
Proof.
  intros H. unfold properKey, contentKey, metaKey in *.
  change (lit "hints/") with (lit "hints" ++ [SLASH]).
  change (lit "/content") with (SLASH :: lit "content").
  change (lit "/meta") with (SLASH :: lit "meta").
  rewrite <- !app_assoc. cbn [app].
  rewrite !splitSlash_app, !forallb_app, H. done.
Qed.

(** X14: with a normalized temporary directory, the content and the
    metadata of hints whose slugs are made of proper names are cached in
    files of their own: two hints share no content file and no metadata
    file, and no content file is a metadata file. *)
Theorem hint_cache_files_distinct env slug slug' :
  normalDir (tmpdir env) = true -> properKey slug = true -> properKey slug' = true ->
  (getCachePath env (contentKey slug) = getCachePath env (contentKey slug') ->
   slug = slug') /\
  (getCachePath env (metaKey slug) = getCachePath env (metaKey slug') ->
   slug = slug') /\
  getCachePath env (contentKey slug) <> getCachePath env (metaKey slug').
Proof.
  intros Hd Hs Hs'.
  destruct (properKey_hint_keys _ Hs) as [C1 M1].
  destruct (properKey_hint_keys _ Hs') as [C2 M2].
  split; [|split].
  - intros E. apply (getCachePath_inj env _ _ Hd C1 C2) in E.
    unfold contentKey in E. apply app_inv_head in E. by apply app_inv_tail in E.
  - intros E. apply (getCachePath_inj env _ _ Hd M1 M2) in E.
    unfold metaKey in E. apply app_inv_head in E. by apply app_inv_tail in E.
  - intros E. apply (getCachePath_inj env _ _ Hd C1 M2) in E.
    unfold contentKey, metaKey in E. apply app_inv_head in E.
    apply (f_equal (@rev N)) in E. rewrite !rev_app_distr in E. done.
Qed.

Lemma hint_cache_files_distinct_witness :
  getCachePath (remoteEnv (fun _ => None)) (contentKey (lit "prisma"))
  <> getCachePath (remoteEnv (fun _ => None)) (metaKey (lit "prisma")).
Proof.
  exact (proj2 (proj2 (hint_cache_files_distinct (remoteEnv (fun _ => None))
                         (lit "prisma") (lit "prisma") eq_refl eq_refl eq_refl))).
Defined.

(* ===================================================================== *)
(** * The write steps of add and remove *)
(* ===================================================================== *)

Lemma existing_or_empty (read : option jsstring) :
  (if truthy read then default [] read else []) = default [] read.
Proof. by destruct read as [[|c t]|]. Qed.

Lemma quiet_faults fenv p :
  quiet fenv p = true ->
  readFault fenv p = None /\ writeFault fenv p = None /\
  mkdirFault fenv (dirname p) = None.
Proof.
  unfold quiet.
  by destruct (readFault fenv p), (writeFault fenv p), (mkdirFault fenv (dirname p)).
Qed.

(** [writeHintToFile] with its steps told apart: the read (append mode
    only), the directory, the write. *)
Lemma writeHintToFile_eq fenv absolutePath hintPath transformed fs :
  writeHintToFile fenv absolutePath hintPath transformed fs
  = match (if Transformer.appendMode transformed
           then readFault fenv absolutePath else None) with
    | Some message => ({| success := false; error := Some message |}, fs)
    | None =>
        match mkdirFault fenv (dirname absolutePath) with
        | Some message => ({| success := false; error := Some message |}, fs)
        | None =>
            match writeFault fenv absolutePath with
            | Some fault =>
                ({| success := false; error := Some (faultMessage fault) |},
                 match leftover fault with
                 | Some remains => <[absolutePath := remains]> fs
                 | None => fs
                 end)
            | None =>
                ({| success := true; error := None |},
                 <[absolutePath :=
                     if Transformer.appendMode transformed
                     then upsertSection (default [] (fs !! absolutePath)) hintPath
                            (content transformed)
                     else content transformed]> fs)
            end
        end
    end.
Proof.
  unfold writeHintToFile, writeFile, ensureDir, fsWriteFile, readFile, ioBind.
  destruct (Transformer.appendMode transformed).
  - destruct (readFault fenv absolutePath); [done|].
    rewrite existing_or_empty.
    destruct (mkdirFault fenv (dirname absolutePath)); [done|].
    by destruct (writeFault fenv absolutePath).
  - destruct (mkdirFault fenv (dirname absolutePath)); [done|].
    by destruct (writeFault fenv absolutePath).
Qed.

(** X15: [writeHintToFile] never throws; it reports the message of the
    first step that fails - the read of the target (append mode only),
    the creation of its directory, the write - and success with no error
    when none does.  A failed read or directory leaves every file as it
    was; a failed write leaves the target as it was or holding what the
    write left of it; success leaves the target holding the upserted text
    (append mode, from the existing file or the empty text) or the content
    (per-hint mode); and no other file ever changes. *)
Theorem writeHintToFile_outcome fenv absolutePath hintPath transformed fs :
  let result := (writeHintToFile fenv absolutePath hintPath transformed fs).1 in
  let fs' := (writeHintToFile fenv absolutePath hintPath transformed fs).2 in
  let written :=
    if Transformer.appendMode transformed
    then upsertSection (default [] (fs !! absolutePath)) hintPath (content transformed)
    else content transformed in
  let readFails :=
    if Transformer.appendMode transformed then readFault fenv absolutePath
    else None in
  (forall p, p <> absolutePath -> fs' !! p = fs !! p) /\
  match readFails, mkdirFault fenv (dirname absolutePath),
        writeFault fenv absolutePath with
  | Some message, _, _ =>
      result = {| success := false; error := Some message |} /\ fs' = fs
  | None, Some message, _ =>
      result = {| success := false; error := Some message |} /\ fs' = fs
  | None, None, Some fault =>
      result = {| success := false; error := Some (faultMessage fault) |} /\
      fs' = match leftover fault with
            | Some remains => <[absolutePath := remains]> fs
            | None => fs
            end
  | None, None, None =>
      result = {| success := true; error := None |} /\
      fs' = <[absolutePath := written]> fs
  end.
Proof.
  cbn zeta. rewrite writeHintToFile_eq.
  destruct (if Transformer.appendMode transformed
            then readFault fenv absolutePath else None) as [m|]; [done|].
  destruct (mkdirFault fenv (dirname absolutePath)) as [m|]; [done|].
  destruct (writeFault fenv absolutePath) as [[m [remains|]]|];
    cbn [fst snd leftover faultMessage]; (split; [|done]); intros p Hp;
    by rewrite ?lookup_insert_ne.
Qed.

Lemma writeHintToFile_outcome_witness :
  let t := transformForAgent (lit "Use pnpm.") (lit "prisma") claude (lit "CLAUDE.md") in
  let p := lit "/home/user/project/CLAUDE.md" in
  let fullDisk :=
    {| readFault := fun _ => None;
       writeFault := fun _ => Some {| faultMessage := lit "ENOSPC: no space left on device";
                                      leftover := Some [] |};
       mkdirFault := fun _ => None |} in
  writeHintToFile noFaults p (lit "prisma") t ∅
  = ({| success := true; error := None |},
     {[ p := wrapInSection (lit "Use pnpm.") (lit "prisma") ]})
  /\
  writeHintToFile fullDisk p (lit "prisma") t {[ p := lit "# Rules" ]}
  = ({| success := false; error := Some (lit "ENOSPC: no space left on device") |},
     {[ p := [] ]}).
Proof.
  intros t p fullDisk. split.
  - destruct (writeHintToFile_outcome noFaults p (lit "prisma") t ∅) as [_ [H1 H2]].
    rewrite (surjective_pairing (writeHintToFile noFaults p (lit "prisma") t ∅)).
    rewrite H1, H2. vm_compute. reflexivity.
  - destruct (writeHintToFile_outcome fullDisk p (lit "prisma") t
                {[ p := lit "# Rules" ]}) as [_ [H1 H2]].
    rewrite (surjective_pairing
               (writeHintToFile fullDisk p (lit "prisma") t {[ p := lit "# Rules" ]})).
    rewrite H1, H2. vm_compute. reflexivity.
Defined.

(** ** The commands stay inside the working directory *)

Lemma resolvePath_guard processCwd relativePath cwd absolutePath :
  Fs.resolvePath processCwd relativePath (Some cwd) = inr absolutePath ->
  absolutePath = resolve processCwd [resolve processCwd [cwd]; relativePath] /\
  inside (resolve processCwd [cwd]) absolutePath.
Proof.
  unfold Fs.resolvePath. change (default processCwd (Some cwd)) with cwd.
  set (baseDir := resolve processCwd [cwd]).
  set (resolved := resolve processCwd [baseDir; relativePath]).
  destruct (negb (startsWith resolved (baseDir ++ sep))
            && negb (streq resolved baseDir)) eqn:G; [done|].
  intros [= <-]. split; [done|]. by apply guard_inside.
Qed.

Lemma addStep_eq fenv processCwd cwd agent hintPath text fs absolutePath :
  Fs.resolvePath processCwd (resolveAgentPath agent hintPath) (Some cwd)
  = inr absolutePath ->
  quiet fenv absolutePath = true ->
  addStep fenv processCwd cwd agent hintPath text fs
  = (inr (Added (resolveAgentPath agent hintPath)),
     <[absolutePath :=
         if Agents.appendMode agent
         then upsertSection (default [] (fs !! absolutePath)) hintPath
                (wrapInSection (rendered text hintPath agent) hintPath)
         else rendered text hintPath agent]> fs).
Proof.
  intros E (R & W & D)%quiet_faults. unfold addStep. rewrite E, writeHintToFile_eq.
  cbn [Transformer.appendMode transformForAgent content]. rewrite R, W, D.
  destruct (Agents.appendMode agent); done.
Qed.

Lemma addStep_frame fenv processCwd cwd agent hintPath text fs p :
  (addStep fenv processCwd cwd agent hintPath text fs).2 !! p <> fs !! p ->
  Fs.resolvePath processCwd (resolveAgentPath agent hintPath) (Some cwd) = inr p.
Proof.
  unfold addStep.
  destruct (Fs.resolvePath processCwd (resolveAgentPath agent hintPath) (Some cwd))
    as [e|absolutePath]; [done|].
  rewrite writeHintToFile_eq.
  destruct (decide (p = absolutePath)) as [->|Hne]; [done|].
  intros H. exfalso. apply H. clear H.
  destruct (if Transformer.appendMode _ then _ else _); [done|].
  destruct (mkdirFault fenv (dirname absolutePath)); [done|].
  destruct (writeFault fenv absolutePath) as [[m [remains|]]|];
    cbn; by rewrite ?lookup_insert_ne.
Qed.

Lemma removeStep_frame fenv processCwd cwd agent hintPath fs p :
  (removeStep fenv processCwd cwd agent hintPath fs).2 !! p <> fs !! p ->
  Fs.resolvePath processCwd (resolveAgentPath agent hintPath) (Some cwd) = inr p.
Proof.
  unfold removeStep.
  destruct (Fs.resolvePath processCwd (resolveAgentPath agent hintPath) (Some cwd))
    as [e|absolutePath]; [done|].
  destruct (decide (p = absolutePath)) as [->|Hne]; [done|].
  intros H. exfalso. apply H. clear H.
  unfold readFile, fileExists, deleteFile, writeFile, ensureDir, fsWriteFile,
    ioBind.
  destruct (Agents.appendMode agent).
  - destruct (readFault fenv absolutePath); [done|].
    destruct (negb (truthy (fs !! absolutePath))); [done|].
    destruct (negb (truthy (extractSection _ hintPath))); [done|].
    destruct (length (trim _) =? 0)%nat.
    + destruct (writeFault fenv absolutePath); [done|].
      destruct (fs !! absolutePath); [|done].
      cbn. by rewrite lookup_delete_ne.
    + destruct (mkdirFault fenv (dirname absolutePath)); [done|].
      destruct (writeFault fenv absolutePath) as [[m [remains|]]|];
        cbn; by rewrite ?lookup_insert_ne.
  - destruct (readFault fenv absolutePath); [done|].
    destruct (negb (bool_decide _)); [done|].
    destruct (writeFault fenv absolutePath); [done|].
    destruct (fs !! absolutePath); [|done].
    cbn. by rewrite lookup_delete_ne.
Qed.

(** X16: a turn of [add] or of [remove] changes no file other than the
    guarded path of the agent for the hint, and that path lies inside the
    working directory; in particular a turn whose path escapes changes no
    file at all. *)
Theorem commands_write_inside fenv processCwd cwd agent hintPath text fs p :
  (addStep fenv processCwd cwd agent hintPath text fs).2 !! p <> fs !! p \/
  (removeStep fenv processCwd cwd agent hintPath fs).2 !! p <> fs !! p ->
  p = resolve processCwd
        [resolve processCwd [cwd]; resolveAgentPath agent hintPath] /\
  inside (resolve processCwd [cwd]) p.
Proof.
  intros [H%addStep_frame|H%removeStep_frame]; by apply resolvePath_guard in H.
Qed.

Lemma commands_write_inside_witness :
  inside (lit "/home/user/project") (lit "/home/user/project/.cursor/rules/prisma.mdc").
Proof.
  refine (proj2 (commands_write_inside noFaults (lit "/home/user/project")
                   (lit "/home/user/project") cursor (lit "prisma")
                   (lit "Use pnpm.") ∅
                   (lit "/home/user/project/.cursor/rules/prisma.mdc") _)).
  left. vm_compute. discriminate.
Defined.

(** ** Adding a hint and removing it again *)

Lemma wrapInSection_nonempty body slug : wrapInSection body slug <> [].
Proof. done. Qed.

(** The collapse of a trimmed, non-empty text is trimmed and not empty. *)
Lemma trim_collapse_trimmed F c t :
  trim F = c :: t ->
  trim (collapseNewlines (trim F)) = collapseNewlines (trim F) /\
  collapseNewlines (trim F) <> [].
Proof.
  intros ET. destruct (trim_ends F) as [Hhead Hlast].
  specialize (Hhead c t ET).
  destruct (exists_last (l := c :: t)) as (t' & d & Et); [done|].
  assert (isWhiteSpace d = false) as Hd.
  { apply (Hlast d t'). by rewrite ET. }
  rewrite ET. unfold collapseNewlines.
  destruct (collapseFrom_last 0 t' d (nonwhite_not_LF _ Hd)) as [y Ey].
  rewrite <- Et in Ey.
  assert (exists x, collapseFrom 0 (c :: t) = c :: x) as [x Ex].
  { rewrite collapseFrom_other by by apply nonwhite_not_LF. by eexists. }
  split; [|by rewrite Ex].
  unfold trim. rewrite Ex. cbn [trimStart]. rewrite Hhead.
  rewrite <- Ex, Ey. by apply trimEnd_id.
Qed.

(** X17: for an agent that keeps its hints in one shared file, adding a
    hint and removing it again (no file error, slug without line feed,
    rendered content without the end marker, target file without the
    markers of the slug) leaves every other file alone and the target file
    trimmed with its runs of three or more line feeds collapsed; a target
    file that was missing, empty or blank is missing afterwards. *)
Theorem add_then_remove fenv processCwd cwd agent hintPath text fs absolutePath :
  Agents.appendMode agent = true ->
  Fs.resolvePath processCwd (resolveAgentPath agent hintPath) (Some cwd)
  = inr absolutePath ->
  quiet fenv absolutePath = true ->
  lineFree hintPath = true ->
  includes (rendered text hintPath agent) (sectionEnd hintPath) = false ->
  markerFree (default [] (fs !! absolutePath)) hintPath = true ->
  let added := addStep fenv processCwd cwd agent hintPath text fs in
  added.1 = inr (Added (resolveAgentPath agent hintPath)) /\
  removeStep fenv processCwd cwd agent hintPath added.2
  = match trim (default [] (fs !! absolutePath)) with
    | [] => (inr RemovedAndDeleted, delete absolutePath fs)
    | _ :: _ =>
        (inr RemovedFromFile,
         <[absolutePath :=
             collapseNewlines (trim (default [] (fs !! absolutePath)))]> fs)
    end.
Proof.
  intros A E Q Hl Hb HF. cbn zeta. rewrite (addStep_eq _ _ _ _ _ _ _ _ E Q), A.
  split; [done|]. cbn [snd].
  destruct (quiet_faults _ _ Q) as (R & W & D).
  set (F := default [] (fs !! absolutePath)) in *.
  set (S := wrapInSection (rendered text hintPath agent) hintPath).
  pose proof (wrapInSection_whole _ _ Hl Hb) as HS. fold S in HS.
  assert (extractSection (upsertSection F hintPath S) hintPath = Some S) as HX.
  { apply roundtrip_any_path; [done|]. by rewrite HF, Hl, orb_true_r. }
  assert (upsertSection F hintPath S <> []) as HU.
  { rewrite upsertSection_append by by apply markerFree_no_section.
    destruct (trim F); [done|]. done. }
  unfold removeStep. rewrite E, A. unfold readFile. rewrite R, lookup_insert_eq.
  assert (truthy (Some (upsertSection F hintPath S)) = true) as ->
    by (by destruct (upsertSection F hintPath S)).
  change (default [] (Some (upsertSection F hintPath S)))
    with (upsertSection F hintPath S).
  rewrite HX. assert (truthy (Some S) = true) as -> by done. cbn [negb].
  rewrite (remove_after_upsert F hintPath S HF Hl HS).
  destruct (trim F) as [|c t] eqn:ET.
  - cbn [collapseNewlines collapseFrom flushLF]. cbn.
    unfold deleteFile. rewrite W, lookup_insert_eq. by rewrite delete_insert_eq.
  - rewrite <- ET. destruct (trim_collapse_trimmed F c t ET) as [-> Hne].
    destruct (collapseNewlines (trim F)) as [|x0 x] eqn:EC; [done|].
    cbn [length Nat.eqb]. unfold writeFile, ensureDir, fsWriteFile, ioBind.
    rewrite D, W. by rewrite insert_insert_eq.
Qed.

Lemma add_then_remove_witness :
  let cwd := lit "/home/user/project" in
  let p := lit "/home/user/project/CLAUDE.md" in
  let fs : Files := {[ p := [LF] ++ lit "# Rules" ++ [LF; LF; LF] ++ lit "Be kind." ++ [LF] ]} in
  removeStep noFaults cwd cwd claude (lit "prisma")
    (addStep noFaults cwd cwd claude (lit "prisma") (lit "Use pnpm.") fs).2
  = (inr RemovedFromFile, <[p := lit "# Rules" ++ [LF; LF] ++ lit "Be kind."]> fs)
  /\
  removeStep noFaults cwd cwd claude (lit "prisma")
    (addStep noFaults cwd cwd claude (lit "prisma") (lit "Use pnpm.") ∅).2
  = (inr RemovedAndDeleted, ∅).
Proof.
  intros cwd p fs. split.
  - exact (proj2 (add_then_remove noFaults cwd cwd claude (lit "prisma")
                    (lit "Use pnpm.") fs p eq_refl eq_refl eq_refl eq_refl
                    eq_refl eq_refl)).
  - exact (proj2 (add_then_remove noFaults cwd cwd claude (lit "prisma")
                    (lit "Use pnpm.") ∅ p eq_refl eq_refl eq_refl eq_refl
                    eq_refl eq_refl)).
Defined.

(** X18: for an agent with a file per hint, adding a hint writes exactly
    the rendered content to the hint's file, and removing the hint deletes
    that file, whatever it held before the hint was added. *)
Theorem add_then_remove_per_hint fenv processCwd cwd agent hintPath text fs
  absolutePath :
  Agents.appendMode agent = false ->
  Fs.resolvePath processCwd (resolveAgentPath agent hintPath) (Some cwd)
  = inr absolutePath ->
  quiet fenv absolutePath = true ->
  let added := addStep fenv processCwd cwd agent hintPath text fs in
  added = (inr (Added (resolveAgentPath agent hintPath)),
           <[absolutePath := rendered text hintPath agent]> fs) /\
  removeStep fenv processCwd cwd agent hintPath added.2
  = (inr RemovedFile, delete absolutePath fs).
Proof.
  intros A E Q. cbn zeta. rewrite (addStep_eq _ _ _ _ _ _ _ _ E Q), A.
  split; [done|]. cbn [snd]. destruct (quiet_faults _ _ Q) as (R & W & D).
  unfold removeStep. rewrite E, A. unfold fileExists, deleteFile.
  rewrite R, W, lookup_insert_eq. rewrite bool_decide_true by done.
  cbn [negb]. by rewrite delete_insert_eq.
Qed.

Lemma add_then_remove_per_hint_witness :
  let cwd := lit "/home/user/project" in
  let p := lit "/home/user/project/.windsurf/rules/prisma.md" in
  addStep noFaults cwd cwd windsurf (lit "prisma") (lit "Use pnpm.") ∅
  = (inr (Added (lit ".windsurf/rules/prisma.md")), {[ p := lit "Use pnpm." ]})
  /\
  removeStep noFaults cwd cwd windsurf (lit "prisma") {[ p := lit "Use pnpm." ]}
  = (inr RemovedFile, ∅).
Proof.
  intros cwd p.
  destruct (add_then_remove_per_hint noFaults cwd cwd windsurf (lit "prisma")
              (lit "Use pnpm.") ∅ p eq_refl eq_refl eq_refl) as [H1 H2].
  rewrite H1 in H2. split; [exact H1|exact H2].
Defined.

(** X19: for an agent that keeps its hints in one shared file, adding the
    same hint a second time changes no file (no file error, slug without
    line feed, rendered content without the end marker, a section text
    without replacement pattern, and a target file that has a section of
    the slug or neither of its markers). *)
Theorem addStep_twice fenv processCwd cwd agent hintPath text fs absolutePath :
  Agents.appendMode agent = true ->
  Fs.resolvePath processCwd (resolveAgentPath agent hintPath) (Some cwd)
  = inr absolutePath ->
  quiet fenv absolutePath = true ->
  lineFree hintPath = true ->
  includes (rendered text hintPath agent) (sectionEnd hintPath) = false ->
  plainReplacement (wrapInSection (rendered text hintPath agent) hintPath) = true ->
  hasSection (default [] (fs !! absolutePath)) hintPath
  || markerFree (default [] (fs !! absolutePath)) hintPath = true ->
  let added := addStep fenv processCwd cwd agent hintPath text fs in
  added.1 = inr (Added (resolveAgentPath agent hintPath)) /\
  addStep fenv processCwd cwd agent hintPath text added.2 = added.
Proof.
  intros A E Q Hl Hb Hp HF. cbn zeta.
  rewrite !(addStep_eq _ _ _ _ _ _ _ _ E Q), A. split; [done|]. cbn [snd].
  rewrite lookup_insert_eq, insert_insert_eq.
  set (F := default [] (fs !! absolutePath)) in *.
  set (S := wrapInSection (rendered text hintPath agent) hintPath) in *.
  change (default [] (Some (upsertSection F hintPath S)))
    with (upsertSection F hintPath S).
  pose proof (wrapInSection_whole _ _ Hl Hb) as HS. fold S in HS.
  assert (extractSection (upsertSection F hintPath S) hintPath = Some S) as HX.
  { apply roundtrip_any_path; [done|]. by rewrite Hp, Hl, !andb_true_r. }
  destruct (upsertSection_in_place _ _ _ S HX Hp) as (before & after & EF & ->).
  by rewrite EF.
Qed.

Lemma addStep_twice_witness :
  let cwd := lit "/home/user/project" in
  let p := lit "/home/user/project/CLAUDE.md" in
  let fs : Files := {[ p := lit "# Rules" ]} in
  let added := addStep noFaults cwd cwd claude (lit "prisma") (lit "Use pnpm.") fs in
  addStep noFaults cwd cwd claude (lit "prisma") (lit "Use pnpm.") added.2 = added.
Proof.
  intros cwd p fs.
  exact (proj2 (addStep_twice noFaults cwd cwd claude (lit "prisma")
                  (lit "Use pnpm.") fs p eq_refl eq_refl eq_refl eq_refl
                  eq_refl eq_refl eq_refl)).
Defined.

(* ===================================================================== *)
(** * The agents table and the paths of the hints *)
(* ===================================================================== *)






(* ===================================================================== *)
(** * appendFile *)
(* ===================================================================== *)

(** X21: two [appendFile] calls on a path that is missing or empty (no
    file error) leave the trimmed first content, a blank line and the
    second content; an empty first content leaves the second alone. *)
Theorem appendFile_twice fenv p c1 c2 fs :
  quiet fenv p = true -> truthy (fs !! p) = false ->
  ioBind (appendFile fenv p c1) (fun _ => appendFile fenv p c2) fs
  = (inr tt,
     <[p := match c1 with
            | [] => c2
            | _ :: _ => trim c1 ++ [LF; LF] ++ c2
            end]> fs).
Proof.
  intros (R & W & D)%quiet_faults Hm.
  unfold ioBind, appendFile, ensureDir, ioBind, readFile, fsWriteFile.
  rewrite D, R, Hm, W.
  rewrite lookup_insert_eq. destruct c1 as [|c t].
  - cbn [truthy]. by rewrite insert_insert_eq.
  - cbn [truthy]. by rewrite insert_insert_eq.
Qed.

Lemma appendFile_twice_witness :
  let p := lit "/home/user/project/NOTES.md" in
  ioBind (appendFile noFaults p (lit "one" ++ [LF]))
    (fun _ => appendFile noFaults p (lit "two")) ∅
  = (inr tt, {[ p := lit "one" ++ [LF; LF] ++ lit "two" ]}).
Proof.
  intros p. etransitivity.
  - apply (appendFile_twice noFaults p (lit "one" ++ [LF]) (lit "two") ∅);
      vm_compute; reflexivity.
  - vm_compute. reflexivity.
Defined.

(* ===================================================================== *)
(** * resolvePath on its own results *)
(* ===================================================================== *)

(** An absolute path of proper names resolves to itself, whatever comes
    before it. *)
Lemma resolve_fixed processCwd before names :
  forallb properName names = true ->
  resolve processCwd [before; SLASH :: joinSlash names] = SLASH :: joinSlash names.
Proof.
  intros Hn. unfold resolve. cbn [rev app resolveLoop].
  assert (isAbsolute (SLASH :: joinSlash names) = true) as -> by done.
  cbn [negb]. f_equal. unfold normalizeString.
  assert (forall x, splitSlash (SLASH :: x) = [] :: splitSlash x) as -> by done.
  rewrite (splitSlash_app (joinSlash names) []). cbn [splitSlash app].
  destruct names as [|n0 names'].
  - done.
  - rewrite splitSlash_joinSlash by (by try apply forallb_proper_slashFree).
    rewrite normSegs_names.
    + change ([] :: (n0 :: names') ++ [[]]) with ([[]] ++ (n0 :: names') ++ [[]]).
      rewrite !filter_app, (filter_proper (n0 :: names')) by done.
      assert (filter (fun seg : jsstring => seg <> []) [[]] = []) as -> by done.
      cbn [rev app]. by rewrite app_nil_r.
    + cbn [forallb streq orb]. rewrite forallb_app.
      rewrite forallb_proper_or_empty by done. done.
Qed.

(** X22: with an absolute process directory, a path that [resolvePath]
    returned is returned unchanged when it is resolved again against the
    same working directory. *)
Theorem resolvePath_idempotent processCwd relativePath cwd absolutePath :
  isAbsolute processCwd = true ->
  Fs.resolvePath processCwd relativePath cwd = inr absolutePath ->
  Fs.resolvePath processCwd absolutePath cwd = inr absolutePath.
Proof.
  intros Habs. unfold Fs.resolvePath.
  set (baseDir := resolve processCwd [default processCwd cwd]).
  destruct (negb (startsWith (resolve processCwd [baseDir; relativePath])
                    (baseDir ++ sep))
            && negb (streq (resolve processCwd [baseDir; relativePath]) baseDir))
    eqn:G; [done|].
  intros [= <-].
  destruct (resolve_normalized processCwd [baseDir; relativePath] Habs)
    as (names & E & Hn).
  rewrite E in *. rewrite resolve_fixed by done. by rewrite G.
Qed.

Lemma resolvePath_idempotent_witness :
  Fs.resolvePath (lit "/w") (lit "/home/user/project/.cursor/rules/x.mdc")
    (Some (lit "/home/user/project"))
  = inr (lit "/home/user/project/.cursor/rules/x.mdc").
Proof.
  apply (resolvePath_idempotent (lit "/w") (lit ".cursor/rules/../rules/x.mdc"));
    vm_compute; reflexivity.
Defined.
